(** * Peer manager of libtransmission (peer-mgr.cc): a shallow embedding

    The development follows the layout of [libtransmission/peer-mgr.cc]:
    wire-level PEX decoding, request bookkeeping and endgame detection,
    the swarm with its three address-keyed pools, handshake admission,
    gossip ingestion, the rechoke pulse and the outbound dialer.

    Conventions.
    - Unsigned machine integers are [N] or [Z] with the wrap-around written
      out where the source can wrap.
    - [std::unordered_map] is a [gmap]; the pools hold pointers to
      node-stable [tr_peer_info] objects, which live in a separate store,
      because [tr_peerMsgs] keeps raw pointers to them.
    - [std::vector<tr_peerMsgs*>] is a list of peer objects, each carrying
      the identity ([msgs]) that the source compares pointers on.
    - Randomness ([tr_salt_shaker], [tr_rand_int]) is an explicit input. *)

From Stdlib Require Import ZArith NArith Lia List Bool Sorting.Permutation Sorting.Sorted.
From Stdlib Require Import Init.Byte.
From stdpp Require Import base decidable countable gmap list fin_maps.

Set Default Proof Using "Type".

(** ** Addresses, ports, socket addresses *)

Inductive tr_address_type := TR_AF_INET | TR_AF_INET6.

#[global] Instance tr_address_type_eq_dec : EqDecision tr_address_type.
Proof. solve_decision. Defined.

(** Modelled from the spec: [tr_address] (net.h) is not part of this file;
    an address is its family together with the raw address bytes, which are
    kept as the big-endian number they spell. *)
Record tr_address := mk_address { addr_type : tr_address_type; addr_value : N }.

#[global] Instance tr_address_eq_dec : EqDecision tr_address.
Proof. solve_decision. Defined.

#[global] Program Instance tr_address_countable : Countable tr_address :=
  inj_countable'
    (fun a => (match addr_type a with TR_AF_INET => false | TR_AF_INET6 => true end, addr_value a))
    (fun p => mk_address (if fst p then TR_AF_INET6 else TR_AF_INET) (snd p)) _.
Next Obligation. by intros [[] v]. Qed.

(** Modelled from the spec: [tr_port] (net.h) is a 16-bit port number;
    [std::empty(port)] holds exactly for port 0. *)
Abbreviation tr_port := N (only parsing).

Definition port_empty (p : tr_port) : bool := N.eqb p 0.

Abbreviation tr_socket_address := (tr_address * tr_port)%type (only parsing).

(** ** Compact PEX decoding: [tr_pex::from_compact_ipv4], [tr_pex::from_compact_ipv6] *)

Module Pex.

(** Modelled from the spec: the table [tr_socket_address::CompactSockAddrBytes]
    (net.h): 4 + 2 bytes for IPv4 and 16 + 2 bytes for IPv6. *)
Definition CompactAddrBytes (t : tr_address_type) : nat :=
  match t with TR_AF_INET => 4 | TR_AF_INET6 => 16 end.

Definition CompactPortBytes : nat := 2.

Definition CompactSockAddrBytes (t : tr_address_type) : nat :=
  CompactAddrBytes t + CompactPortBytes.

Record tr_pex := mk_pex { addr : tr_address; port : tr_port; flags : N }.

(** The number spelled by a byte string read big-endian (network order). *)
Definition be_value (bs : list byte) : N :=
  fold_left (fun acc b => (acc * 256 + Byte.to_N b)%N) bs 0%N.

(** Modelled from the spec: [tr_address::from_compact_ipv4] and
    [tr_address::from_compact_ipv6] (net.h) read the address bytes at
    [walk] and return the address with the advanced cursor. *)
Definition address_from_compact (t : tr_address_type) (walk : list byte)
  : tr_address * list byte :=
  (mk_address t (be_value (take (CompactAddrBytes t) walk)),
   drop (CompactAddrBytes t) walk).

(** Modelled from the spec: [tr_port::fromCompact] (net.h) reads two bytes
    in network order and returns the port with the advanced cursor. *)
Definition port_fromCompact (walk : list byte) : tr_port * list byte :=
  (be_value (take CompactPortBytes walk), drop CompactPortBytes walk).

(** The body of the [for (size_t i = 0; i < n; ++i)] loop, run for the
    [k] remaining iterations starting at index [i].  [added_f] is [None]
    for a null pointer; [added_f_len] is the length passed with it. *)
Fixpoint from_compact_loop (t : tr_address_type) (n : nat)
    (added_f : option (list byte)) (added_f_len : nat)
    (k i : nat) (walk : list byte) : list tr_pex * list byte :=
  match k with
  | O => ([], walk)
  | S k' =>
      let '(a, walk1) := address_from_compact t walk in
      let '(p, walk2) := port_fromCompact walk1 in
      let f :=
        match added_f with
        | Some fl =>
            if Nat.eqb n added_f_len
            then Byte.to_N (nth i fl Byte.x00)
            else 0%N
        | None => 0%N
        end in
      let '(rest, walk') := from_compact_loop t n added_f added_f_len k' (S i) walk2 in
      (mk_pex a p f :: rest, walk')
  end.

(** The decoder together with the final position of [walk]. *)
Definition from_compact_walk (t : tr_address_type) (compact : list byte)
    (added_f : option (list byte)) : list tr_pex * list byte :=
  let compact_len := length compact in
  let added_f_len := match added_f with Some fl => length fl | None => O end in
  let n := Nat.div compact_len (CompactSockAddrBytes t) in
  from_compact_loop t n added_f added_f_len n 0 compact.

Definition from_compact_ipv4 (compact : list byte) (added_f : option (list byte))
  : list tr_pex :=
  fst (from_compact_walk TR_AF_INET compact added_f).

Definition from_compact_ipv6 (compact : list byte) (added_f : option (list byte))
  : list tr_pex :=
  fst (from_compact_walk TR_AF_INET6 compact added_f).

(** What the claim on the decoders says, for one address family. *)
Definition decode_contract (t : tr_address_type) (stride : nat)
    (compact : list byte) (added_f : option (list byte)) : Prop :=
  let n := Nat.div (length compact) stride in
  let '(pex, walk) := from_compact_walk t compact added_f in
  length pex = n
  /\ walk = drop (n * stride) compact
  /\ length compact = n * stride + length walk
  /\ (forall fl, added_f = Some fl -> length fl <> n ->
        Forall (fun e => flags e = 0%N) pex)
  /\ (added_f = None -> Forall (fun e => flags e = 0%N) pex)
  /\ (forall fl, added_f = Some fl -> length fl = n ->
        map flags pex = map Byte.to_N fl).

End Pex.


(** ** Torrent and session, as far as the peer manager reads them *)

(** Modelled from the spec: the source tags [tr_peer_from] (transmission.h);
    a lower tag is a more trusted source.  The code of this file names the
    tags [TR_PEER_FROM_INCOMING], [TR_PEER_FROM_DHT] and [TR_PEER_FROM_PEX]. *)
Abbreviation tr_peer_from := N (only parsing).
Definition TR_PEER_FROM_INCOMING : tr_peer_from := 0%N.
Definition TR_PEER_FROM_LPD : tr_peer_from := 1%N.
Definition TR_PEER_FROM_TRACKER : tr_peer_from := 2%N.
Definition TR_PEER_FROM_DHT : tr_peer_from := 3%N.
Definition TR_PEER_FROM_PEX : tr_peer_from := 4%N.
Definition TR_PEER_FROM_RESUME : tr_peer_from := 5%N.
Definition TR_PEER_FROM_LTEP : tr_peer_from := 6%N.
Definition TR_PEER_FROM__MAX : nat := 7.

(** Modelled from the spec: the PEX flag bit "connectable" (peer-mgr.h). *)
Definition ADDED_F_CONNECTABLE : N := 16%N.

Inductive tr_priority_t := TR_PRI_LOW | TR_PRI_NORMAL | TR_PRI_HIGH.

(** Modelled from the spec: the queries of [tr_torrent] (torrent.h) that
    peer-mgr.cc makes, as the fields of a snapshot. *)
Record tr_torrent := mk_torrent {
  tor_id : N;
  info_hash : N;
  is_done : bool;
  tor_is_running : bool;
  is_private : bool;
  client_can_upload : bool;
  allows_pex : bool;
  left_until_done : N;            (* uint64_t *)
  peer_limit : nat;               (* uint16_t *)
  get_priority : tr_priority_t;
  recently_started : bool;        (* difftime(tr_time(), startDate) < 120 *)
  upload_is_maxed_out : bool      (* bandwidth_.is_maxed_out(TR_UP, now) *)
}.

(** Modelled from the spec: the queries of [tr_session] (session.h). *)
Record tr_session := mk_session {
  addressIsBlocked : tr_address -> bool;
  uploadSlotsPerTorrent : nat;
  peerLimit : nat;
  outgoing_peer_budget : nat;     (* static_cast<size_t>(peerLimit() * 0.95) *)
  allowsUTP : bool;
  allowsTCP : bool;
  socket_limit_reached : bool     (* tr_peer_socket::limit_reached(session) *)
}.

(** Modelled from the spec: [tr_block_info::BlockSize] (block-info.h),
    the 16 KiB block of the BitTorrent protocol. *)
Definition BlockSize : N := 16384%N.

Definition uint64_max : N := (2 ^ 64 - 1)%N.
Definition wrap64 (x : N) : N := (x mod 2 ^ 64)%N.

(** ** Outstanding block requests *)

Abbreviation tr_block_index_t := N (only parsing).

(** Identity of a [tr_peer] object (the pointer the source compares). *)
Abbreviation peer_ptr := nat (only parsing).

(** Modelled from the spec: the class [ActiveRequests]
    (peer-mgr-active-requests.h) is not part of this file.  Following the
    spec it holds at most one entry per (block, peer), each with the time
    the request was sent; [add] leaves an entry that is already there. *)
Module ActiveRequests.

Definition has (block : tr_block_index_t) (peer : peer_ptr)
    (ar : gmap (tr_block_index_t * peer_ptr) Z) : bool :=
  bool_decide (is_Some (ar !! (block, peer))).

Definition add (block : tr_block_index_t) (peer : peer_ptr) (when : Z)
    (ar : gmap (tr_block_index_t * peer_ptr) Z) : gmap (tr_block_index_t * peer_ptr) Z :=
  match ar !! (block, peer) with
  | Some _ => ar
  | None => <[(block, peer) := when]> ar
  end.

(** [remove(block, peer)] *)
Definition remove (block : tr_block_index_t) (peer : peer_ptr)
    (ar : gmap (tr_block_index_t * peer_ptr) Z) : gmap (tr_block_index_t * peer_ptr) Z :=
  delete (block, peer) ar.

(** [remove(peer)] *)
Definition remove_peer (peer : peer_ptr)
    (ar : gmap (tr_block_index_t * peer_ptr) Z) : gmap (tr_block_index_t * peer_ptr) Z :=
  filter (fun kv => snd (fst kv) <> peer) ar.

(** [remove(block)]: the peers that had the block requested, and what is left. *)
Definition remove_block (block : tr_block_index_t)
    (ar : gmap (tr_block_index_t * peer_ptr) Z)
  : list peer_ptr * gmap (tr_block_index_t * peer_ptr) Z :=
  (map (fun kv => snd (fst kv))
       (map_to_list (filter (fun kv => fst (fst kv) = block) ar)),
   filter (fun kv => fst (fst kv) <> block) ar).

Definition count_block (block : tr_block_index_t)
    (ar : gmap (tr_block_index_t * peer_ptr) Z) : nat :=
  size (filter (fun kv => fst (fst kv) = block) ar).

Definition count_peer (peer : peer_ptr)
    (ar : gmap (tr_block_index_t * peer_ptr) Z) : nat :=
  size (filter (fun kv => snd (fst kv) = peer) ar).

Definition sentBefore (when : Z)
    (ar : gmap (tr_block_index_t * peer_ptr) Z) : list (tr_block_index_t * peer_ptr) :=
  map fst (map_to_list (filter (fun kv => (snd kv < when)%Z) ar)).

End ActiveRequests.

(** ** Peer records *)

(** Modelled from the spec: the class [tr_peer_info] (peer-mgr.h) is not
    part of this file; its state is the record of section 3 of the spec. *)
Record tr_peer_info := mk_peer_info {
  listen_address : tr_address;
  listen_port : tr_port;                (* 0: not known *)
  pex_flags : N;
  from_first : tr_peer_from;
  from_best : tr_peer_from;
  connection_failure_count : N;
  connection_attempt_time : Z;
  latest_piece_data_time : Z;
  is_seed : bool;
  is_banned : bool;
  is_connected : bool;
  is_connectable : option bool;
  supports_utp : option bool;
  blocklisted_ : option bool
}.

Definition listen_socket_address (i : tr_peer_info) : tr_socket_address :=
  (listen_address i, listen_port i).

(** [tr_peer_info(socket_address, flags, from)] *)
Definition new_connectable_info (sa : tr_socket_address) (flags : N) (from : tr_peer_from)
  : tr_peer_info :=
  mk_peer_info (fst sa) (snd sa) flags from from 0 0 0 false false false None None None.

(** [tr_peer_info(address, flags, from)]: the listen port is not known. *)
Definition new_incoming_info (a : tr_address) (flags : N) (from : tr_peer_from)
  : tr_peer_info :=
  mk_peer_info a 0%N flags from from 0 0 0 false false false None None None.

(** Modelled from the spec: [found_at(from)] updates
    [from_best := min(from_best, from)]. *)
Definition found_at (from : tr_peer_from) (i : tr_peer_info) : tr_peer_info :=
  mk_peer_info (listen_address i) (listen_port i) (pex_flags i) (from_first i)
    (N.min (from_best i) from)
    (connection_failure_count i) (connection_attempt_time i) (latest_piece_data_time i)
    (is_seed i) (is_banned i) (is_connected i) (is_connectable i) (supports_utp i)
    (blocklisted_ i).

(** Modelled from the spec: [set_pex_flags] ORs the flags. *)
Definition set_pex_flags (flags : N) (i : tr_peer_info) : tr_peer_info :=
  mk_peer_info (listen_address i) (listen_port i) (N.lor (pex_flags i) flags) (from_first i)
    (from_best i)
    (connection_failure_count i) (connection_attempt_time i) (latest_piece_data_time i)
    (is_seed i) (is_banned i) (is_connected i) (is_connectable i) (supports_utp i)
    (blocklisted_ i).

(** Modelled from the spec: [on_connection_failed()] increments the failure count. *)
Definition on_connection_failed (i : tr_peer_info) : tr_peer_info :=
  mk_peer_info (listen_address i) (listen_port i) (pex_flags i) (from_first i)
    (from_best i)
    (connection_failure_count i + 1) (connection_attempt_time i) (latest_piece_data_time i)
    (is_seed i) (is_banned i) (is_connected i) (is_connectable i) (supports_utp i)
    (blocklisted_ i).

Definition set_connectable (b : bool) (i : tr_peer_info) : tr_peer_info :=
  mk_peer_info (listen_address i) (listen_port i) (pex_flags i) (from_first i)
    (from_best i)
    (connection_failure_count i) (connection_attempt_time i) (latest_piece_data_time i)
    (is_seed i) (is_banned i) (is_connected i) (Some b) (supports_utp i)
    (blocklisted_ i).

Definition set_utp_supported (b : bool) (i : tr_peer_info) : tr_peer_info :=
  mk_peer_info (listen_address i) (listen_port i) (pex_flags i) (from_first i)
    (from_best i)
    (connection_failure_count i) (connection_attempt_time i) (latest_piece_data_time i)
    (is_seed i) (is_banned i) (is_connected i) (is_connectable i) (Some b)
    (blocklisted_ i).

Definition set_connected (b : bool) (i : tr_peer_info) : tr_peer_info :=
  mk_peer_info (listen_address i) (listen_port i) (pex_flags i) (from_first i)
    (from_best i)
    (connection_failure_count i) (connection_attempt_time i) (latest_piece_data_time i)
    (is_seed i) (is_banned i) b (is_connectable i) (supports_utp i)
    (blocklisted_ i).

Definition set_listen_port (p : tr_port) (i : tr_peer_info) : tr_peer_info :=
  mk_peer_info (listen_address i) p (pex_flags i) (from_first i)
    (from_best i)
    (connection_failure_count i) (connection_attempt_time i) (latest_piece_data_time i)
    (is_seed i) (is_banned i) (is_connected i) (is_connectable i) (supports_utp i)
    (blocklisted_ i).

Definition set_connection_attempt_time (now : Z) (i : tr_peer_info) : tr_peer_info :=
  mk_peer_info (listen_address i) (listen_port i) (pex_flags i) (from_first i)
    (from_best i)
    (connection_failure_count i) now (latest_piece_data_time i)
    (is_seed i) (is_banned i) (is_connected i) (is_connectable i) (supports_utp i)
    (blocklisted_ i).

Definition set_blocklisted (b : option bool) (i : tr_peer_info) : tr_peer_info :=
  mk_peer_info (listen_address i) (listen_port i) (pex_flags i) (from_first i)
    (from_best i)
    (connection_failure_count i) (connection_attempt_time i) (latest_piece_data_time i)
    (is_seed i) (is_banned i) (is_connected i) (is_connectable i) (supports_utp i)
    b.

(** [tr_peer_info::is_blocklisted]: the answer is memoized in [blocklisted_]. *)
Definition is_blocklisted (session : tr_session) (i : tr_peer_info) : bool * tr_peer_info :=
  match blocklisted_ i with
  | Some b => (b, i)
  | None =>
      let value := addressIsBlocked session (listen_address i) in
      (value, set_blocklisted (Some value) i)
  end.

Definition tr_compare_3way {A} (lt : A -> A -> bool) (a b : A) : Z :=
  if lt a b then (-1)%Z else if lt b a then 1%Z else 0%Z.

(** Modelled from the spec: [compare_by_piece_data_time] and
    [compare_by_failure_count] (peer-mgr.h) are three-way comparisons of
    the latest piece-data time and of the failure count. *)
Definition compare_by_piece_data_time (a b : tr_peer_info) : Z :=
  tr_compare_3way Z.ltb (latest_piece_data_time a) (latest_piece_data_time b).

Definition compare_by_failure_count (a b : tr_peer_info) : Z :=
  tr_compare_3way N.ltb (connection_failure_count a) (connection_failure_count b).

(** [CompareAtomsByUsefulness]: better goes first. *)
Module CompareAtomsByUsefulness.

Definition compare (a b : tr_peer_info) : Z :=
  let val := compare_by_piece_data_time a b in
  if negb (Z.eqb val 0) then (- val)%Z
  else
    let val := tr_compare_3way N.ltb (from_best a) (from_best b) in
    if negb (Z.eqb val 0) then val
    else compare_by_failure_count a b.

Definition lt (a b : tr_peer_info) : bool := Z.ltb (compare a b) 0.

End CompareAtomsByUsefulness.

(** A connected peer, [tr_peerMsgs] (peer-msgs.h), as far as this file
    reads and writes it.  [msgs] is the identity of the object;
    [peer_info] is the raw pointer to its [tr_peer_info]. *)
Record tr_peerMsgs := mk_peerMsgs {
  msgs : peer_ptr;
  peer_info : nat;
  socket_address : tr_socket_address;
  is_incoming_connection : bool;
  do_purge : bool;
  isSeed : bool;
  peer_is_choked : bool;
  peer_is_interested : bool;
  speed_client_to_peer : Z;   (* get_piece_speed_bytes_per_second(now, TR_CLIENT_TO_PEER) *)
  speed_peer_to_client : Z    (* get_piece_speed_bytes_per_second(now, TR_PEER_TO_CLIENT) *)
}.

Definition set_do_purge (b : bool) (p : tr_peerMsgs) : tr_peerMsgs :=
  mk_peerMsgs (msgs p) (peer_info p) (socket_address p) (is_incoming_connection p)
    b (isSeed p) (peer_is_choked p) (peer_is_interested p)
    (speed_client_to_peer p) (speed_peer_to_client p).

(** Modelled from the spec: [set_choke] records whether we choke the peer. *)
Definition set_choke (b : bool) (p : tr_peerMsgs) : tr_peerMsgs :=
  mk_peerMsgs (msgs p) (peer_info p) (socket_address p) (is_incoming_connection p)
    (do_purge p) (isSeed p) b (peer_is_interested p)
    (speed_client_to_peer p) (speed_peer_to_client p).

(** ** The swarm *)

Record tr_swarm_stats := mk_stats {
  peer_count : nat;
  peer_from_count : list nat      (* indexed by tr_peer_from *)
}.

(** [tr_swarm].  [infos] is the store of the [tr_peer_info] objects owned
    by the three pools; a pool maps a socket address to the object's
    address in that store, so that moving a node between pools leaves the
    pointers held by [tr_peerMsgs] valid, as in the source. *)
Record tr_swarm := mk_swarm {
  outgoing_handshakes : gset tr_socket_address;
  stats : tr_swarm_stats;
  optimistic_unchoke_time_scaler : nat;      (* uint8_t *)
  is_running : bool;
  tor : tr_torrent;
  active_requests : gmap (tr_block_index_t * peer_ptr) Z;
  peers : list tr_peerMsgs;
  incoming_pool : gmap tr_socket_address nat;
  connectable_pool : gmap tr_socket_address nat;
  graveyard_pool : gmap tr_socket_address nat;
  infos : gmap nat tr_peer_info;
  optimistic : option peer_ptr;
  pool_is_all_seeds_ : option bool;
  is_endgame_ : bool
}.

Definition with_outgoing_handshakes (v : gset tr_socket_address) (s : tr_swarm) : tr_swarm :=
  mk_swarm v (stats s) (optimistic_unchoke_time_scaler s) (is_running s) (tor s)
    (active_requests s) (peers s) (incoming_pool s) (connectable_pool s) (graveyard_pool s)
    (infos s) (optimistic s) (pool_is_all_seeds_ s) (is_endgame_ s).

Definition with_stats (v : tr_swarm_stats) (s : tr_swarm) : tr_swarm :=
  mk_swarm (outgoing_handshakes s) v (optimistic_unchoke_time_scaler s) (is_running s) (tor s)
    (active_requests s) (peers s) (incoming_pool s) (connectable_pool s) (graveyard_pool s)
    (infos s) (optimistic s) (pool_is_all_seeds_ s) (is_endgame_ s).

Definition with_optimistic (o : option peer_ptr) (scaler : nat) (s : tr_swarm) : tr_swarm :=
  mk_swarm (outgoing_handshakes s) (stats s) scaler (is_running s) (tor s)
    (active_requests s) (peers s) (incoming_pool s) (connectable_pool s) (graveyard_pool s)
    (infos s) o (pool_is_all_seeds_ s) (is_endgame_ s).

Definition with_active_requests (v : gmap (tr_block_index_t * peer_ptr) Z) (s : tr_swarm)
  : tr_swarm :=
  mk_swarm (outgoing_handshakes s) (stats s) (optimistic_unchoke_time_scaler s) (is_running s)
    (tor s) v (peers s) (incoming_pool s) (connectable_pool s) (graveyard_pool s)
    (infos s) (optimistic s) (pool_is_all_seeds_ s) (is_endgame_ s).

Definition with_peers (v : list tr_peerMsgs) (s : tr_swarm) : tr_swarm :=
  mk_swarm (outgoing_handshakes s) (stats s) (optimistic_unchoke_time_scaler s) (is_running s)
    (tor s) (active_requests s) v (incoming_pool s) (connectable_pool s) (graveyard_pool s)
    (infos s) (optimistic s) (pool_is_all_seeds_ s) (is_endgame_ s).

Definition with_incoming_pool (v : gmap tr_socket_address nat) (s : tr_swarm) : tr_swarm :=
  mk_swarm (outgoing_handshakes s) (stats s) (optimistic_unchoke_time_scaler s) (is_running s)
    (tor s) (active_requests s) (peers s) v (connectable_pool s) (graveyard_pool s)
    (infos s) (optimistic s) (pool_is_all_seeds_ s) (is_endgame_ s).

Definition with_connectable_pool (v : gmap tr_socket_address nat) (s : tr_swarm) : tr_swarm :=
  mk_swarm (outgoing_handshakes s) (stats s) (optimistic_unchoke_time_scaler s) (is_running s)
    (tor s) (active_requests s) (peers s) (incoming_pool s) v (graveyard_pool s)
    (infos s) (optimistic s) (pool_is_all_seeds_ s) (is_endgame_ s).

Definition with_graveyard_pool (v : gmap tr_socket_address nat) (s : tr_swarm) : tr_swarm :=
  mk_swarm (outgoing_handshakes s) (stats s) (optimistic_unchoke_time_scaler s) (is_running s)
    (tor s) (active_requests s) (peers s) (incoming_pool s) (connectable_pool s) v
    (infos s) (optimistic s) (pool_is_all_seeds_ s) (is_endgame_ s).

Definition with_infos (v : gmap nat tr_peer_info) (s : tr_swarm) : tr_swarm :=
  mk_swarm (outgoing_handshakes s) (stats s) (optimistic_unchoke_time_scaler s) (is_running s)
    (tor s) (active_requests s) (peers s) (incoming_pool s) (connectable_pool s)
    (graveyard_pool s) v (optimistic s) (pool_is_all_seeds_ s) (is_endgame_ s).

Definition with_endgame (v : bool) (s : tr_swarm) : tr_swarm :=
  mk_swarm (outgoing_handshakes s) (stats s) (optimistic_unchoke_time_scaler s) (is_running s)
    (tor s) (active_requests s) (peers s) (incoming_pool s) (connectable_pool s)
    (graveyard_pool s) (infos s) (optimistic s) (pool_is_all_seeds_ s) v.

(** [mark_all_seeds_flag_dirty]: [pool_is_all_seeds_.reset()]. *)
Definition mark_all_seeds_flag_dirty (s : tr_swarm) : tr_swarm :=
  mk_swarm (outgoing_handshakes s) (stats s) (optimistic_unchoke_time_scaler s) (is_running s)
    (tor s) (active_requests s) (peers s) (incoming_pool s) (connectable_pool s)
    (graveyard_pool s) (infos s) (optimistic s) None (is_endgame_ s).

Definition peerCount (s : tr_swarm) : nat := length (peers s).

(** ** Request bookkeeping and endgame *)

(** [tr_swarm::updateEndgame]: we are in endgame if the number of bytes
    requested is at least the number of bytes left to download.  The
    product is computed in [uint64_t]. *)
Definition updateEndgame (s : tr_swarm) : tr_swarm :=
  with_endgame
    (N.leb (left_until_done (tor s))
           (wrap64 (N.of_nat (size (active_requests s)) * BlockSize)))
    s.

Definition isEndgame (s : tr_swarm) : bool := is_endgame_ s.

Definition RequestTtlSecs : Z := 90.

(** [tr_swarm::cancelOldRequests]; the CANCEL message sent to the peer is
    outside the swarm state. *)
Definition cancelOldRequests (now : Z) (s : tr_swarm) : tr_swarm :=
  let oldest := (now - RequestTtlSecs)%Z in
  with_active_requests
    (fold_left (fun ar bp => ActiveRequests.remove (fst bp) (snd bp) ar)
               (ActiveRequests.sentBefore oldest (active_requests s))
               (active_requests s))
    s.

(** [tr_peerMgrClientSentRequests]: one [add] per block of the span
    [[span_begin, span_end)]. *)
Definition tr_peerMgrClientSentRequests (peer : peer_ptr) (span_begin span_end : tr_block_index_t)
    (now : Z) (s : tr_swarm) : tr_swarm :=
  with_active_requests
    (fold_left (fun ar k => ActiveRequests.add (span_begin + N.of_nat k)%N peer now ar)
               (seq 0 (N.to_nat (span_end - span_begin)))
               (active_requests s))
    s.

(** The swarm operations that touch the request table without completing
    a block: requests sent, the peer callbacks for choke and reject, the
    refill upkeep, and [updateEndgame] itself (run by
    [tr_peerMgrGetNextRequests]).  [ClientGotRej] carries the block that
    [piece_loc] computes from the event. *)
Inductive swarm_op :=
  | OpClientSentRequests (peer : peer_ptr) (span_begin span_end : tr_block_index_t) (now : Z)
  | OpClientGotChoke (peer : peer_ptr)
  | OpClientGotRej (block : tr_block_index_t) (peer : peer_ptr)
  | OpCancelOldRequests (now : Z)
  | OpUpdateEndgame.

Definition swarm_step (s : tr_swarm) (op : swarm_op) : tr_swarm :=
  match op with
  | OpClientSentRequests peer b e now => tr_peerMgrClientSentRequests peer b e now s
  | OpClientGotChoke peer =>
      with_active_requests (ActiveRequests.remove_peer peer (active_requests s)) s
  | OpClientGotRej block peer =>
      with_active_requests (ActiveRequests.remove block peer (active_requests s)) s
  | OpCancelOldRequests now => cancelOldRequests now s
  | OpUpdateEndgame => updateEndgame s
  end.

Definition swarm_run (ops : list swarm_op) (s : tr_swarm) : tr_swarm :=
  fold_left swarm_step ops s.

(** The operations that never take a request out of the table. *)
Definition keeps_requests (op : swarm_op) : bool :=
  match op with
  | OpClientSentRequests _ _ _ _ | OpUpdateEndgame => true
  | _ => false
  end.

(** A stopped swarm without peers, requests or known addresses. *)
Definition new_swarm (t : tr_torrent) : tr_swarm :=
  mk_swarm ∅ (mk_stats 0 (repeat 0 TR_PEER_FROM__MAX)) 0 false t ∅ [] ∅ ∅ ∅ ∅ None None false.

Definition sample_torrent : tr_torrent :=
  mk_torrent 1 1 false true false true true (2 * BlockSize) 50 TR_PRI_NORMAL false false.

(** Two blocks left to download, both requested from peer 7. *)
Definition endgame_sample : tr_swarm :=
  tr_peerMgrClientSentRequests 7 0%N 2%N 100%Z (new_swarm sample_torrent).

(** ** Port learning and pool migration: [tr_swarm::on_got_port] *)

(** The peer of [peers] whose address is [m]. *)
Definition find_peer (m : peer_ptr) (ps : list tr_peerMsgs) : option tr_peerMsgs :=
  List.find (fun p => Nat.eqb (msgs p) m) ps.

(** A write through the pointer [m]. *)
Definition update_peer (m : peer_ptr) (f : tr_peerMsgs -> tr_peerMsgs) (ps : list tr_peerMsgs)
  : list tr_peerMsgs :=
  map (fun p => if Nat.eqb (msgs p) m then f p else p) ps.

(** [std::find_if(begin(peers), end(peers), pred)] followed by a write
    through the iterator: [None] when nothing matches, where the source
    dereferences [end()]. *)
Fixpoint update_first (pred : tr_peerMsgs -> bool) (f : tr_peerMsgs -> tr_peerMsgs)
    (ps : list tr_peerMsgs) : option (list tr_peerMsgs) :=
  match ps with
  | [] => None
  | p :: rest =>
      if pred p then Some (f p :: rest)
      else option_map (cons p) (update_first pred f rest)
  end.

(** [graveyard_pool.insert(node)]: an [unordered_map] keeps the entry it
    already has under that key, and the node handle that was not inserted
    destroys its [tr_peer_info]. *)
Definition graveyard_insert (key : tr_socket_address) (p : nat) (s : tr_swarm) : tr_swarm :=
  match graveyard_pool s !! key with
  | None => with_graveyard_pool (<[key := p]> (graveyard_pool s)) s
  | Some _ => with_infos (delete p (infos s)) s
  end.

(** [connectable_pool.erase(key)]: the node, if any, is destroyed. *)
Definition connectable_erase (key : tr_socket_address) (s : tr_swarm) : tr_swarm :=
  match connectable_pool s !! key with
  | None => s
  | Some p =>
      with_infos (delete p (infos s))
        (with_connectable_pool (delete key (connectable_pool s)) s)
  end.

Section PortLearning.

(** [tr_peer_info::merge] (peer-mgr.h) is not part of this file; the
    swarm code is embedded for an arbitrary [merge self that], the new
    value of [self]. *)
Variable merge : tr_peer_info -> tr_peer_info -> tr_peer_info.

(** [tr_swarm::on_got_port_duplicate_connection].  [m] is [msgs],
    [p_this] is [msgs->peer_info], and [it_that] points to the entry
    [(key_that, p_that)] of [connectable_pool].  The result is [None]
    where the source reads through a dangling pointer. *)
Definition on_got_port_duplicate_connection (m : peer_ptr) (p_this : nat)
    (key_that : tr_socket_address) (p_that : nat) (was_connectable : bool) (s : tr_swarm)
  : option (tr_swarm * bool) :=
  info_this ← infos s !! p_this;
  info_that ← infos s !! p_that;
  if CompareAtomsByUsefulness.lt info_this info_that then
    ps ← update_first (fun peer => Nat.eqb (peer_info peer) p_that) (set_do_purge true) (peers s);
    let s1 := with_peers ps s in
    let s2 :=
      if was_connectable
      then graveyard_insert key_that p_that
             (with_connectable_pool (delete key_that (connectable_pool s1)) s1)
      else s1 in
    Some (s2, false)
  else
    let s1 := with_infos (<[p_that := merge info_that info_this]> (infos s)) s in
    let s2 := with_peers (update_peer m (set_do_purge true) (peers s1)) s1 in
    let s3 :=
      if was_connectable
      then
        let key_this := listen_socket_address info_this in
        match connectable_pool s2 !! key_this with
        | Some p =>
            graveyard_insert key_this p
              (with_connectable_pool (delete key_this (connectable_pool s2)) s2)
        | None => s2
        end
      else s2 in
    Some (mark_all_seeds_flag_dirty s3, true).

(** [tr_swarm::on_got_port]. *)
Definition on_got_port (m : peer_ptr) (event_port : tr_port) (was_connectable : bool)
    (s : tr_swarm) : option tr_swarm :=
  this ← find_peer m (peers s);
  let p_this := peer_info this in
  info_this ← infos s !! p_this;
  let key_that := (listen_address info_this, event_port) in
  (* If we already know about this peer, merge the info objects *)
  let collision : option (tr_swarm * bool) :=
    match connectable_pool s !! key_that with
    | Some p_that =>
        info_that ← infos s !! p_that;
        (* If there is an existing connection to this peer, keep the better one *)
        let duplicate : option (tr_swarm * bool) :=
          if is_connected info_that
          then on_got_port_duplicate_connection m p_this key_that p_that was_connectable s
          else Some (s, false) in
        '(s1, handled) ← duplicate;
        if (handled : bool) then Some (s1, true)
        else
          info_this1 ← infos s1 !! p_this;
          info_that1 ← infos s1 !! p_that;
          let s2 := with_infos (<[p_this := merge info_this1 info_that1]> (infos s1)) s1 in
          Some (connectable_erase (listen_socket_address info_that1) s2, false)
    | None =>
        Some (if was_connectable then s
              else with_infos (alter (set_connectable true) p_this (infos s)) s,
              false)
    end in
  '(s1, returned) ← collision;
  if (returned : bool) then Some s1
  else
    (* move the node to its new key; [None] when the node is missing or the
       key is taken, where the source goes on with an empty node handle *)
    info_this1 ← infos s1 !! p_this;
    let old_key :=
      if was_connectable then listen_socket_address info_this1 else socket_address this in
    nh ← (if was_connectable then connectable_pool s1 else incoming_pool s1) !! old_key;
    let s2 :=
      if was_connectable
      then with_connectable_pool (delete old_key (connectable_pool s1)) s1
      else with_incoming_pool (delete old_key (incoming_pool s1)) s1 in
    let new_key := (fst old_key, event_port) in
    match connectable_pool s2 !! new_key with
    | Some _ => None
    | None =>
        let s3 := with_connectable_pool (<[new_key := nh]> (connectable_pool s2)) s2 in
        let s4 := with_infos (alter (set_listen_port event_port) p_this (infos s3)) s3 in
        Some (mark_all_seeds_flag_dirty s4)
    end.

(** The [ClientGotPort] case of [tr_swarm::peer_callback_bt]. *)
Definition client_got_port (m : peer_ptr) (event_port : tr_port) (s : tr_swarm)
  : option tr_swarm :=
  if port_empty event_port then Some s
  else
    this ← find_peer m (peers s);
    info ← infos s !! peer_info this;
    (* we don't know the listening port of this peer yet *)
    if port_empty (listen_port info) then on_got_port m event_port false s
    (* we got a new listening port from a known connectable peer *)
    else if negb (N.eqb (listen_port info) event_port) then on_got_port m event_port true s
    else Some s.

End PortLearning.

(** Modelled from the spec: one [merge] in the sense of section 4.1, which
    folds the other record's flags, source, failure counter and timestamps
    into the first one.  It only serves to run the swarm code on concrete
    states; the theorems hold for every [merge]. *)
Definition merge_model (self that : tr_peer_info) : tr_peer_info :=
  mk_peer_info (listen_address self) (listen_port self)
    (N.lor (pex_flags self) (pex_flags that)) (from_first self)
    (N.min (from_best self) (from_best that))
    (N.max (connection_failure_count self) (connection_failure_count that))
    (Z.max (connection_attempt_time self) (connection_attempt_time that))
    (Z.max (latest_piece_data_time self) (latest_piece_data_time that))
    (is_seed self || is_seed that) (is_banned self || is_banned that) (is_connected self)
    (is_connectable self) (supports_utp self) (blocklisted_ self).


(** *** Sample states for port learning *)

Definition sample_ip : tr_address := mk_address TR_AF_INET 16909060.   (* 1.2.3.4 *)

(** Peer A was dialled at 1.2.3.4:6881 and has exchanged piece data. *)
Definition sample_info_A : tr_peer_info :=
  mk_peer_info sample_ip 6881 0 TR_PEER_FROM_TRACKER TR_PEER_FROM_TRACKER 0 0 100
    false false true (Some true) None None.

(** Peer B connected to us from 1.2.3.4:54321; its listen port is unknown. *)
Definition sample_info_B : tr_peer_info :=
  mk_peer_info sample_ip 0 0 TR_PEER_FROM_INCOMING TR_PEER_FROM_INCOMING 1 0 0
    false false true None None None.

Definition sample_peer_A : tr_peerMsgs :=
  mk_peerMsgs 1 10 (sample_ip, 6881%N) false false false true false 0 0.

Definition sample_peer_B : tr_peerMsgs :=
  mk_peerMsgs 2 20 (sample_ip, 54321%N) true false false true false 0 0.

(** Scenario 2 of the spec: A sits in [connectable_pool], B in [incoming_pool]. *)
Definition sample_port_swarm : tr_swarm :=
  mk_swarm ∅ (mk_stats 2 [1; 0; 1; 0; 0; 0; 0]) 0 true sample_torrent ∅
    [sample_peer_A; sample_peer_B]
    {[ (sample_ip, 54321%N) := 20 ]}
    {[ (sample_ip, 6881%N) := 10 ]}
    ∅
    {[ 10 := sample_info_A; 20 := sample_info_B ]}
    None None false.

(** A third peer C, known at 1.2.3.4:7000 with older piece data than A,
    which later announces port 6881. *)
Definition sample_info_C : tr_peer_info :=
  mk_peer_info sample_ip 7000 0 TR_PEER_FROM_PEX TR_PEER_FROM_PEX 0 0 50
    false false true (Some true) None None.

Definition sample_peer_C : tr_peerMsgs :=
  mk_peerMsgs 3 30 (sample_ip, 7000%N) false false false true false 0 0.

Definition sample_rekey_swarm : tr_swarm :=
  mk_swarm ∅ (mk_stats 2 [0; 0; 1; 0; 1; 0; 0]) 0 true sample_torrent ∅
    [sample_peer_A; sample_peer_C]
    ∅
    {[ (sample_ip, 6881%N) := 10; (sample_ip, 7000%N) := 30 ]}
    ∅
    {[ 10 := sample_info_A; 30 := sample_info_C ]}
    None None false.

(** ** Peer records of a swarm: lookup and creation *)

(** [tr_swarm::get_existing_peer_info]: only [connectable_pool] is searched. *)
Definition get_existing_peer_info (sa : tr_socket_address) (s : tr_swarm) : option nat :=
  connectable_pool s !! sa.

(** [tr_swarm::ensure_info_exists]: [try_emplace] into the pool chosen by
    [is_connectable]; an entry that is already there is told where it was
    found and with which flags.  The result is the swarm and the address
    of the record. *)
Definition ensure_info_exists (sa : tr_socket_address) (flags : N) (from : tr_peer_from)
    (is_connectable : bool) (s : tr_swarm) : tr_swarm * nat :=
  let pool := if is_connectable then connectable_pool s else incoming_pool s in
  match pool !! sa with
  | Some p =>
      (mark_all_seeds_flag_dirty
         (with_infos (alter (fun i => set_pex_flags flags (found_at from i)) p (infos s)) s),
       p)
  | None =>
      let p := fresh (dom (infos s)) in
      let info :=
        if is_connectable then new_connectable_info sa flags from
        else new_incoming_info (fst sa) flags from in
      let s1 := with_infos (<[p := info]> (infos s)) s in
      let s2 :=
        if is_connectable
        then with_connectable_pool (<[sa := p]> (connectable_pool s1)) s1
        else with_incoming_pool (<[sa := p]> (incoming_pool s1)) s1 in
      (mark_all_seeds_flag_dirty s2, p)
  end.

(** ** Gossip ingestion: [tr_peerMgrAddPex] *)

Section AddPex.

(** [tr_isPex] and [tr_pex::is_valid_for_peers] (peer-mgr.h, net.h) are
    checks of the entry alone; they are not part of this file. *)
Variable tr_isPex : Pex.tr_pex -> bool.
Variable is_valid_for_peers : Pex.tr_pex -> bool.

(** The condition of the [if] in the loop of [tr_peerMgrAddPex]. *)
Definition pex_is_usable (session : tr_session) (from : tr_peer_from) (pex : Pex.tr_pex) : bool :=
  tr_isPex pex
  && negb (addressIsBlocked session (Pex.addr pex))
  && is_valid_for_peers pex
  && negb (N.eqb from TR_PEER_FROM_INCOMING)
  && (negb (N.eqb from TR_PEER_FROM_PEX)
      || negb (N.eqb (N.land (Pex.flags pex) ADDED_F_CONNECTABLE) 0)).

Definition add_pex_step (session : tr_session) (from : tr_peer_from)
    (acc : tr_swarm * nat) (pex : Pex.tr_pex) : tr_swarm * nat :=
  if pex_is_usable session from pex
  then (fst (ensure_info_exists (Pex.addr pex, Pex.port pex) (Pex.flags pex) from true
               (fst acc)),
        S (snd acc))
  else acc.

(** [tr_peerMgrAddPex]: the swarm afterwards and [n_used]. *)
Definition tr_peerMgrAddPex (session : tr_session) (from : tr_peer_from)
    (pex : list Pex.tr_pex) (s : tr_swarm) : tr_swarm * nat :=
  fold_left (add_pex_step session from) pex (s, 0).

End AddPex.

(** Every node a pool names is alive in the store. *)
Definition pool_nodes_alive (pool : gmap (tr_address * N) nat) (s : tr_swarm) : Prop :=
  forall sa p, pool !! sa = Some p -> is_Some (infos s !! p).

(** *** Invariants of gossip ingestion *)

(** A record has absorbed a report when reporting it again changes nothing. *)
Definition absorbed (flags : N) (from : tr_peer_from) (i : tr_peer_info) : Prop :=
  N.lor (pex_flags i) flags = pex_flags i /\ N.min (from_best i) from = from_best i.

(** The entry for [sa] is in place and has absorbed the report. *)
Definition settled (sa : tr_socket_address) (flags : N) (from : tr_peer_from) (s : tr_swarm)
  : Prop :=
  pool_is_all_seeds_ s = None
  /\ exists p i, connectable_pool s !! sa = Some p /\ infos s !! p = Some i
                 /\ absorbed flags from i.

Definition settled_entry (from : tr_peer_from) (e : Pex.tr_pex) (s : tr_swarm) : Prop :=
  settled (Pex.addr e, Pex.port e) (Pex.flags e) from s.

(** ** Handshake admission: [on_handshake_done] *)

(** [tr_handshake::Result] with the queries made on [result.io]. *)
Record tr_handshake_result := mk_handshake_result {
  hr_is_connected : bool;
  hr_read_anything_from_peer : bool;
  io_socket_address : tr_socket_address;
  io_is_incoming : bool;
  io_is_utp : bool;
  io_torrent_hash : N
}.

(** [tr_peerMgr]: the session, its torrents (each with its swarm), the
    incoming-handshake table and the cached candidate list. *)
Record tr_peerMgr := mk_peerMgr {
  session : tr_session;
  torrents : list tr_swarm;
  incoming_handshakes : gset tr_socket_address;
  outbound_candidates_ : list (N * tr_socket_address)
}.

Definition with_torrents (v : list tr_swarm) (mgr : tr_peerMgr) : tr_peerMgr :=
  mk_peerMgr (session mgr) v (incoming_handshakes mgr) (outbound_candidates_ mgr).

Definition with_incoming_handshakes (v : gset tr_socket_address) (mgr : tr_peerMgr) : tr_peerMgr :=
  mk_peerMgr (session mgr) (torrents mgr) v (outbound_candidates_ mgr).

Definition with_outbound_candidates (v : list (N * tr_socket_address)) (mgr : tr_peerMgr)
  : tr_peerMgr :=
  mk_peerMgr (session mgr) (torrents mgr) (incoming_handshakes mgr) v.

(** [tr_peerMgr::get_existing_swarm]. *)
Definition get_existing_swarm (hash : N) (mgr : tr_peerMgr) : option tr_swarm :=
  List.find (fun s => N.eqb (info_hash (tor s)) hash) (torrents mgr).

(** A write to the swarm of the torrent with that hash. *)
Definition put_swarm (hash : N) (s' : tr_swarm) (mgr : tr_peerMgr) : tr_peerMgr :=
  with_torrents
    (map (fun s => if N.eqb (info_hash (tor s)) hash then s' else s) (torrents mgr)) mgr.

(** The address given to a newly constructed [tr_peerMsgs]: one that no
    peer of the swarm has. *)
Definition fresh_peer_ptr (s : tr_swarm) : peer_ptr := fresh (map msgs (peers s)).

(** [create_bit_torrent_peer].  Modelled from the spec: [tr_peerMsgsNew]
    (peer-msgs.h) constructs the peer object, which starts choked and not
    interested and marks its [tr_peer_info] as connected. *)
Definition create_bit_torrent_peer (result : tr_handshake_result) (p : nat) (from : tr_peer_from)
    (s : tr_swarm) : tr_swarm :=
  let peer :=
    mk_peerMsgs (fresh_peer_ptr s) p (io_socket_address result) (io_is_incoming result)
      false false true false 0 0 in
  let s1 := with_infos (alter (set_connected true) p (infos s)) s in
  let s2 := with_peers (peers s1 ++ [peer]) s1 in
  with_stats
    (mk_stats (S (peer_count (stats s2)))
              (alter S (N.to_nat from) (peer_from_count (stats s2))))
    s2.

(** [on_handshake_done].  The result is [None] where the source
    dereferences a null or dangling [tr_peer_info] pointer. *)
Definition on_handshake_done (result : tr_handshake_result) (mgr : tr_peerMgr)
    : option (tr_peerMgr * bool) :=
  let ok := hr_is_connected result in
  let hash := io_torrent_hash result in
  let sa := io_socket_address result in
  let found := get_existing_swarm hash mgr in
  let mgr1 :=
    if io_is_incoming result
    then with_incoming_handshakes (incoming_handshakes mgr ∖ {[ sa ]}) mgr
    else mgr in
  let found1 :=
    if io_is_incoming result then found
    else option_map (fun s => with_outgoing_handshakes (outgoing_handshakes s ∖ {[ sa ]}) s) found in
  match found1 with
  | None => Some (mgr1, false)
  | Some s =>
      if negb ok || negb (is_running s) then
        match get_existing_peer_info sa s with
        | None => Some (put_swarm hash s mgr1, false)
        | Some p =>
            info ← infos s !! p;
            if negb (is_connected info) then
              let info1 := on_connection_failed info in
              let info2 :=
                if negb (hr_read_anything_from_peer result)
                then set_connectable false info1 else info1 in
              Some (put_swarm hash (with_infos (<[p := info2]> (infos s)) s) mgr1, false)
            else Some (put_swarm hash s mgr1, false)
        end
      else
        let located : option (tr_swarm * nat) :=
          if io_is_incoming result
          then Some (ensure_info_exists sa 0 TR_PEER_FROM_INCOMING false s)
          else option_map (pair s) (get_existing_peer_info sa s) in
        '(s1, p) ← located;
        info0 ← infos s1 !! p;
        let info1 := if negb (io_is_incoming result) then set_connectable true info0 else info0 in
        let info := if io_is_utp result then set_utp_supported true info1 else info1 in
        let s2 := with_infos (<[p := info]> (infos s1)) s1 in
        if is_banned info then Some (put_swarm hash s2 mgr1, false)
        else if Nat.leb (peer_limit (tor s2)) (peerCount s2) then
          Some (put_swarm hash s2 mgr1, false)
        else if is_connected info then Some (put_swarm hash s2 mgr1, false)
        else
          Some (put_swarm hash (create_bit_torrent_peer result p (from_first info) s2) mgr1,
                true)
  end.

(** The record that [on_handshake_done] will decide on, as the pools have
    it before the call: for an incoming connection the entry of
    [incoming_pool], otherwise the entry of [connectable_pool]. *)
Definition handshake_peer_info (result : tr_handshake_result) (s : tr_swarm)
  : option tr_peer_info :=
  p ← (if io_is_incoming result then incoming_pool s else connectable_pool s)
        !! io_socket_address result;
  infos s !! p.

(** The three reasons for refusing an otherwise successful handshake. *)
Definition admission_refused (result : tr_handshake_result) (s : tr_swarm) : bool :=
  match handshake_peer_info result s with
  | Some info => is_banned info || Nat.leb (peer_limit (tor s)) (peerCount s) || is_connected info
  | None => Nat.leb (peer_limit (tor s)) (peerCount s)
  end.

(** *** Sample inputs for handshake admission *)

Definition sample_session : tr_session :=
  mk_session (fun a => N.eqb (addr_value a) 666) 2 200 190 true true false.

Definition sample_mgr : tr_peerMgr :=
  mk_peerMgr sample_session [sample_port_swarm] ∅ [].

(** A completed incoming handshake from 1.2.3.5:40000 for torrent 1. *)
Definition sample_result : tr_handshake_result :=
  mk_handshake_result true true (mk_address TR_AF_INET 16909061, 40000%N) true false 1.

(** ** [tr_peerMgrGetPeers] *)

(** [tr_swarm::peer_is_in_use]. *)
Definition peer_is_in_use (s : tr_swarm) (info : tr_peer_info) : bool :=
  is_connected info || bool_decide (listen_socket_address info ∈ outgoing_handshakes s).

(** [is_peer_interesting]; the record is returned with its blocklist memo. *)
Definition is_peer_interesting (session : tr_session) (s : tr_swarm) (info : tr_peer_info)
  : bool * tr_peer_info :=
  if is_done (tor s) && is_seed info then (false, info)
  else if peer_is_in_use s info then (true, info)
  else
    let r := is_blocklisted session info in
    if fst r then (false, snd r)
    else if is_banned (snd r) then (false, snd r)
    else (true, snd r).

Inductive tr_peers_list_mode := TR_PEERS_CONNECTED | TR_PEERS_INTERESTING.

(** Insertion sort by a strict comparator: one outcome of [std::sort] and
    of the sorted prefix of [std::partial_sort]. *)
Fixpoint sort_insert {A} (lt : A -> A -> bool) (x : A) (l : list A) : list A :=
  match l with
  | [] => [x]
  | y :: r => if lt y x then y :: sort_insert lt x r else x :: y :: r
  end.

Definition sort_by {A} (lt : A -> A -> bool) (l : list A) : list A :=
  fold_right (sort_insert lt) [] l.

(** One step of the loop over [connectable_pool] in the
    [TR_PEERS_INTERESTING] branch: [acc] are the pointers collected so far. *)
Definition collect_interesting_step (session : tr_session) (address_type : tr_address_type)
    (acc : list nat * tr_swarm) (entry : tr_socket_address * nat) : list nat * tr_swarm :=
  let s := snd acc in
  if bool_decide (addr_type (fst (fst entry)) = address_type) then
    match infos s !! snd entry with
    | Some info =>
        let r := is_peer_interesting session s info in
        (if fst r then fst acc ++ [snd entry] else fst acc,
         with_infos (<[snd entry := snd r]> (infos s)) s)
    | None => acc
    end
  else acc.

Definition collect_interesting (session : tr_session) (address_type : tr_address_type)
    (s : tr_swarm) : list nat * tr_swarm :=
  fold_left (collect_interesting_step session address_type)
            (map_to_list (connectable_pool s)) ([], s).

(** [info'] is [info], possibly with its blocklist memo filled in. *)
Definition memo_filled (session : tr_session) (info info' : tr_peer_info) : Prop :=
  info' = info \/ info' = snd (is_blocklisted session info).

(** The swarm [s'] is [s] up to blocklist memos. *)
Definition memo_step (session : tr_session) (s s' : tr_swarm) : Prop :=
  tor s' = tor s
  /\ outgoing_handshakes s' = outgoing_handshakes s
  /\ forall p, match infos s !! p with
               | Some info => exists info', infos s' !! p = Some info'
                                            /\ memo_filled session info info'
               | None => infos s' !! p = None
               end.

(** Whether the loop over the pool collects the entry, read off the swarm
    before the call. *)
Definition entry_collected (session : tr_session) (address_type : tr_address_type)
    (s : tr_swarm) (entry : tr_socket_address * nat) : bool :=
  bool_decide (addr_type (fst (fst entry)) = address_type)
  && match infos s !! snd entry with
     | Some info => fst (is_peer_interesting session s info)
     | None => false
     end.

Section GetPeers.

(** [operator<] of [tr_pex] (peer-mgr.h) is not part of this file. *)
Variable pex_lt : Pex.tr_pex -> Pex.tr_pex -> bool.

Definition info_ptr_lt (s : tr_swarm) (p q : nat) : bool :=
  match infos s !! p, infos s !! q with
  | Some a, Some b => CompareAtomsByUsefulness.lt a b
  | _, _ => false
  end.

(** [tr_peerMgrGetPeers]: the list returned and the swarm with the
    blocklist memos filled in. *)
Definition tr_peerMgrGetPeers (session : tr_session) (address_type : tr_address_type)
    (list_mode : tr_peers_list_mode) (max_peer_count : nat) (s : tr_swarm)
  : list Pex.tr_pex * tr_swarm :=
  (* build a list of peer info objects *)
  let collected :=
    match list_mode with
    | TR_PEERS_CONNECTED =>
        (map peer_info
             (List.filter
                (fun peer =>
                   bool_decide (addr_type (fst (socket_address peer)) = address_type))
                (peers s)),
         s)
    | TR_PEERS_INTERESTING => collect_interesting session address_type s
    end in
  let s1 := snd collected in
  (* add the N most useful peers into our return list *)
  let n := Nat.min (length (fst collected)) max_peer_count in
  let best := take n (sort_by (info_ptr_lt s1) (fst collected)) in
  let pex :=
    omap (fun p =>
            info ← infos s1 !! p;
            Some (Pex.mk_pex (listen_address info) (listen_port info) (pex_flags info)))
         best in
  (sort_by pex_lt pex, s1).

End GetPeers.

(** *** Sample inputs for gossip ingestion *)

(** Three reports: a new address, the address of peer A, and a repeat of
    the first one with one more flag. *)
Definition sample_pex : list Pex.tr_pex :=
  [ Pex.mk_pex (mk_address TR_AF_INET 167772161) 51413 16;
    Pex.mk_pex sample_ip 6881 18;
    Pex.mk_pex (mk_address TR_AF_INET 167772161) 51413 17 ].

(** *** Sample state for the INTERESTING filter *)

(** Peer A of the samples above, now known to be a seed. *)
Definition sample_seed_A : tr_peer_info :=
  mk_peer_info sample_ip 6881 0 TR_PEER_FROM_TRACKER TR_PEER_FROM_TRACKER 0 0 100
    true false true (Some true) None None.

Definition sample_done_torrent : tr_torrent :=
  mk_torrent 1 1 true true false true true 0 50 TR_PRI_NORMAL false false.

(** We are done; the only known address is the connected seed A. *)
Definition sample_done_swarm : tr_swarm :=
  mk_swarm ∅ (mk_stats 1 [0; 0; 1; 0; 0; 0; 0]) 0 true sample_done_torrent ∅
    [sample_peer_A] ∅ {[ (sample_ip, 6881%N) := 10 ]} ∅ {[ 10 := sample_seed_A ]}
    None None false.

(** ** The rechoke pulse: [rechokeUploads] *)

Record ChokeData := mk_ChokeData {
  cd_msgs : peer_ptr;
  cd_rate : Z;
  cd_salt : N;
  cd_is_interested : bool;
  cd_was_choked : bool;
  cd_is_choked : bool
}.

Definition set_is_choked (b : bool) (c : ChokeData) : ChokeData :=
  mk_ChokeData (cd_msgs c) (cd_rate c) (cd_salt c) (cd_is_interested c) (cd_was_choked c) b.

(** [ChokeData::compare]: higher rate first, then unchoked first, then salt. *)
Definition ChokeData_compare (this that : ChokeData) : Z :=
  let val := tr_compare_3way Z.ltb (cd_rate this) (cd_rate that) in
  if negb (Z.eqb val 0) then (- val)%Z
  else if negb (Bool.eqb (cd_was_choked this) (cd_was_choked that))
       then (if cd_was_choked this then 1 else -1)%Z
       else tr_compare_3way N.ltb (cd_salt this) (cd_salt that).

Definition ChokeData_lt (this that : ChokeData) : bool :=
  Z.ltb (ChokeData_compare this that) 0.

(** [getRateBps] *)
Definition getRateBps (t : tr_torrent) (peer : tr_peerMsgs) : Z :=
  if is_done t then speed_client_to_peer peer
  else if is_private t then (speed_peer_to_client peer + speed_client_to_peer peer)%Z
  else speed_peer_to_client peer.

Definition OptimisticUnchokeMultiplier : nat := 4.

(** [peer != s->optimistic] *)
Definition is_not_optimistic (o : option peer_ptr) (peer : tr_peerMsgs) : bool :=
  match o with
  | Some m => negb (Nat.eqb (msgs peer) m)
  | None => true
  end.

(** The first loop of [rechokeUploads]: seeds are choked, everyone is
    choked when we cannot upload, and every other peer but the optimistic
    one gets a [ChokeData] (with [is_choked] set).  [salter k] is the salt
    of the [k]-th call of the salt shaker.  The result is the peers
    after the loop and the vector [choked]. *)
Fixpoint collect_choke_data (t : tr_torrent) (choke_all : bool) (o : option peer_ptr)
    (salter : nat -> N) (k : nat) (ps : list tr_peerMsgs)
  : list tr_peerMsgs * list ChokeData :=
  match ps with
  | [] => ([], [])
  | peer :: rest =>
      if isSeed peer then
        let r := collect_choke_data t choke_all o salter k rest in
        (set_choke true peer :: fst r, snd r)
      else if choke_all then
        let r := collect_choke_data t choke_all o salter k rest in
        (set_choke true peer :: fst r, snd r)
      else if is_not_optimistic o peer then
        let r := collect_choke_data t choke_all o salter (S k) rest in
        (peer :: fst r,
         mk_ChokeData (msgs peer) (getRateBps t peer) (salter k)
           (peer_is_interested peer) (peer_is_choked peer) true :: snd r)
      else
        let r := collect_choke_data t choke_all o salter k rest in
        (peer :: fst r, snd r)
  end.

(** The loop over the sorted [choked] that hands out the upload slots,
    started with [unchoked_interested] slots taken; it stops ([break]) once
    the slots are used up.  The result is the vector afterwards and
    [checked_choke_count]. *)
Fixpoint unchoke_best (slots : nat) (is_maxed_out : bool) (unchoked_interested : nat)
    (items : list ChokeData) : list ChokeData * nat :=
  match items with
  | [] => ([], 0)
  | item :: rest =>
      if Nat.leb slots unchoked_interested then (item :: rest, 0)
      else
        let item' := set_is_choked (if is_maxed_out then cd_was_choked item else false) item in
        let r := unchoke_best slots is_maxed_out
                   (if cd_is_interested item then S unchoked_interested else unchoked_interested)
                   rest in
        (item' :: fst r, S (snd r))
  end.

(** The optimistic unchoke: [rand_pool] holds the positions, from
    [checked_choke_count] on, of the interested entries; one of them is
    drawn and unchoked.  Modelled from the spec: [tr_rand_int(n)]
    (crypto-utils.h) is a number below [n]; it is the raw draw [rnd]
    reduced modulo [n].  The result is the vector afterwards and the peer
    chosen, or [None] when [rand_pool] is empty. *)
Definition choose_optimistic (rnd : nat) (checked_choke_count : nat) (items : list ChokeData)
  : option (list ChokeData * peer_ptr) :=
  let rand_pool :=
    List.filter
      (fun i => match items !! i with Some c => cd_is_interested c | None => false end)
      (seq checked_choke_count (length items - checked_choke_count)) in
  let n := length rand_pool in
  if Nat.eqb n 0 then None
  else
    i ← rand_pool !! (rnd mod n);
    c ← items !! i;
    Some (alter (set_is_choked false) i items, cd_msgs c).

(** The last loop: [item.msgs->set_choke(item.is_choked)]. *)
Definition apply_choke (items : list ChokeData) (ps : list tr_peerMsgs) : list tr_peerMsgs :=
  fold_left (fun ps item => update_peer (cd_msgs item) (set_choke (cd_is_choked item)) ps)
            items ps.

(** [rechokeUploads]. *)
Definition rechokeUploads (session : tr_session) (salter : nat -> N) (rnd : nat) (s : tr_swarm)
  : tr_swarm :=
  let choke_all := negb (client_can_upload (tor s)) in
  let is_maxed_out := upload_is_maxed_out (tor s) in
  (* an optimistic unchoke lasts for N calls *)
  let scaler1 :=
    if Nat.ltb 0 (optimistic_unchoke_time_scaler s)
    then optimistic_unchoke_time_scaler s - 1 else optimistic_unchoke_time_scaler s in
  let optimistic1 :=
    if Nat.ltb 0 (optimistic_unchoke_time_scaler s) then optimistic s else None in
  (* sort the peers by preference and rate *)
  let collected := collect_choke_data (tor s) choke_all optimistic1 salter 0 (peers s) in
  let choked := sort_by ChokeData_lt (snd collected) in
  let reciprocated := unchoke_best (uploadSlotsPerTorrent session) is_maxed_out 0 choked in
  let checked_choke_count := snd reciprocated in
  (* optimistic unchoke *)
  let chosen : option (list ChokeData * peer_ptr) :=
    match optimistic1 with
    | None =>
        if negb is_maxed_out && Nat.ltb checked_choke_count (length (fst reciprocated))
        then choose_optimistic rnd checked_choke_count (fst reciprocated)
        else None
    | Some _ => None
    end in
  let final := match chosen with Some r => fst r | None => fst reciprocated end in
  let optimistic2 := match chosen with Some r => Some (snd r) | None => optimistic1 end in
  let scaler2 := match chosen with Some _ => OptimisticUnchokeMultiplier | None => scaler1 end in
  with_optimistic optimistic2 scaler2 (with_peers (apply_choke final (fst collected)) s).

(** How many peers are unchoked and interested at once. *)
Definition is_unchoked_interested (p : tr_peerMsgs) : bool :=
  negb (peer_is_choked p) && peer_is_interested p.

Definition unchoked_interested_count (ps : list tr_peerMsgs) : nat :=
  length (List.filter is_unchoked_interested ps).

(** [peer == s->optimistic] *)
Definition is_optimistic_peer (s : tr_swarm) (p : tr_peerMsgs) : bool :=
  match optimistic s with
  | Some m => Nat.eqb (msgs p) m
  | None => false
  end.

(** *** Notions used to reason about the pulse *)

(** The peers that get a [ChokeData]. *)
Definition gets_choke_data (choke_all : bool) (o : option peer_ptr) (p : tr_peerMsgs) : bool :=
  negb (isSeed p) && negb choke_all && is_not_optimistic o p.

(** What the first loop does to a single peer. *)
Definition choke_first (choke_all : bool) (p : tr_peerMsgs) : tr_peerMsgs :=
  if isSeed p || choke_all then set_choke true p else p.

(** What the last loop does to a single peer. *)
Definition apply_choke_one (items : list ChokeData) (p : tr_peerMsgs) : tr_peerMsgs :=
  fold_left
    (fun p item => if Nat.eqb (msgs p) (cd_msgs item) then set_choke (cd_is_choked item) p else p)
    items p.

Definition item_unchoked_interested (c : ChokeData) : bool :=
  negb (cd_is_choked c) && cd_is_interested c.

(** An entry of [choked] stems from a peer of the swarm. *)
Definition item_of_peer (choke_all : bool) (o : option peer_ptr) (ps : list tr_peerMsgs)
    (c : ChokeData) : Prop :=
  exists p, p ∈ ps /\ gets_choke_data choke_all o p = true
            /\ msgs p = cd_msgs c /\ cd_is_interested c = peer_is_interested p.

(** *** Sample swarms for the rechoke pulse *)

Definition sample_leech (m : peer_ptr) (to_client : Z) (choked interested : bool) : tr_peerMsgs :=
  mk_peerMsgs m (100 + m) (mk_address TR_AF_INET (N.of_nat m), 6881%N) false false false
    choked interested 0 to_client.

(** Three interested leechers, all choked, no optimistic peer yet; the
    session grants two upload slots per torrent. *)
Definition sample_rechoke_swarm : tr_swarm :=
  mk_swarm ∅ (mk_stats 3 [0; 0; 3; 0; 0; 0; 0]) 0 true sample_torrent ∅
    [sample_leech 1 30 true true; sample_leech 2 20 true true; sample_leech 3 10 true true]
    ∅ ∅ ∅ ∅ None None false.

Definition sample_paused_torrent : tr_torrent :=
  mk_torrent 1 1 false true false false true (2 * BlockSize) 50 TR_PRI_NORMAL false false.

(** Peer 3 is the optimistic peer with two pulses to go and is unchoked,
    but the torrent cannot upload. *)
Definition sample_no_upload_swarm : tr_swarm :=
  mk_swarm ∅ (mk_stats 3 [0; 0; 3; 0; 0; 0; 0]) 2 true sample_paused_torrent ∅
    [sample_leech 1 30 true true; sample_leech 2 20 true true; sample_leech 3 10 false true]
    ∅ ∅ ∅ ∅ (Some 3) None false.

(** ** Outbound candidates and the dialer *)

Definition BandwidthTimerPeriod_ms : nat := 500.
Definition MaxConnectionsPerSecond : nat := 18.

(** [MaxConnectionsPerPulse = MaxConnectionsPerSecond * BandwidthTimerPeriod / 1s] *)
Definition MaxConnectionsPerPulse : nat :=
  Nat.div (MaxConnectionsPerSecond * BandwidthTimerPeriod_ms) 1000.

(** [OutboundCandidatesListTtl = BandwidthTimerPeriod * 4] and
    [OutboundCandidateListCapacity = MaxConnectionsPerPulse * Ttl / BandwidthTimerPeriod],
    which is also [OutboundCandidates::requested_inline_size]. *)
Definition OutboundCandidateListCapacity : nat :=
  Nat.div (MaxConnectionsPerPulse * (BandwidthTimerPeriod_ms * 4)) BandwidthTimerPeriod_ms.

(** [tr_swarm::is_all_seeds]: the answer is memoized in [pool_is_all_seeds_]. *)
Definition is_all_seeds (s : tr_swarm) : bool * tr_swarm :=
  match pool_is_all_seeds_ s with
  | Some b => (b, s)
  | None =>
      let b :=
        forallb (fun entry => match infos s !! snd entry with
                              | Some info => is_seed info
                              | None => false
                              end)
                (map_to_list (connectable_pool s)) in
      (b,
       mk_swarm (outgoing_handshakes s) (stats s) (optimistic_unchoke_time_scaler s)
         (is_running s) (tor s) (active_requests s) (peers s) (incoming_pool s)
         (connectable_pool s) (graveyard_pool s) (infos s) (optimistic s) (Some b)
         (is_endgame_ s))
  end.

(** [addValToKey]: the shift is a [uint64_t] shift. *)
Definition addValToKey (value : N) (width : N) (addme : N) : N :=
  N.lor (wrap64 (N.shiftl value width)) addme.

(** A [time_t] stored into a [uint64_t]. *)
Definition time_to_uint64 (t : Z) : N := Z.to_N (t mod 2 ^ 64).

(** [getPeerCandidateScore]: smaller is better. *)
Definition getPeerCandidateScore (t : tr_torrent) (info : tr_peer_info) (salt : N) : N :=
  let score := 0%N in
  (* prefer peers we've connected to, or never tried, over peers we failed to connect to *)
  let score := addValToKey score 1 (if negb (N.eqb (connection_failure_count info) 0) then 1 else 0) in
  (* prefer the one we attempted least recently *)
  let score := addValToKey score 32 (time_to_uint64 (connection_attempt_time info)) in
  (* prefer peers belonging to a torrent of a higher priority *)
  let score := addValToKey score 4
                 (match get_priority t with
                  | TR_PRI_HIGH => 0 | TR_PRI_NORMAL => 1 | TR_PRI_LOW => 2
                  end) in
  (* prefer recently-started torrents *)
  let score := addValToKey score 1 (if recently_started t then 0 else 1) in
  (* prefer torrents we're downloading with *)
  let score := addValToKey score 1 (if is_done t then 1 else 0) in
  (* prefer peers that are known to be connectible *)
  let score := addValToKey score 1
                 (if match is_connectable info with Some b => b | None => false end
                  then 0 else 1) in
  (* prefer peers that we might be able to upload to *)
  let score := addValToKey score 1 (if is_seed info then 0 else 1) in
  (* prefer peers that we got from more trusted sources *)
  let score := addValToKey score 4 (from_best info) in
  (* salt *)
  addValToKey score 8 salt.

(** [struct peer_candidate]; the record keeps the address that
    [get_peer_candidates] later reads through [peer_info]. *)
Record peer_candidate := mk_candidate {
  score : N;
  candidate_tor : N;
  candidate_address : tr_socket_address
}.

Definition candidate_key (c : peer_candidate) : N * tr_socket_address :=
  (candidate_tor c, candidate_address c).

Definition score_lt (a b : peer_candidate) : bool := N.ltb (score a) (score b).


Section Dialer.

(** [tr_peer_info::reconnect_interval_has_passed] (peer-mgr.h) is not
    part of this file. *)
Variable reconnect_interval_has_passed : tr_peer_info -> Z -> bool.

(** Whether [tr_peerIo::new_outgoing] yields a connection for an address. *)
Variable new_outgoing_ok : tr_socket_address -> bool.

(** [is_peer_candidate]; the record is returned with its blocklist memo. *)
Definition is_peer_candidate (session : tr_session) (s : tr_swarm) (info : tr_peer_info)
    (now : Z) : bool * tr_peer_info :=
  if match is_connectable info with Some false => true | _ => false end then (false, info)
  else if is_done (tor s) && is_seed info then (false, info)
  else if peer_is_in_use s info then (false, info)
  else if negb (reconnect_interval_has_passed info now) then (false, info)
  else
    let r := is_blocklisted session info in
    if fst r then (false, snd r)
    else if is_banned (snd r) then (false, snd r)
    else (true, snd r).

(** The loop over [connectable_pool] in [get_peer_candidates]: the
    candidates so far, the number of salts drawn, and the swarm. *)
Definition candidate_step (session : tr_session) (now : Z) (salter : nat -> N)
    (acc : list peer_candidate * nat * tr_swarm) (entry : tr_socket_address * nat)
  : list peer_candidate * nat * tr_swarm :=
  let s := snd acc in
  match infos s !! snd entry with
  | Some info =>
      let r := is_peer_candidate session s info now in
      let s' := with_infos (<[snd entry := snd r]> (infos s)) s in
      if fst r
      then (fst (fst acc)
              ++ [mk_candidate (getPeerCandidateScore (tor s) (snd r) (salter (snd (fst acc))))
                    (tor_id (tor s)) (listen_socket_address (snd r))],
            S (snd (fst acc)), s')
      else (fst (fst acc), snd (fst acc), s')
  | None => acc
  end.

(** The body of the loop over the torrents in [get_peer_candidates]. *)
Definition swarm_candidates (session : tr_session) (now : Z) (salter : nat -> N)
    (acc : list peer_candidate * nat) (s : tr_swarm)
  : list peer_candidate * nat * tr_swarm :=
  if negb (is_running s) then (acc, s)
  else
    let seeding := is_done (tor s) in
    (* if everyone in the swarm is seeds and pex is disabled, don't initiate connections *)
    let all_seeds := if seeding then is_all_seeds s else (false, s) in
    let s1 := snd all_seeds in
    if seeding && fst all_seeds && negb (allows_pex (tor s1)) then (acc, s1)
    (* if we've already got enough peers in this torrent... *)
    else if Nat.leb (peer_limit (tor s1)) (peerCount s1) then (acc, s1)
    (* if we've already got enough speed in this torrent... *)
    else if seeding && upload_is_maxed_out (tor s1) then (acc, s1)
    else
      fold_left (candidate_step session now salter)
                (map_to_list (connectable_pool s1)) (acc, s1).

(** [tr_peerMsgs::size()]: every connected peer of the session. *)
Definition total_peer_count (ts : list tr_swarm) : nat :=
  fold_right (fun s n => peerCount s + n) 0 ts.

(** The first half of [get_peer_candidates]: the vector [candidates] as
    populated by the loops, with the swarms afterwards. *)
Definition collect_candidates (session : tr_session) (now : Z) (salter : nat -> N)
    (ts : list tr_swarm) : list peer_candidate * list tr_swarm :=
  let r :=
    fold_left
      (fun (acc : list peer_candidate * nat * list tr_swarm) s =>
         let c := swarm_candidates session now salter (fst acc) s in
         (fst c, snd acc ++ [snd c]))
      ts (([], 0), []) in
  (fst (fst r), snd r).

(** The second half: only keep the best [max] candidates, then put the
    best candidates at the end of the list. *)
Definition best_candidates_last (candidates : list peer_candidate)
  : list (N * tr_socket_address) :=
  let kept :=
    if Nat.ltb OutboundCandidateListCapacity (length candidates)
    then take OutboundCandidateListCapacity (sort_by score_lt candidates)
    else candidates in
  map candidate_key (rev kept).

(** [get_peer_candidates]. *)
Definition get_peer_candidates (now : Z) (salter : nat -> N) (mgr : tr_peerMgr)
  : list (N * tr_socket_address) * tr_peerMgr :=
  (* leave 5% of connection slots for incoming connections *)
  if Nat.leb (outgoing_peer_budget (session mgr)) (total_peer_count (torrents mgr))
  then ([], mgr)
  else
    let c := collect_candidates (session mgr) now salter (torrents mgr) in
    (best_candidates_last (fst c), with_torrents (snd c) mgr).

(** [initiate_connection] on the record at address [p] of swarm [s]:
    the swarm afterwards and whether [tr_peerIo::new_outgoing] was called. *)
Definition initiate_connection (session : tr_session) (now : Z) (p : nat) (s : tr_swarm)
  : tr_swarm * bool :=
  match infos s !! p with
  | None => (s, false)
  | Some info =>
      let utp := allowsUTP session
                 && match supports_utp info with Some b => b | None => true end in
      if socket_limit_reached session || (negb utp && negb (allowsTCP session))
      then (s, false)
      else
        let sa := listen_socket_address info in
        let s1 :=
          if negb (new_outgoing_ok sa)
          then with_infos
                 (<[p := on_connection_failed (set_connectable false info)]> (infos s)) s
          else with_outgoing_handshakes (outgoing_handshakes s ∪ {[ sa ]}) s in
        (with_infos (alter (set_connection_attempt_time now) p (infos s1)) s1, true)
  end.

(** [torrents().get(tor_id)] *)
Definition get_torrent (id : N) (mgr : tr_peerMgr) : option tr_swarm :=
  List.find (fun s => N.eqb (tor_id (tor s)) id) (torrents mgr).

Definition put_torrent (id : N) (s' : tr_swarm) (mgr : tr_peerMgr) : tr_peerMgr :=
  with_torrents (map (fun s => if N.eqb (tor_id (tor s)) id then s' else s) (torrents mgr)) mgr.

(** One iteration of the loop of [make_new_peer_connections]: the manager
    and the connection attempts made so far. *)
Definition dial_step (now : Z) (acc : tr_peerMgr * list (N * tr_socket_address))
    (candidate : N * tr_socket_address) : tr_peerMgr * list (N * tr_socket_address) :=
  let mgr := fst acc in
  match get_torrent (fst candidate) mgr with
  | None => acc
  | Some s =>
      match get_existing_peer_info (snd candidate) s with
      | None => acc
      | Some p =>
          let r := initiate_connection (session mgr) now p s in
          (put_torrent (fst candidate) (fst r) mgr,
           if snd r then snd acc ++ [candidate] else snd acc)
      end
  end.

(** The candidate list that [make_new_peer_connections] works on: the
    cached one, rebuilt first when it is empty. *)
Definition candidates_to_dial (now : Z) (salter : nat -> N) (mgr : tr_peerMgr)
  : list (N * tr_socket_address) * tr_peerMgr :=
  match outbound_candidates_ mgr with
  | [] => get_peer_candidates now salter mgr
  | cached => (cached, mgr)
  end.

(** [tr_peerMgr::make_new_peer_connections]: the manager afterwards and
    the connection attempts initiated, in order. *)
Definition make_new_peer_connections (now : Z) (salter : nat -> N) (mgr : tr_peerMgr)
  : tr_peerMgr * list (N * tr_socket_address) :=
  (* get the candidates if we need to *)
  let c := candidates_to_dial now salter mgr in
  let candidates := fst c in
  (* initiate connections to the last N candidates *)
  let n_this_pass := Nat.min (length candidates) MaxConnectionsPerPulse in
  let r := fold_left (dial_step now) (take n_this_pass (rev candidates)) (snd c, []) in
  (* remove the N candidates that we just consumed *)
  (with_outbound_candidates (take (length candidates - n_this_pass) candidates) (fst r),
   snd r).

End Dialer.

(** *** Sample session for the dialer *)

Definition sample_candidate_info (n : N) : tr_peer_info :=
  new_connectable_info (mk_address TR_AF_INET (167772160 + n), 6881%N) 0 TR_PEER_FROM_TRACKER.

Definition sample_low_torrent : tr_torrent :=
  mk_torrent 1 1 false true false true true (2 * BlockSize) 50 TR_PRI_LOW false false.

Definition sample_high_torrent : tr_torrent :=
  mk_torrent 2 2 false true false true true (2 * BlockSize) 50 TR_PRI_HIGH false false.

Definition sample_pool (ns : list N) : gmap (tr_address * N) nat :=
  list_to_map (map (fun n => (listen_socket_address (sample_candidate_info n), N.to_nat n)) ns).

Definition sample_store (ns : list N) : gmap nat tr_peer_info :=
  list_to_map (map (fun n => (N.to_nat n, sample_candidate_info n)) ns).

Definition sample_dial_swarm (t : tr_torrent) (ns : list N) : tr_swarm :=
  mk_swarm ∅ (mk_stats 0 [0; 0; 0; 0; 0; 0; 0]) 0 true t ∅ [] ∅
    (sample_pool ns) ∅ (sample_store ns) None None false.

(** A low-priority torrent with nine known addresses and a high-priority
    torrent with one; nothing is cached yet. *)
Definition sample_dial_mgr : tr_peerMgr :=
  mk_peerMgr sample_session
    [ sample_dial_swarm sample_low_torrent [1; 2; 3; 4; 5; 6; 7; 8; 9]%N;
      sample_dial_swarm sample_high_torrent [10]%N ]
    ∅ [].


(** *** The fields of the candidate score *)

(** The values that [getPeerCandidateScore] packs into the key, most
    significant first: failed before, time of the last attempt, torrent
    priority, not recently started, torrent done, not known connectable,
    not a seed, best source, salt. *)
Definition score_fields (t : tr_torrent) (info : tr_peer_info) (salt : N) : list N :=
  [ if N.eqb (connection_failure_count info) 0 then 0 else 1;
    Z.to_N (connection_attempt_time info);
    match get_priority t with TR_PRI_HIGH => 0 | TR_PRI_NORMAL => 1 | TR_PRI_LOW => 2 end;
    if recently_started t then 0 else 1;
    if is_done t then 1 else 0;
    match is_connectable info with Some true => 0 | _ => 1 end;
    if is_seed info then 0 else 1;
    from_best info;
    salt ]%N.

(** The bit widths that [getPeerCandidateScore] gives to these fields. *)
Definition score_widths : list N := [1; 32; 4; 1; 1; 1; 1; 4; 8]%N.

(** The key with the fields at their bit positions. *)
Fixpoint pack_fields (fields widths : list N) (acc : N) : N :=
  match fields, widths with
  | f :: fields', w :: widths' => pack_fields fields' widths' (acc * 2 ^ w + f)
  | _, _ => acc
  end.

(** The lexicographic order on lists of fields. *)
Fixpoint lex_lt (a b : list N) : Prop :=
  match a, b with
  | x :: a', y :: b' => (x < y)%N \/ (x = y /\ lex_lt a' b')
  | _, _ => False
  end.

(** The inputs of the score are in the range of their bit fields: the
    attempt time fits 32 bits, the source 4 bits and the salt,
    a [uint8_t], 8 bits. *)
Definition score_in_range (info : tr_peer_info) (salt : N) : Prop :=
  (0 <= connection_attempt_time info < 2 ^ 32)%Z
  /\ (from_best info < 16)%N /\ (salt < 256)%N.

(** ** Request bookkeeping: queries and the block events *)

(** [tr_peerMgrDidPeerRequest] *)
Definition tr_peerMgrDidPeerRequest (peer : peer_ptr) (block : tr_block_index_t) (s : tr_swarm)
  : bool :=
  ActiveRequests.has block peer (active_requests s).

(** [tr_peerMgrCountActiveRequestsToPeer] *)
Definition tr_peerMgrCountActiveRequestsToPeer (peer : peer_ptr) (s : tr_swarm) : nat :=
  ActiveRequests.count_peer peer (active_requests s).

(** [tr_swarm::maybeSendCancelRequest]: whether a CANCEL goes out.  The
    [dynamic_cast] succeeds for the connected peers of the swarm and fails
    for its webseeds. *)
Definition maybeSendCancelRequest (s : tr_swarm) (peer : peer_ptr) (muted : option peer_ptr)
  : bool :=
  bool_decide (peer ∈ map msgs (peers s)) && negb (bool_decide (muted = Some peer)).

(** [tr_swarm::cancelAllRequestsForBlock]: the swarm afterwards and the
    peers that are sent a CANCEL for the block. *)
Definition cancelAllRequestsForBlock (block : tr_block_index_t) (no_notify : option peer_ptr)
    (s : tr_swarm) : tr_swarm * list peer_ptr :=
  let r := ActiveRequests.remove_block block (active_requests s) in
  (with_active_requests (snd r) s,
   List.filter (fun peer => maybeSendCancelRequest s peer no_notify) (fst r)).

(** ** Disconnecting peers: [remove_peer], [stop] and the reconnect pulse *)

Definition with_is_running (v : bool) (s : tr_swarm) : tr_swarm :=
  mk_swarm (outgoing_handshakes s) (stats s) (optimistic_unchoke_time_scaler s) v (tor s)
    (active_requests s) (peers s) (incoming_pool s) (connectable_pool s) (graveyard_pool s)
    (infos s) (optimistic s) (pool_is_all_seeds_ s) (is_endgame_ s).

(** [incoming_pool.erase(key)]: the node, if any, is destroyed. *)
Definition incoming_erase (key : tr_socket_address) (s : tr_swarm) : tr_swarm :=
  match incoming_pool s !! key with
  | None => s
  | Some p =>
      with_infos (delete p (infos s))
        (with_incoming_pool (delete key (incoming_pool s)) s)
  end.

(** [graveyard_pool.erase(key)]: the node, if any, is destroyed. *)
Definition graveyard_erase (key : tr_socket_address) (s : tr_swarm) : tr_swarm :=
  match graveyard_pool s !! key with
  | None => s
  | Some p =>
      with_infos (delete p (infos s))
        (with_graveyard_pool (delete key (graveyard_pool s)) s)
  end.

(** [std::find] on [peers] followed by [peers.erase(iter)]: the first
    entry that is the pointer [m] goes, if there is one. *)
Fixpoint erase_peer (m : peer_ptr) (ps : list tr_peerMsgs) : list tr_peerMsgs :=
  match ps with
  | [] => []
  | p :: rest => if Nat.eqb (msgs p) m then rest else p :: erase_peer m rest
  end.

Section PeerLifecycle.

(** The destructor of [tr_peerMsgs] (peer-msgs.cc) is not part of this
    file; [peer_destroyed] is what it does to the record the peer points
    to.  The destructor of the base class, [tr_peer::~tr_peer], is: it
    takes the peer's requests out of [active_requests]. *)
Variable peer_destroyed : tr_peer_info -> tr_peer_info.

(** [tr_swarm::remove_peer].  [peer] is the object behind the pointer; the
    result is [None] where the source reads through a dangling
    [peer_info].  The counters of [stats] are unsigned in the source; the
    model does not follow a decrement of zero, which the source asserts
    not to happen. *)
Definition remove_peer (peer : tr_peerMsgs) (s : tr_swarm) : option tr_swarm :=
  info ← infos s !! peer_info peer;
  let socket_address := socket_address peer in
  let listen_socket_address := listen_socket_address info in
  let was_incoming := is_incoming_connection peer in
  let s1 :=
    with_stats
      (mk_stats (Nat.pred (peer_count (stats s)))
                (alter Nat.pred (N.to_nat (from_first info)) (peer_from_count (stats s))))
      s in
  let s2 := with_peers (erase_peer (msgs peer) (peers s1)) s1 in
  (* delete peer *)
  let s3 := with_infos (alter peer_destroyed (peer_info peer) (infos s2)) s2 in
  let s4 :=
    with_active_requests (ActiveRequests.remove_peer (msgs peer) (active_requests s3)) s3 in
  let s5 := if was_incoming then incoming_erase socket_address s4 else s4 in
  Some (graveyard_erase listen_socket_address s5).

(** A run of [remove_peer] over a vector of peers. *)
Definition remove_peers (victims : list tr_peerMsgs) (s : tr_swarm) : option tr_swarm :=
  fold_left (fun acc peer => s' ← acc; remove_peer peer s') victims (Some s).

(** [tr_swarm::remove_all_peers]: [peers] is swapped out first. *)
Definition remove_all_peers (s : tr_swarm) : option tr_swarm :=
  let tmp := peers s in
  remove_peers tmp (with_peers [] s).

(** [tr_swarm::stop], which is also [on_torrent_stopped]. *)
Definition stop (s : tr_swarm) : option tr_swarm :=
  s1 ← remove_all_peers (with_is_running false s);
  Some (with_outgoing_handshakes ∅ s1).

(** [tr_swarm::on_torrent_started]; the rechoke timer is outside the swarm. *)
Definition on_torrent_started (s : tr_swarm) : tr_swarm := with_is_running true s.

(** [tr_peer_info::idle_secs] (peer-mgr.h) is not part of this file. *)
Variable idle_secs : tr_peer_info -> Z -> option Z.

(** The idle limit of [shouldPeerBeClosed], which the source computes in
    floating point from [tor->peer_limit()] and the peer count:
    [hi - (hi - lo) * strictness], between [MinUploadIdleSecs] and
    [MaxUploadIdleSecs]. *)
Variable idle_limit : nat -> nat -> Z.

(** [shouldPeerBeClosed]; [None] where the source reads through a
    dangling [peer_info]. *)
Definition shouldPeerBeClosed (s : tr_swarm) (peer : tr_peerMsgs) (peer_count : nat) (now : Z)
  : option bool :=
  (* if it's marked for purging, close it *)
  if do_purge peer then Some true
  else
    info ← infos s !! peer_info peer;
    (* disconnect if we're both seeds and enough time has passed for PEX *)
    if is_done (tor s) && isSeed peer
    then Some (negb (allows_pex (tor s))
               || Z.leb 30 (default 0%Z (idle_secs info now)))
    else
      (* disconnect if it's been too long since piece data has been transferred *)
      let limit := idle_limit (peer_limit (tor s)) peer_count in
      Some match idle_secs info now with
           | Some idle => Z.ltb limit idle
           | None => false
           end.

(** [get_peers_to_close] *)
Definition get_peers_to_close (s : tr_swarm) (now_sec : Z) : option (list tr_peerMsgs) :=
  let peer_count := length (peers s) in
  fold_right
    (fun peer acc =>
       bad ← acc;
       close ← shouldPeerBeClosed s peer peer_count now_sec;
       Some (if (close : bool) then peer :: bad else bad))
    (Some []) (peers s).

(** [close_bad_peers]: [close_peer] on each of them. *)
Definition close_bad_peers (s : tr_swarm) (now_sec : Z) : option tr_swarm :=
  bad ← get_peers_to_close s now_sec;
  remove_peers bad s.

End PeerLifecycle.

(** Removing a peer of [ps] destroys no record that another peer of [ps]
    points to: the records of two peers are different objects, and the
    entries that [remove_peer] erases for one of them (the entry of
    [incoming_pool] under its socket address, the entry of
    [graveyard_pool] under its listen address) are not the record of the
    other. *)
Definition removal_spares_the_others (ps : list tr_peerMsgs) (s : tr_swarm) : Prop :=
  forall a b ia, a ∈ ps -> b ∈ ps -> msgs a <> msgs b ->
    infos s !! peer_info a = Some ia ->
    peer_info a <> peer_info b
    /\ graveyard_pool s !! listen_socket_address ia <> Some (peer_info b)
    /\ (is_incoming_connection a = true ->
        incoming_pool s !! socket_address a <> Some (peer_info b)).

(** Every peer of [ps] points to a live record. *)
Definition records_alive (ps : list tr_peerMsgs) (s : tr_swarm) : Prop :=
  forall p, p ∈ ps -> is_Some (infos s !! peer_info p).

(** What one [remove_peer] does, field by field. *)
Record removed (a : tr_peerMsgs) (ia : tr_peer_info) (s s1 : tr_swarm) : Prop := {
  rm_peers : peers s1 = erase_peer (msgs a) (peers s);
  rm_count : peer_count (stats s1) = Nat.pred (peer_count (stats s));
  rm_requests :
    active_requests s1 = ActiveRequests.remove_peer (msgs a) (active_requests s);
  rm_connectable : connectable_pool s1 = connectable_pool s;
  rm_incoming :
    incoming_pool s1
    = if is_incoming_connection a then delete (socket_address a) (incoming_pool s)
      else incoming_pool s;
  rm_graveyard : graveyard_pool s1 = delete (listen_socket_address ia) (graveyard_pool s);
  rm_infos :
    forall p, p <> peer_info a ->
      graveyard_pool s !! listen_socket_address ia <> Some p ->
      (is_incoming_connection a = true -> incoming_pool s !! socket_address a <> Some p) ->
      infos s1 !! p = infos s !! p;
  rm_frame :
    outgoing_handshakes s1 = outgoing_handshakes s
    /\ tor s1 = tor s /\ is_running s1 = is_running s /\ optimistic s1 = optimistic s
    /\ optimistic_unchoke_time_scaler s1 = optimistic_unchoke_time_scaler s
    /\ pool_is_all_seeds_ s1 = pool_is_all_seeds_ s /\ is_endgame_ s1 = is_endgame_ s
}.

(** What a run of [remove_peer] does. *)
Record removed_all (victims : list tr_peerMsgs) (s s' : tr_swarm) : Prop := {
  ra_peers : peers s' = fold_left (fun ps v => erase_peer (msgs v) ps) victims (peers s);
  ra_count : peer_count (stats s') = peer_count (stats s) - length victims;
  ra_requests :
    active_requests s'
    = fold_left (fun ar v => ActiveRequests.remove_peer (msgs v) ar) victims
        (active_requests s);
  ra_connectable : connectable_pool s' = connectable_pool s;
  ra_incoming : forall k, incoming_pool s' !! k = None \/ incoming_pool s' !! k = incoming_pool s !! k;
  ra_incoming_gone :
    forall v, v ∈ victims -> is_incoming_connection v = true ->
      incoming_pool s' !! socket_address v = None;
  ra_graveyard :
    forall k, graveyard_pool s' !! k = None \/ graveyard_pool s' !! k = graveyard_pool s !! k;
  ra_frame :
    outgoing_handshakes s' = outgoing_handshakes s
    /\ tor s' = tor s /\ is_running s' = is_running s /\ optimistic s' = optimistic s
    /\ optimistic_unchoke_time_scaler s' = optimistic_unchoke_time_scaler s
    /\ pool_is_all_seeds_ s' = pool_is_all_seeds_ s /\ is_endgame_ s' = is_endgame_ s
}.

(** [a] may stand before [b] in a vector sorted by [lt]: [b] is not
    strictly less than [a]. *)
Definition in_order {A} (lt : A -> A -> bool) (a b : A) : Prop := lt b a = false.

(** *** Per-torrent peer limit: [enforceSwarmPeerLimit] *)

(** A peer of the swarm together with the record it points to, which the
    comparators of the reconnect pulse read through [peer_info]. *)
Fixpoint with_records (s : tr_swarm) (ps : list tr_peerMsgs)
  : option (list (tr_peerMsgs * tr_peer_info)) :=
  match ps with
  | [] => Some []
  | p :: rest =>
      info ← infos s !! peer_info p;
      resolved ← with_records s rest;
      Some ((p, info) :: resolved)
  end.

(** [ComparePeerByMostActive]: peers not marked for purging first, then
    the later piece-data time first. *)
Module ComparePeerByMostActive.

Definition compare (a b : tr_peerMsgs * tr_peer_info) : Z :=
  if negb (Bool.eqb (do_purge (fst a)) (do_purge (fst b)))
  then (if do_purge (fst a) then 1 else -1)%Z
  else (- compare_by_piece_data_time (snd a) (snd b))%Z.

Definition lt (a b : tr_peerMsgs * tr_peer_info) : bool := Z.ltb (compare a b) 0.

End ComparePeerByMostActive.

Definition ComparePeerByLeastActive (a b : tr_peerMsgs * tr_peer_info) : bool :=
  ComparePeerByMostActive.lt b a.

Section SwarmPeerLimit.

Variable peer_destroyed : tr_peer_info -> tr_peer_info.

(** [enforceSwarmPeerLimit]: close all but the [max] most active.
    [std::partial_sort_copy] fills the vector of [n - max] peers with the
    least active ones; the result is [None] where the source reads through
    a dangling [peer_info]. *)
Definition enforceSwarmPeerLimit (max : nat) (s : tr_swarm) : option tr_swarm :=
  (* do we have too many peers? *)
  let n := peerCount s in
  if Nat.leb n max then Some s
  else
    resolved ← with_records s (peers s);
    let least_active := take (n - max) (sort_by ComparePeerByLeastActive resolved) in
    remove_peers peer_destroyed (map fst least_active) s.

End SwarmPeerLimit.

(** *** Sample state for the reconnect pulse *)

(** The swarm of the port-learning samples after peer A was marked for
    purging. *)
Definition sample_purge_swarm : tr_swarm :=
  with_peers [set_do_purge true sample_peer_A; sample_peer_B] sample_port_swarm.

(** ** Incoming connections: [tr_peerMgrAddIncoming] *)

(** [tr_peerMgrAddIncoming] for a socket with the remote socket address
    [sa]: the manager afterwards and whether a handshake was started (the
    socket is closed otherwise). *)
Definition tr_peerMgrAddIncoming (sa : tr_socket_address) (mgr : tr_peerMgr)
  : tr_peerMgr * bool :=
  if addressIsBlocked (session mgr) (fst sa) then (mgr, false)
  else if bool_decide (sa ∈ incoming_handshakes mgr) then (mgr, false)
  else (* we don't have a connection to them yet... *)
    (with_incoming_handshakes (incoming_handshakes mgr ∪ {[ sa ]}) mgr, true).

(** What a failed handshake leaves in the record of the address: one more
    connection failure, and "not connectable" when nothing was ever read
    from the peer. *)
Definition handshake_failed (read_anything_from_peer : bool) (info : tr_peer_info)
  : tr_peer_info :=
  let info1 := on_connection_failed info in
  if negb read_anything_from_peer then set_connectable false info1 else info1.

(** ** Notions for gossip ingestion *)

(** What [tr_peerMgrAddPex] leaves alone. *)
Definition same_apart_from_records (s s' : tr_swarm) : Prop :=
  peers s' = peers s /\ stats s' = stats s /\ incoming_pool s' = incoming_pool s
  /\ graveyard_pool s' = graveyard_pool s /\ active_requests s' = active_requests s
  /\ outgoing_handshakes s' = outgoing_handshakes s /\ tor s' = tor s
  /\ is_running s' = is_running s.

(** ** Rechoke pulses in a row *)

(** [n] calls of [rechokeUploads], one per pulse.  Between two pulses the
    session and the swarm may have changed in any way that leaves
    [optimistic] and [optimistic_unchoke_time_scaler] alone: this file
    writes them in [rechokeUploads] only. *)
Inductive rechoke_pulses : nat -> tr_swarm -> tr_swarm -> Prop :=
  | pulses_done s : rechoke_pulses 0 s s
  | pulses_step n s s1 session salter rnd s' :
      optimistic s1 = optimistic s ->
      optimistic_unchoke_time_scaler s1 = optimistic_unchoke_time_scaler s ->
      rechoke_pulses n (rechokeUploads session salter rnd s1) s' ->
      rechoke_pulses (S n) s s'.

(** *** Notions and a sample for a pulse with the bandwidth maxed out *)

(** An entry of [choked] remembers the choke state of its peer. *)
Definition remembers (ps : list tr_peerMsgs) (c : ChokeData) : Prop :=
  exists q, q ∈ ps /\ msgs q = cd_msgs c /\ cd_was_choked c = peer_is_choked q.

Definition sample_maxed_out_torrent : tr_torrent :=
  mk_torrent 1 1 false true false true true (2 * BlockSize) 50 TR_PRI_NORMAL false true.

(** Three interested leechers, the first one unchoked, while the upload
    bandwidth of the torrent is maxed out. *)
Definition sample_maxed_out_swarm : tr_swarm :=
  mk_swarm ∅ (mk_stats 3 [0; 0; 3; 0; 0; 0; 0]) 0 true sample_maxed_out_torrent ∅
    [sample_leech 1 30 false true; sample_leech 2 20 true true; sample_leech 3 10 true true]
    ∅ ∅ ∅ ∅ None None false.

(** ** Notions for the candidate list *)

Section CandidateNotions.

Variable reconnect_interval_has_passed : tr_peer_info -> Z -> bool.

(** The record at address [p] of the swarm [s] is under a key of
    [connectable_pool], has the listen address [sa], and
    [is_peer_candidate] accepts it at [now]. *)
Definition is_candidate_of (session : tr_session) (now : Z) (s : tr_swarm)
    (sa : tr_socket_address) : Prop :=
  exists key p info,
    connectable_pool s !! key = Some p /\ infos s !! p = Some info
    /\ listen_socket_address info = sa
    /\ fst (is_peer_candidate reconnect_interval_has_passed session s info now) = true.

(** The entry of the candidate list names a candidate of a running swarm
    of the manager. *)
Definition names_a_candidate (now : Z) (mgr : tr_peerMgr) (c : N * tr_socket_address) : Prop :=
  exists s, s ∈ torrents mgr /\ is_running s = true /\ tor_id (tor s) = fst c
            /\ is_candidate_of (session mgr) now s (snd c).

End CandidateNotions.

(** ** Bad pieces: strikes and bans *)










(** *** Sample: peer A has four strikes and is to blame for piece 7 *)


(** ** Peer statistics: the flag string of [get_peer_stats] *)

From Stdlib Require Strings.Ascii.

Module PeerStats.
Import Ascii.

(** The fields of [tr_peer_stat] (transmission.h) that the flag string is
    made from, as [get_peer_stats] has filled them in. *)
Record tr_peer_stat := mk_peer_stat {
  isUTP : bool;
  isEncrypted : bool;
  peerIsChoked : bool;
  peerIsInterested : bool;
  clientIsChoked : bool;
  clientIsInterested : bool;
  isIncoming : bool;
  isDownloadingFrom : bool;
  isUploadingTo : bool;
  from : tr_peer_from
}.

(** One write [*pch++ = c] under its condition. *)
Definition put (condition : bool) (c : ascii) : list ascii :=
  if condition then [c] else [].

(** The characters that [get_peer_stats] writes to [stats.flagStr] before
    the terminating zero; [is_optimistic] is [peer->swarm->optimistic == peer]. *)
Definition flagStr (stats : tr_peer_stat) (is_optimistic : bool) : list ascii :=
  put (isUTP stats) "T"
  ++ put is_optimistic "O"
  ++ (if isDownloadingFrom stats then ["D"%char] else put (clientIsInterested stats) "d")
  ++ (if isUploadingTo stats then ["U"%char] else put (peerIsInterested stats) "u")
  ++ put (negb (clientIsChoked stats) && negb (clientIsInterested stats)) "K"
  ++ put (negb (peerIsChoked stats) && negb (peerIsInterested stats)) "?"
  ++ put (isEncrypted stats) "E"
  ++ (if N.eqb (from stats) TR_PEER_FROM_DHT then ["H"%char]
      else put (N.eqb (from stats) TR_PEER_FROM_PEX) "X")
  ++ put (isIncoming stats) "I".

(** Every flag, in the order in which [get_peer_stats] writes them. *)
Definition all_flags : list ascii :=
  ["T"; "O"; "D"; "d"; "U"; "u"; "K"; "?"; "E"; "H"; "X"; "I"]%char.

Definition flag_D : ascii := "D".
Definition flag_d : ascii := "d".
Definition flag_U : ascii := "U".
Definition flag_u : ascii := "u".
Definition flag_H : ascii := "H".
Definition flag_X : ascii := "X".
Definition flag_O : ascii := "O".

End PeerStats.

(** ** Loops over the records of a pool *)

(** A loop [for (auto& [socket_address, atom] : pool)] that updates every
    record of the pool in place. *)
Definition for_each_record (f : tr_peer_info -> tr_peer_info)
    (pool : gmap tr_socket_address nat) (store : gmap nat tr_peer_info)
  : gmap nat tr_peer_info :=
  fold_left (fun st entry => alter f (snd entry) st) (map_to_list pool) store.

(** [tr_peer_info::set_blocklisted_dirty]: the memo is reset. *)
Definition set_blocklisted_dirty (i : tr_peer_info) : tr_peer_info :=
  set_blocklisted None i.

(** The body of the loop over the torrents in [on_blocklist_changed]:
    [connectable_pool] first, then [incoming_pool]. *)
Definition swarm_blocklist_changed (s : tr_swarm) : tr_swarm :=
  with_infos
    (for_each_record set_blocklisted_dirty (incoming_pool s)
       (for_each_record set_blocklisted_dirty (connectable_pool s) (infos s))) s.

(** [tr_peerMgr::on_blocklist_changed]. *)
Definition on_blocklist_changed (mgr : tr_peerMgr) : tr_peerMgr :=
  with_torrents (map swarm_blocklist_changed (torrents mgr)) mgr.

(** [tr_peer_info::set_seed()] *)
Definition set_seed (i : tr_peer_info) : tr_peer_info :=
  mk_peer_info (listen_address i) (listen_port i) (pex_flags i) (from_first i)
    (from_best i)
    (connection_failure_count i) (connection_attempt_time i) (latest_piece_data_time i)
    true (is_banned i) (is_connected i) (is_connectable i) (supports_utp i)
    (blocklisted_ i).

(** [tr_swarm::mark_peer_as_seed] on the record at address [p]. *)
Definition mark_peer_as_seed (p : nat) (s : tr_swarm) : tr_swarm :=
  mark_all_seeds_flag_dirty (with_infos (alter set_seed p (infos s)) s).

(** [tr_swarm::on_swarm_is_all_seeds]. *)
Definition on_swarm_is_all_seeds (s : tr_swarm) : tr_swarm :=
  mark_all_seeds_flag_dirty
    (fold_left (fun s1 entry => mark_peer_as_seed (snd entry) s1)
               (map_to_list (connectable_pool s)) s).

(** [HandshakeMediator::set_utp_failed]. *)
Definition set_utp_failed (info_hash : N) (socket_address : tr_socket_address)
    (mgr : tr_peerMgr) : tr_peerMgr :=
  match get_existing_swarm info_hash mgr with
  | None => mgr
  | Some s =>
      match get_existing_peer_info socket_address s with
      | None => mgr
      | Some p =>
          put_swarm info_hash
            (with_infos (alter (set_utp_supported false) p (infos s)) s) mgr
      end
  end.

(** ** The reconnect pulse: [enforceSessionPeerLimit], [reconnectPulse] *)

(** The conditions under which the peers of a swarm can be removed one
    after the other: the peers are distinct objects, each points to a live
    record, no removal destroys the record of another peer, and
    [stats.peer_count] is the number of peers. *)
Definition removal_is_safe (s : tr_swarm) : Prop :=
  NoDup (map msgs (peers s))
  /\ records_alive (peers s) s
  /\ removal_spares_the_others (peers s) s
  /\ peer_count (stats s) = peerCount s.

(** What the reconnect pulse leaves alone in a swarm: the torrent and
    [is_running]; the peers afterwards are some of the peers before, in
    their order. *)
Definition some_peers_left (s s' : tr_swarm) : Prop :=
  tor s' = tor s /\ is_running s' = is_running s /\ sublist (peers s') (peers s).

(** What the dialler leaves alone in a swarm. *)
Definition same_peers (s s' : tr_swarm) : Prop :=
  tor s' = tor s /\ is_running s' = is_running s /\ peers s' = peers s.

(** A peer of the session as the session-wide vector holds it: the place
    of its swarm in [session->torrents()], which is what [peer->swarm]
    leads to, and the peer with the record it points to. *)
Definition session_peer : Type := nat * (tr_peerMsgs * tr_peer_info).

(** The peers of the swarms from place [i] on, in the order of the
    torrents; [None] where a peer's [peer_info] dangles. *)
Fixpoint all_peers (i : nat) (ts : list tr_swarm) : option (list session_peer) :=
  match ts with
  | [] => Some []
  | s :: rest =>
      here ← with_records s (peers s);
      there ← all_peers (S i) rest;
      Some (map (pair i) here ++ there)
  end.

(** What tells two peers of the session apart: the place of the swarm
    and the address of the peer object. *)
Definition peer_tag (v : session_peer) : nat * peer_ptr := (fst v, msgs (fst (snd v))).

Definition most_active_first (a b : session_peer) : bool :=
  ComparePeerByMostActive.lt (snd a) (snd b).

Section ReconnectPulse.

Variable peer_destroyed : tr_peer_info -> tr_peer_info.
Variable idle_secs : tr_peer_info -> Z -> option Z.
Variable idle_limit : nat -> nat -> Z.
Variable reconnect_interval_has_passed : tr_peer_info -> Z -> bool.
Variable new_outgoing_ok : tr_socket_address -> bool.

(** [close_peer]: [peer->swarm->remove_peer(peer)]. *)
Definition close_peer (victim : session_peer) (ts : list tr_swarm) : option (list tr_swarm) :=
  s ← ts !! fst victim;
  s' ← remove_peer peer_destroyed (fst (snd victim)) s;
  Some (<[fst victim := s']> ts).

(** [enforceSessionPeerLimit].  [tr_peerMsgs::size()] is the number of
    peers of all swarms.  [std::partial_sort] puts the [max] most active
    peers first; the others are closed. *)
Definition enforceSessionPeerLimit (session : tr_session) (ts : list tr_swarm)
  : option (list tr_swarm) :=
  (* No need to disconnect if we are under the peer limit *)
  let max := peerLimit session in
  if Nat.leb (total_peer_count ts) max then Some ts
  else
    (* Make a list of all the peers. *)
    all ← all_peers 0 ts;
    if Nat.ltb max (length all)
    then
      fold_left (fun acc victim => ts' ← acc; close_peer victim ts')
                (drop max (sort_by most_active_first all)) (Some ts)
    else Some ts.

(** The body of the first loop of [reconnectPulse]: remove crappy peers. *)
Definition remove_crappy_peers (now_sec : Z) (s : tr_swarm) : option tr_swarm :=
  if negb (is_running s) then remove_all_peers peer_destroyed s
  else close_bad_peers peer_destroyed idle_secs idle_limit s now_sec.

(** The body of the second loop: if we're over the per-torrent peer
    limits, cull some peers. *)
Definition cull_swarm (s : tr_swarm) : option tr_swarm :=
  if tor_is_running (tor s)
  then enforceSwarmPeerLimit peer_destroyed (peer_limit (tor s)) s
  else Some s.

(** [tr_peerMgr::reconnectPulse]: the manager afterwards and the
    connection attempts initiated.  [now_sec] is the clock read at the
    start, [now] the one that [initiate_connection] reads. *)
Definition reconnectPulse (now_sec now : Z) (salter : nat -> N) (mgr : tr_peerMgr)
  : option (tr_peerMgr * list (N * tr_socket_address)) :=
  (* remove crappy peers *)
  ts1 ← mapM (remove_crappy_peers now_sec) (torrents mgr);
  (* if we're over the per-torrent peer limits, cull some peers *)
  ts2 ← mapM cull_swarm ts1;
  (* if we're over the per-session peer limits, cull some peers *)
  ts3 ← enforceSessionPeerLimit (session mgr) ts2;
  (* try to make new peer connections *)
  Some (make_new_peer_connections reconnect_interval_has_passed new_outgoing_ok
          now salter (with_torrents ts3 mgr)).

End ReconnectPulse.

(** *** Sample session for the reconnect pulse *)

(** A session that allows one peer. *)
Definition sample_tight_session : tr_session :=
  mk_session (fun _ => false) 2 1 0 true true false.

(** ** Theorems *)

Module PexFacts.
Import Pex.

Lemma loop_length t n af al k i walk :
  length (fst (from_compact_loop t n af al k i walk)) = k.
Proof.
  revert i walk. induction k as [|k IH]; intros i walk; simpl; [done|].
  specialize (IH (S i) (drop CompactPortBytes (drop (CompactAddrBytes t) walk))).
  destruct (from_compact_loop _ _ _ _ k _ _) as [rest w]. simpl in *. lia.
Qed.

Lemma loop_walk t n af al k i walk :
  snd (from_compact_loop t n af al k i walk) = drop (k * CompactSockAddrBytes t) walk.
Proof.
  revert i walk. induction k as [|k IH]; intros i walk; simpl; [done|].
  specialize (IH (S i) (drop CompactPortBytes (drop (CompactAddrBytes t) walk))).
  destruct (from_compact_loop _ _ _ _ k _ _) as [rest w]. simpl in *.
  rewrite IH. rewrite !drop_drop. f_equal. unfold CompactSockAddrBytes. lia.
Qed.

Lemma loop_flags_default t n af al k i walk :
  (forall fl, af = Some fl -> n <> al) ->
  Forall (fun e => flags e = 0%N) (fst (from_compact_loop t n af al k i walk)).
Proof.
  intros Hne. revert i walk. induction k as [|k IH]; intros i walk; simpl; [constructor|].
  specialize (IH (S i) (drop CompactPortBytes (drop (CompactAddrBytes t) walk))).
  destruct (from_compact_loop _ _ _ _ k _ _) as [rest w]. simpl in *.
  constructor; [|done]. simpl.
  destruct af as [fl|]; [|done].
  destruct (Nat.eqb_spec n al) as [E|]; [|done].
  by destruct (Hne fl eq_refl).
Qed.

Lemma loop_flags_applied t n fl k i walk :
  i + k = length fl ->
  map flags (fst (from_compact_loop t n (Some fl) n k i walk))
  = map Byte.to_N (drop i fl).
Proof.
  revert i walk. induction k as [|k IH]; intros i walk Hlen; simpl.
  - rewrite drop_ge; [done | lia].
  - specialize (IH (S i) (drop CompactPortBytes (drop (CompactAddrBytes t) walk))).
    destruct (from_compact_loop _ _ _ _ k _ _) as [rest w]. simpl in *.
    rewrite Nat.eqb_refl, IH by lia.
    assert (Hi : i < length fl) by lia.
    destruct (lookup_lt_is_Some_2 fl i Hi) as [b Hb].
    rewrite (drop_S fl b i Hb). simpl. do 2 f_equal.
    by apply nth_lookup_Some.
Qed.

Lemma decode_contract_holds t compact added_f :
  decode_contract t (CompactSockAddrBytes t) compact added_f.
Proof.
  unfold decode_contract, from_compact_walk.
  set (n := Nat.div (length compact) (CompactSockAddrBytes t)).
  set (al := match added_f with Some fl => length fl | None => O end).
  pose proof (loop_length t n added_f al n 0 compact) as Hlen.
  pose proof (loop_walk t n added_f al n 0 compact) as Hwalk.
  pose proof (loop_flags_default t n added_f al n 0 compact) as Hdef.
  destruct (from_compact_loop t n added_f al n 0 compact) as [pex walk] eqn:E.
  simpl in *.
  assert (Hstride : CompactSockAddrBytes t <> 0) by (destruct t; done).
  assert (Hle : n * CompactSockAddrBytes t <= length compact).
  { unfold n. rewrite Nat.mul_comm. by apply Nat.Div0.mul_div_le. }
  repeat split.
  - done.
  - done.
  - rewrite Hwalk, length_drop. lia.
  - intros fl -> Hne. apply Hdef. intros fl' [= <-]. simpl in al. unfold al. lia.
  - intros ->. apply Hdef. by intros fl'.
  - intros fl -> Hfl.
    pose proof (loop_flags_applied t n fl n 0 compact) as Happ.
    simpl in al. unfold al in E. rewrite Hfl in E. rewrite E in Happ. simpl in Happ.
    rewrite Happ by lia. by rewrite drop_0.
Qed.

End PexFacts.

(** C8: for every input byte string, [tr_pex::from_compact_ipv4] (stride 6)
    and [tr_pex::from_compact_ipv6] (stride 18) yield exactly
    [N = compact_len / stride] entries and leave [walk] exactly
    [N * stride] bytes into the input; the flags of [added_f] are given to
    the entries only when [added_f_len] equals [N] (and then entry [i] gets
    [added_f[i]]), otherwise every entry keeps the default flags 0. *)
Theorem C8_from_compact_consumes_whole_entries
    (compact : list byte) (added_f : option (list byte)) :
  (length (Pex.from_compact_ipv4 compact added_f) = Nat.div (length compact) 6
   /\ Pex.decode_contract TR_AF_INET 6 compact added_f)
  /\ (length (Pex.from_compact_ipv6 compact added_f) = Nat.div (length compact) 18
      /\ Pex.decode_contract TR_AF_INET6 18 compact added_f).
Proof.
  pose proof (PexFacts.decode_contract_holds TR_AF_INET compact added_f) as H4.
  pose proof (PexFacts.decode_contract_holds TR_AF_INET6 compact added_f) as H6.
  change (Pex.CompactSockAddrBytes TR_AF_INET) with 6 in H4.
  change (Pex.CompactSockAddrBytes TR_AF_INET6) with 18 in H6.
  unfold Pex.from_compact_ipv4, Pex.from_compact_ipv6.
  split; (split; [|done]).
  - unfold Pex.decode_contract in H4.
    destruct (Pex.from_compact_walk TR_AF_INET compact added_f). by destruct H4.
  - unfold Pex.decode_contract in H6.
    destruct (Pex.from_compact_walk TR_AF_INET6 compact added_f). by destruct H6.
Qed.

Module EndgameFacts.

Lemma tor_swarm_step s op : tor (swarm_step s op) = tor s.
Proof. by destruct op. Qed.

Lemma tor_swarm_run ops s : tor (swarm_run ops s) = tor s.
Proof.
  revert s. induction ops as [|op ops IH]; intros s; simpl; [done|].
  unfold swarm_run in IH. by rewrite IH, tor_swarm_step.
Qed.

Lemma add_size (b : tr_block_index_t) (p : peer_ptr) (w : Z)
    (ar : gmap (tr_block_index_t * peer_ptr) Z) :
  size ar <= size (ActiveRequests.add b p w ar).
Proof.
  unfold ActiveRequests.add. destruct (ar !! (b, p)) eqn:E; [done|].
  rewrite map_size_insert_None by done. lia.
Qed.

Lemma sent_requests_size (peer : peer_ptr) (b e : tr_block_index_t) (now : Z) (s : tr_swarm) :
  size (active_requests s)
  <= size (active_requests (tr_peerMgrClientSentRequests peer b e now s)).
Proof.
  unfold tr_peerMgrClientSentRequests. simpl.
  generalize (seq 0 (N.to_nat (e - b))). intros l.
  generalize (active_requests s). induction l as [|k l IH]; intros ar; simpl; [done|].
  etrans; [apply (add_size (b + N.of_nat k)%N peer now)|]. apply IH.
Qed.

Lemma keeps_requests_step s op :
  keeps_requests op = true ->
  size (active_requests s) <= size (active_requests (swarm_step s op)).
Proof.
  destruct op; simpl; try done.
  intros _. apply sent_requests_size.
Qed.

Lemma keeps_requests_run ops s :
  Forall (fun op => keeps_requests op = true) ops ->
  size (active_requests s) <= size (active_requests (swarm_run ops s)).
Proof.
  intros H. revert s. induction H as [|op ops Hop _ IH]; intros s; simpl; [done|].
  etrans; [apply (keeps_requests_step s op Hop)|]. apply IH.
Qed.

Lemma updateEndgame_flag s :
  (N.of_nat (size (active_requests s)) * BlockSize <= uint64_max)%N ->
  isEndgame (updateEndgame s) = true
  <-> (left_until_done (tor s) <= N.of_nat (size (active_requests s)) * BlockSize)%N.
Proof.
  intros Hfit. unfold isEndgame, updateEndgame, wrap64. simpl.
  rewrite N.mod_small by (unfold uint64_max in Hfit; lia).
  apply N.leb_le.
Qed.

End EndgameFacts.

(** C5: for every swarm state whose request count times the block size is
    representable in [uint64_t], [updateEndgame] sets the endgame flag to
    true exactly when the number of entries of [active_requests] times the
    block size is at least the torrent's bytes left until done. *)
Theorem C5_updateEndgame_iff (s : tr_swarm) :
  (N.of_nat (size (active_requests s)) * BlockSize <= uint64_max)%N ->
  isEndgame (updateEndgame s) = true
  <-> (N.of_nat (size (active_requests s)) * BlockSize >= left_until_done (tor s))%N.
Proof.
  intros Hfit. rewrite EndgameFacts.updateEndgame_flag by done. lia.
Qed.

Lemma C5_updateEndgame_iff_witness :
  (N.of_nat (size (active_requests endgame_sample)) * BlockSize <= uint64_max)%N
  /\ (isEndgame (updateEndgame endgame_sample) = true
      <-> (N.of_nat (size (active_requests endgame_sample)) * BlockSize
           >= left_until_done (tor endgame_sample))%N).
Proof.
  assert (H : (N.of_nat (size (active_requests endgame_sample)) * BlockSize <= uint64_max)%N)
    by (vm_compute; discriminate).
  split; [exact H | exact (C5_updateEndgame_iff endgame_sample H)].
Defined.

(** C4 (as stated) fails: with two blocks left and two requests out to one
    peer, [updateEndgame] sets the flag; the peer then chokes us, which
    drops both requests without any block completing, and the next
    [updateEndgame] clears the flag. *)
Lemma C4_endgame_not_monotone :
  isEndgame (updateEndgame endgame_sample) = true
  /\ isEndgame (swarm_run [OpClientGotChoke 7; OpUpdateEndgame] (updateEndgame endgame_sample))
     = false.
Proof. split; vm_compute; reflexivity. Qed.

(** C4 (amended): for every sequence of swarm operations that removes no
    request (requests sent and further [updateEndgame] calls; no choke, no
    reject, no TTL cancellation, no completed block), once [updateEndgame]
    has set the endgame flag, a subsequent [updateEndgame] leaves it true,
    the byte count being representable in [uint64_t]. *)
Theorem C4_endgame_stays_while_requests_kept (s : tr_swarm) (ops : list swarm_op) :
  Forall (fun op => keeps_requests op = true) ops ->
  (N.of_nat (size (active_requests (swarm_run ops (updateEndgame s)))) * BlockSize
     <= uint64_max)%N ->
  isEndgame (updateEndgame s) = true ->
  isEndgame (updateEndgame (swarm_run ops (updateEndgame s))) = true.
Proof.
  intros Hops Hfit Htrue.
  apply EndgameFacts.updateEndgame_flag; [done|].
  rewrite EndgameFacts.tor_swarm_run.
  pose proof (EndgameFacts.keeps_requests_run ops (updateEndgame s) Hops) as Hsize.
  unfold isEndgame, updateEndgame in Htrue. simpl in Htrue.
  apply N.leb_le in Htrue. simpl in *.
  etrans; [exact Htrue|]. unfold wrap64.
  etrans; [apply N.Div0.mod_le|].
  apply N.mul_le_mono_r. lia.
Qed.

Lemma C4_endgame_stays_witness :
  isEndgame
    (updateEndgame
       (swarm_run [OpClientSentRequests 8 0%N 1%N 101%Z; OpUpdateEndgame] (updateEndgame endgame_sample)))
  = true.
Proof.
  apply (C4_endgame_stays_while_requests_kept endgame_sample
           [OpClientSentRequests 8 0%N 1%N 101%Z; OpUpdateEndgame]).
  - repeat constructor.
  - vm_compute. discriminate.
  - vm_compute. reflexivity.
Defined.

Module PortFacts.




End PortFacts.

(** C10: for a connected peer whose [tr_peer_info] has a known listen
    port, a [ClientGotPort] event carrying that very port changes nothing:
    the swarm (its three pools, every [tr_peer_info], every peer's
    [do_purge]) is returned as it was. *)
Theorem C10_got_same_port_is_noop
    (merge : tr_peer_info -> tr_peer_info -> tr_peer_info)
    (s : tr_swarm) (m : peer_ptr) (this : tr_peerMsgs) (info : tr_peer_info)
    (event_port : tr_port) :
  find_peer m (peers s) = Some this ->
  infos s !! peer_info this = Some info ->
  port_empty (listen_port info) = false ->
  event_port = listen_port info ->
  client_got_port merge m event_port s = Some s.
Proof.
  intros Hthis Hinfo Hknown ->. unfold client_got_port.
  rewrite Hknown, Hthis. simpl. rewrite Hinfo. simpl.
  by rewrite Hknown, N.eqb_refl.
Qed.




Lemma C10_got_same_port_witness :
  client_got_port merge_model 1 6881%N sample_port_swarm = Some sample_port_swarm.
Proof.
  apply (C10_got_same_port_is_noop merge_model sample_port_swarm 1 sample_peer_A sample_info_A).
  - reflexivity.
  - vm_compute. reflexivity.
  - reflexivity.
  - reflexivity.
Defined.

Module AddPexFacts.

Lemma absorbed_fixpoint flags from i :
  absorbed flags from i -> set_pex_flags flags (found_at from i) = i.
Proof.
  intros [Hf Hm]. destruct i. unfold set_pex_flags, found_at. simpl in *.
  by rewrite Hf, Hm.
Qed.

Lemma absorbed_new sa flags from :
  absorbed flags from (new_connectable_info sa flags from).
Proof.
  split; simpl; [apply N.lor_diag | apply N.min_id].
Qed.

Lemma absorbed_after flags from i :
  absorbed flags from (set_pex_flags flags (found_at from i)).
Proof.
  split; simpl.
  - by rewrite <- N.lor_assoc, N.lor_diag.
  - lia.
Qed.

Lemma absorbed_mono flags from flags' from' i :
  absorbed flags from i -> absorbed flags from (set_pex_flags flags' (found_at from' i)).
Proof.
  intros [Hf Hm]. split; simpl.
  - rewrite <- N.lor_assoc, (N.lor_comm flags' flags), N.lor_assoc. by rewrite Hf.
  - lia.
Qed.

Lemma ensure_alive sa flags from s :
  pool_nodes_alive (connectable_pool s) s ->
  pool_nodes_alive (connectable_pool (ensure_info_exists sa flags from true s).1)
                   (ensure_info_exists sa flags from true s).1.
Proof.
  unfold pool_nodes_alive. intros Hwf. unfold ensure_info_exists.
  destruct (connectable_pool s !! sa) as [p|] eqn:E; simpl.
  - intros sa' p' H'. destruct (Hwf sa' p' H') as [i Hi].
    rewrite lookup_alter. case_decide; subst; rewrite Hi; by eexists.
  - intros sa' p' H'. rewrite lookup_insert in H'. case_decide.
    + injection H' as <-. rewrite lookup_insert_eq. by eexists.
    + destruct (Hwf sa' p' H') as [i Hi].
      rewrite lookup_insert. case_decide; [by eexists|]. rewrite Hi. by eexists.
Qed.

Lemma ensure_settles sa flags from s :
  pool_nodes_alive (connectable_pool s) s ->
  settled sa flags from (ensure_info_exists sa flags from true s).1.
Proof.
  intros Hwf. unfold ensure_info_exists, settled.
  destruct (connectable_pool s !! sa) as [p|] eqn:E; simpl.
  - split; [done|]. destruct (Hwf sa p E) as [i Hi].
    exists p, (set_pex_flags flags (found_at from i)).
    rewrite lookup_alter_eq, Hi. split; [done|split; [done|]]. apply absorbed_after.
  - split; [done|].
    exists (fresh (dom (infos s))), (new_connectable_info sa flags from).
    rewrite !lookup_insert_eq. split; [done|split; [done|]]. apply absorbed_new.
Qed.

Lemma ensure_keeps_settled sa flags from sa' flags' from' s :
  settled sa flags from s ->
  settled sa flags from (ensure_info_exists sa' flags' from' true s).1.
Proof.
  intros (Hdirty & p & i & Hp & Hi & Habs). unfold ensure_info_exists, settled.
  destruct (connectable_pool s !! sa') as [p'|] eqn:E; simpl.
  - split; [done|]. destruct (decide (p' = p)) as [->|Hne].
    + exists p, (set_pex_flags flags' (found_at from' i)).
      rewrite lookup_alter_eq, Hi. split; [done|split; [done|]]. by apply absorbed_mono.
    + exists p, i. by rewrite lookup_alter_ne.
  - split; [done|].
    assert (Hfresh : fresh (dom (infos s)) <> p).
    { intros Heq. apply (is_fresh (dom (infos s))). rewrite Heq.
      apply elem_of_dom. by eexists. }
    assert (Hsa : sa' <> sa) by (intros ->; congruence).
    exists p, i. by rewrite !lookup_insert_ne.
Qed.

Lemma ensure_settled_id sa flags from s :
  settled sa flags from s -> (ensure_info_exists sa flags from true s).1 = s.
Proof.
  intros (Hdirty & p & i & Hp & Hi & Habs). unfold ensure_info_exists. rewrite Hp. simpl.
  rewrite alter_id.
  - destruct s. simpl in *. by subst.
  - intros x Hx. rewrite Hi in Hx. injection Hx as <-. by apply absorbed_fixpoint.
Qed.

Section Fold.

Variables (tr_isPex is_valid_for_peers : Pex.tr_pex -> bool).
Variables (session : tr_session) (from : N).

Let step := add_pex_step tr_isPex is_valid_for_peers session from.
Let usable := pex_is_usable tr_isPex is_valid_for_peers session from.

Lemma fold_count pex acc :
  (fold_left step pex acc).2
  = acc.2 + length (List.filter usable pex).
Proof.
  revert acc. induction pex as [|e pex IH]; intros acc; simpl; [lia|].
  rewrite IH. unfold step, add_pex_step. fold usable.
  destruct (usable e); simpl; lia.
Qed.

Lemma fold_keeps_settled sa flags fr pex acc :
  settled sa flags fr acc.1 -> settled sa flags fr (fold_left step pex acc).1.
Proof.
  revert acc. induction pex as [|e pex IH]; intros acc H; simpl; [done|].
  apply IH. unfold step, add_pex_step. fold usable.
  destruct (usable e); simpl; [|done]. by apply ensure_keeps_settled.
Qed.

Lemma fold_settles pex acc :
  pool_nodes_alive (connectable_pool acc.1) acc.1 ->
  Forall (fun e => usable e = true -> settled_entry from e (fold_left step pex acc).1) pex.
Proof.
  revert acc. induction pex as [|e pex IH]; intros acc Hwf; simpl; [constructor|].
  constructor.
  - intros He. apply fold_keeps_settled. unfold step, add_pex_step. fold usable.
    rewrite He. simpl. by apply ensure_settles.
  - apply IH. unfold step, add_pex_step. fold usable.
    destruct (usable e); simpl; [|done]. by apply ensure_alive.
Qed.

Lemma fold_settled_id pex acc :
  Forall (fun e => usable e = true -> settled_entry from e acc.1) pex ->
  (fold_left step pex acc).1 = acc.1.
Proof.
  revert acc. induction pex as [|e pex IH]; intros acc H; simpl; [done|].
  apply Forall_cons in H as [He Hrest].
  assert (Hstep : (step acc e).1 = acc.1).
  { unfold step, add_pex_step. fold usable. destruct (usable e); simpl; [|done].
    by apply ensure_settled_id, He. }
  rewrite IH; [done|]. by rewrite Hstep.
Qed.

End Fold.

End AddPexFacts.

(** C9: [tr_peerMgrAddPex] is idempotent.  On a swarm whose
    [connectable_pool] names live records, feeding the same entries from the
    same source a second time returns the same swarm state (the pools and
    every record in them) and the same count of used entries as the first
    time. *)
Theorem C9_addPex_idempotent
    (tr_isPex is_valid_for_peers : Pex.tr_pex -> bool)
    (session : tr_session) (from : tr_peer_from) (pex : list Pex.tr_pex) (s : tr_swarm) :
  pool_nodes_alive (connectable_pool s) s ->
  tr_peerMgrAddPex tr_isPex is_valid_for_peers session from pex
    (fst (tr_peerMgrAddPex tr_isPex is_valid_for_peers session from pex s))
  = tr_peerMgrAddPex tr_isPex is_valid_for_peers session from pex s.
Proof.
  intros Hwf. unfold tr_peerMgrAddPex.
  set (step := add_pex_step tr_isPex is_valid_for_peers session from).
  set (once := fold_left step pex (s, 0)).
  pose proof (AddPexFacts.fold_settles tr_isPex is_valid_for_peers session from pex (s, 0) Hwf)
    as Hsettled.
  fold step in Hsettled. fold once in Hsettled.
  pose proof (AddPexFacts.fold_settled_id tr_isPex is_valid_for_peers session from pex
                (once.1, 0) Hsettled) as Hstate.
  pose proof (AddPexFacts.fold_count tr_isPex is_valid_for_peers session from pex (once.1, 0))
    as Hcount.
  pose proof (AddPexFacts.fold_count tr_isPex is_valid_for_peers session from pex (s, 0))
    as Hcount0.
  fold step in Hstate, Hcount, Hcount0. fold once in Hcount0. simpl in *.
  destruct (fold_left step pex (once.1, 0)) as [s2 n2].
  destruct once as [s1 n1]. simpl in *. congruence.
Qed.

Lemma C9_addPex_idempotent_witness :
  tr_peerMgrAddPex (fun _ => true) (fun _ => true) sample_session TR_PEER_FROM_PEX sample_pex
    (fst (tr_peerMgrAddPex (fun _ => true) (fun _ => true) sample_session TR_PEER_FROM_PEX
            sample_pex sample_port_swarm))
  = tr_peerMgrAddPex (fun _ => true) (fun _ => true) sample_session TR_PEER_FROM_PEX
      sample_pex sample_port_swarm.
Proof.
  apply (C9_addPex_idempotent (fun _ => true) (fun _ => true) sample_session TR_PEER_FROM_PEX
           sample_pex sample_port_swarm).
  intros sa p H. change (connectable_pool sample_port_swarm) with
    ({[ (sample_ip, 6881%N) := 10 ]} : gmap (tr_address * N) nat) in H.
  apply lookup_singleton_Some in H as [_ <-].
  vm_compute. eexists. reflexivity.
Defined.

Module AdmissionFacts.

Lemma find_replace {A} (f : A -> bool) (l : list A) (x x' : A) :
  List.find f l = Some x -> f x' = true ->
  List.find f (map (fun y => if f y then x' else y) l) = Some x'.
Proof.
  intros Hfind Hx'. induction l as [|y l IH]; simpl in *; [done|].
  destruct (f y) eqn:E; simpl.
  - by rewrite Hx'.
  - rewrite E. by apply IH.
Qed.

Lemma get_put_swarm hash s s' mgr :
  get_existing_swarm hash mgr = Some s ->
  info_hash (tor s') = hash ->
  get_existing_swarm hash (put_swarm hash s' mgr) = Some s'.
Proof.
  unfold get_existing_swarm, put_swarm. simpl. intros Hfind Hhash.
  apply (find_replace (fun s0 => N.eqb (info_hash (tor s0)) hash) _ s s' Hfind).
  by apply N.eqb_eq.
Qed.

Lemma get_swarm_hash hash s mgr :
  get_existing_swarm hash mgr = Some s -> info_hash (tor s) = hash.
Proof.
  unfold get_existing_swarm. intros H. apply find_some in H as [_ H]. by apply N.eqb_eq.
Qed.

Lemma failures_kept_insert (m : gmap nat tr_peer_info) p info :
  (forall i, m !! p = Some i -> connection_failure_count info = connection_failure_count i) ->
  forall p0 i0, m !! p0 = Some i0 ->
    exists i', <[p := info]> m !! p0 = Some i'
               /\ connection_failure_count i' = connection_failure_count i0.
Proof.
  intros Hsame p0 i0 H0. rewrite lookup_insert. case_decide; subst.
  - exists info. split; [done|]. by apply Hsame.
  - by exists i0.
Qed.

Lemma failures_kept_alter (m : gmap nat tr_peer_info) p f :
  (forall i, connection_failure_count (f i) = connection_failure_count i) ->
  forall p0 i0, m !! p0 = Some i0 ->
    exists i', alter f p m !! p0 = Some i'
               /\ connection_failure_count i' = connection_failure_count i0.
Proof.
  intros Hsame p0 i0 H0. rewrite lookup_alter. case_decide; subst; rewrite H0; simpl.
  - exists (f i0). by split.
  - by exists i0.
Qed.

End AdmissionFacts.

(** C6: for every successful handshake completion on a running swarm
    (for an outgoing connection the record is in [connectable_pool], as the
    source takes for granted), [on_handshake_done] refuses the connection
    exactly when the record is banned, or the swarm's peer count is at or
    above the torrent's peer limit, or the record is already connected.
    When it refuses, no peer is added, the stats are unchanged and every
    record keeps its failure count; otherwise one peer is added and
    [stats.peer_count] grows by one. *)
Theorem C6_admission_refused_iff
    (result : tr_handshake_result) (mgr : tr_peerMgr) (s : tr_swarm) :
  get_existing_swarm (io_torrent_hash result) mgr = Some s ->
  hr_is_connected result = true ->
  is_running s = true ->
  pool_nodes_alive (incoming_pool s) s ->
  (io_is_incoming result = false -> is_Some (handshake_peer_info result s)) ->
  exists mgr' s',
    on_handshake_done result mgr = Some (mgr', negb (admission_refused result s))
    /\ get_existing_swarm (io_torrent_hash result) mgr' = Some s'
    /\ (admission_refused result s = true ->
        peers s' = peers s /\ stats s' = stats s
        /\ forall p i, infos s !! p = Some i ->
             exists i', infos s' !! p = Some i'
                        /\ connection_failure_count i' = connection_failure_count i)
    /\ (admission_refused result s = false ->
        length (peers s') = S (length (peers s))
        /\ peer_count (stats s') = S (peer_count (stats s))).
Proof.
  intros Hsw Hok Hrun Halive Hout.
  pose proof (AdmissionFacts.get_swarm_hash _ _ _ Hsw) as Hhash.
  unfold on_handshake_done, admission_refused, handshake_peer_info in *.
  rewrite Hsw, Hok.
  destruct (io_is_incoming result) eqn:Hinc; simpl.
  - rewrite Hrun. simpl. unfold ensure_info_exists.
    destruct (incoming_pool s !! io_socket_address result) as [p|] eqn:Hp; simpl.
    + destruct (Halive _ _ Hp) as [i Hi]. rewrite lookup_alter_eq, Hi. simpl.
      rewrite ?Hi.
      destruct (io_is_utp result); simpl;
        destruct (is_banned i); simpl;
        try (destruct (Nat.leb (peer_limit (tor s)) (peerCount s)) eqn:Hfull;
             unfold peerCount in *; simpl; rewrite ?Hfull; simpl);
        try (destruct (is_connected i); simpl).
      all: eexists _, _; (split; [reflexivity|]).
      all: (split; [by eapply AdmissionFacts.get_put_swarm|]).
      all: simpl; split; intros Href; try discriminate Href.
      all: try (rewrite length_app; simpl; split; [lia | done]).
      all: split; [done|split; [done|]].
      all: intros p0 i0 H0.
      all: destruct (AdmissionFacts.failures_kept_alter (infos s) p
                  (fun i1 => set_pex_flags 0 (found_at TR_PEER_FROM_INCOMING i1))
                  (fun _ => eq_refl) p0 i0 H0) as (i1 & H1 & Hc1).
      all: rewrite <- Hc1.
      all: eapply AdmissionFacts.failures_kept_insert; [|exact H1].
      all: intros i2; rewrite lookup_alter_eq, Hi; simpl; by intros [= <-].
    + rewrite lookup_insert_eq. simpl.
      assert (Hfresh : infos s !! fresh (dom (infos s)) = None).
      { apply not_elem_of_dom, is_fresh. }
      destruct (io_is_utp result); simpl;
        destruct (Nat.leb (peer_limit (tor s)) (peerCount s)) eqn:Hfull;
        unfold peerCount in *; simpl; rewrite ?Hfull; simpl.
      all: eexists _, _; (split; [reflexivity|]).
      all: (split; [by eapply AdmissionFacts.get_put_swarm|]).
      all: simpl; split; intros Href; try discriminate Href.
      all: try (rewrite length_app; simpl; split; [lia | done]).
      all: split; [done|split; [done|]].
      all: intros p0 i0 H0.
      all: destruct (AdmissionFacts.failures_kept_insert (infos s) (fresh (dom (infos s)))
                  (new_incoming_info (io_socket_address result).1 0 TR_PEER_FROM_INCOMING))
             with (p0 := p0) (i0 := i0) as (i1 & H1 & Hc1);
           [by intros i2; rewrite Hfresh | done |].
      all: rewrite <- Hc1.
      all: eapply AdmissionFacts.failures_kept_insert; [|exact H1].
      all: intros i2; rewrite lookup_insert_eq; by intros [= <-].
  - destruct (Hout eq_refl) as [i Hi].
    unfold get_existing_peer_info. simpl. rewrite Hrun. simpl.
    destruct (connectable_pool s !! io_socket_address result) as [p|] eqn:Hp;
      simpl in *; [|done].
    rewrite Hi. simpl.
    destruct (io_is_utp result); simpl;
      destruct (is_banned i); simpl;
      try (destruct (Nat.leb (peer_limit (tor s)) (peerCount s)) eqn:Hfull;
           unfold peerCount in *; simpl; rewrite ?Hfull; simpl);
      try (destruct (is_connected i); simpl).
    all: eexists _, _; (split; [reflexivity|]).
    all: (split; [by eapply AdmissionFacts.get_put_swarm|]).
    all: simpl; split; intros Href; try discriminate Href.
    all: try (rewrite length_app; simpl; split; [lia | done]).
    all: split; [done|split; [done|]].
    all: apply AdmissionFacts.failures_kept_insert.
    all: intros i2; rewrite Hi; by intros [= <-].
Qed.

Lemma C6_admission_witness :
  exists mgr' s',
    on_handshake_done sample_result sample_mgr = Some (mgr', true)
    /\ get_existing_swarm 1 mgr' = Some s'
    /\ length (peers s') = 3.
Proof.
  assert (Halive : pool_nodes_alive (incoming_pool sample_port_swarm) sample_port_swarm).
  { intros sa p H.
    change (incoming_pool sample_port_swarm) with
      ({[ (sample_ip, 54321%N) := 20 ]} : gmap (tr_address * N) nat) in H.
    apply lookup_singleton_Some in H as [_ <-]. vm_compute. eexists. reflexivity. }
  destruct (C6_admission_refused_iff sample_result sample_mgr sample_port_swarm
              eq_refl eq_refl eq_refl Halive)
    as (mgr' & s' & Hrun & Hget & _ & Hadmit).
  { discriminate. }
  exists mgr', s'. split; [exact Hrun|]. split; [exact Hget|].
  apply (Hadmit eq_refl).
Defined.

Module GetPeersFacts.

(** [info'] is [info], possibly with its blocklist memo filled in. *)
Lemma is_blocklisted_again session info :
  is_blocklisted session (is_blocklisted session info).2 = is_blocklisted session info.
Proof.
  unfold is_blocklisted. destruct (blocklisted_ info) eqn:E; simpl; by rewrite ?E.
Qed.

Lemma is_blocklisted_keeps session info :
  listen_socket_address (is_blocklisted session info).2 = listen_socket_address info
  /\ is_seed (is_blocklisted session info).2 = is_seed info
  /\ is_banned (is_blocklisted session info).2 = is_banned info
  /\ is_connected (is_blocklisted session info).2 = is_connected info.
Proof. unfold is_blocklisted. by destruct (blocklisted_ info). Qed.

Lemma interesting_memo session s info :
  memo_filled session info (is_peer_interesting session s info).2.
Proof.
  unfold memo_filled, is_peer_interesting.
  destruct (is_done (tor s) && is_seed info); [by left|].
  destruct (peer_is_in_use s info); [by left|].
  destruct (is_blocklisted session info).1; [by right|].
  destruct (is_banned _); by right.
Qed.

Lemma interesting_stable session s s' info info' :
  tor s' = tor s -> outgoing_handshakes s' = outgoing_handshakes s ->
  memo_filled session info info' ->
  (is_peer_interesting session s' info').1 = (is_peer_interesting session s info).1
  /\ memo_filled session info (is_peer_interesting session s' info').2.
Proof.
  intros Htor Hout [-> | ->].
  - unfold is_peer_interesting, peer_is_in_use. rewrite Htor, Hout. split; [done|].
    apply (interesting_memo session s).
  - destruct (is_blocklisted_keeps session info) as (Hsa & Hseed & Hban & Hconn).
    unfold is_peer_interesting, peer_is_in_use.
    rewrite Htor, Hout, Hsa, Hseed, Hconn, is_blocklisted_again, Hban.
    destruct (is_done (tor s) && is_seed info); [split; [done|by right]|].
    destruct (is_connected info || _); [split; [done|by right]|].
    destruct (is_blocklisted session info).1; [split; [done|by right]|].
    destruct (is_banned info); split; try done; by right.
Qed.

Lemma interesting_false_iff session s info :
  (is_peer_interesting session s info).1 = false
  <-> (is_done (tor s) = true /\ is_seed info = true)
      \/ (peer_is_in_use s info = false
          /\ ((is_blocklisted session info).1 = true \/ is_banned info = true)).
Proof.
  destruct (is_blocklisted_keeps session info) as (_ & _ & Hban & _).
  unfold is_peer_interesting. rewrite Hban.
  destruct (is_done (tor s)), (is_seed info), (peer_is_in_use s info),
    (is_blocklisted session info).1, (is_banned info); simpl; intuition congruence.
Qed.

Lemma memo_step_refl session s : memo_step session s s.
Proof.
  split; [done|split; [done|]]. intros p. destruct (infos s !! p) as [info|] eqn:E; [|done].
  exists info. split; [done|by left].
Qed.

Lemma collect_step session address_type s acc sk entry :
  memo_step session s sk ->
  (collect_interesting_step session address_type (acc, sk) entry).1
  = (if entry_collected session address_type s entry then acc ++ [entry.2] else acc)
  /\ memo_step session s (collect_interesting_step session address_type (acc, sk) entry).2.
Proof.
  intros (Htor & Hout & Hinfos).
  unfold collect_interesting_step, entry_collected. simpl.
  case_bool_decide; simpl; [|done].
  pose proof (Hinfos entry.2) as Hp.
  destruct (infos s !! entry.2) as [info|] eqn:E.
  - destruct Hp as (info' & Hsk & Hmemo). rewrite Hsk.
    destruct (interesting_stable session s sk info info' Htor Hout Hmemo) as [Hfst Hsnd].
    rewrite Hfst. simpl. split; [done|].
    split; [done|split; [done|]]. intros q. simpl.
    rewrite lookup_insert. case_decide; subst.
    + rewrite E. by eexists.
    + apply Hinfos.
  - by rewrite Hp.
Qed.

Lemma collect_fold session address_type s l acc sk :
  memo_step session s sk ->
  (fold_left (collect_interesting_step session address_type) l (acc, sk)).1
  = acc ++ map snd (List.filter (entry_collected session address_type s) l)
  /\ memo_step session s
       (fold_left (collect_interesting_step session address_type) l (acc, sk)).2.
Proof.
  revert acc sk. induction l as [|entry l IH]; intros acc sk Hstep; simpl.
  - by rewrite app_nil_r.
  - destruct (collect_step session address_type s acc sk entry Hstep) as [H1 H2].
    destruct (collect_interesting_step session address_type (acc, sk) entry) as [acc' sk'].
    simpl in *. subst acc'.
    destruct (IH (if entry_collected session address_type s entry
                  then acc ++ [entry.2] else acc) sk' H2) as [IH1 IH2].
    split; [|done]. rewrite IH1.
    destruct (entry_collected session address_type s entry); simpl; [|done].
    by rewrite <- app_assoc.
Qed.

End GetPeersFacts.

(** C2 (as stated) fails: a peer that is in use does not always pass the
    filter.  With the torrent done, the connected seed A is dropped by
    [is_peer_interesting] although it is in use, and [tr_peerMgrGetPeers]
    returns no entry for it. *)
Lemma C2_seed_in_use_is_filtered_out :
  peer_is_in_use sample_done_swarm sample_seed_A = true
  /\ fst (is_peer_interesting sample_session sample_done_swarm sample_seed_A) = false
  /\ fst (tr_peerMgrGetPeers (fun _ _ => false) sample_session TR_AF_INET
            TR_PEERS_INTERESTING 10 sample_done_swarm) = [].
Proof. repeat split; vm_compute; reflexivity. Qed.

(** C2 (amended): in INTERESTING mode, an entry of [connectable_pool] with
    the requested address family is left out of the collected records
    exactly when it is a seed while the torrent is done (whether or not it
    is in use), or, not being in use (neither connected nor with a pending
    outgoing handshake), it is blocklisted or banned. *)
Theorem C2_interesting_filter
    (session : tr_session) (address_type : tr_address_type) (s : tr_swarm)
    (sa : tr_socket_address) (p : nat) (info : tr_peer_info) :
  connectable_pool s !! sa = Some p ->
  infos s !! p = Some info ->
  addr_type (fst sa) = address_type ->
  p ∉ fst (collect_interesting session address_type s)
  <-> (is_done (tor s) = true /\ is_seed info = true)
      \/ (peer_is_in_use s info = false
          /\ (fst (is_blocklisted session info) = true \/ is_banned info = true)).
Proof.
  intros Hp Hinfo Htype.
  rewrite <- GetPeersFacts.interesting_false_iff.
  unfold collect_interesting.
  destruct (GetPeersFacts.collect_fold session address_type s
              (map_to_list (connectable_pool s)) [] s
              (GetPeersFacts.memo_step_refl session s)) as [-> _].
  simpl. rewrite list_elem_of_In, in_map_iff. split.
  - intros Hnot. destruct (is_peer_interesting session s info).1 eqn:E; [|done].
    exfalso. apply Hnot. exists (sa, p). split; [done|].
    apply filter_In. split.
    + by apply list_elem_of_In, elem_of_map_to_list.
    + unfold entry_collected. simpl. rewrite Hinfo, E.
      by rewrite bool_decide_eq_true_2.
  - intros Hfalse ([sa' p'] & Hsnd & Hin). simpl in Hsnd. subst p'.
    apply filter_In in Hin as [_ Hc]. unfold entry_collected in Hc. simpl in Hc.
    rewrite Hinfo, Hfalse in Hc. by destruct (bool_decide _).
Qed.

Lemma C2_interesting_filter_witness :
  10 ∉ fst (collect_interesting sample_session TR_AF_INET sample_done_swarm)
  <-> (is_done (tor sample_done_swarm) = true /\ is_seed sample_seed_A = true)
      \/ (peer_is_in_use sample_done_swarm sample_seed_A = false
          /\ (fst (is_blocklisted sample_session sample_seed_A) = true
              \/ is_banned sample_seed_A = true)).
Proof.
  apply (C2_interesting_filter sample_session TR_AF_INET sample_done_swarm
           (sample_ip, 6881%N) 10 sample_seed_A).
  - vm_compute. reflexivity.
  - vm_compute. reflexivity.
  - reflexivity.
Defined.

Module SortFacts.

Lemma sort_insert_perm {A} (lt : A -> A -> bool) x l :
  Permutation (sort_insert lt x l) (x :: l).
Proof.
  induction l as [|y l IH]; simpl; [done|].
  destruct (lt y x); [|done].
  rewrite IH. apply perm_swap.
Qed.

Lemma sort_by_perm {A} (lt : A -> A -> bool) l : Permutation (sort_by lt l) l.
Proof.
  induction l as [|x l IH]; simpl; [done|].
  rewrite sort_insert_perm. by constructor.
Qed.

End SortFacts.

Module RechokeFacts.

Lemma collect_peers t choke_all o salter k ps :
  (collect_choke_data t choke_all o salter k ps).1 = map (choke_first choke_all) ps.
Proof.
  revert k. induction ps as [|p ps IH]; intros k; simpl; [done|].
  unfold choke_first at 1.
  destruct (isSeed p); simpl; [by rewrite IH|].
  destruct choke_all; simpl; [by rewrite IH|].
  destruct (is_not_optimistic o p); simpl; by rewrite IH.
Qed.

Lemma collect_items t choke_all o salter k ps :
  map cd_msgs (collect_choke_data t choke_all o salter k ps).2
  = map msgs (List.filter (gets_choke_data choke_all o) ps)
  /\ Forall (fun c => cd_is_choked c = true /\ item_of_peer choke_all o ps c)
            (collect_choke_data t choke_all o salter k ps).2.
Proof.
  revert k. induction ps as [|p ps IH]; intros k; simpl; [by split|].
  assert (Hweaken : forall l,
            Forall (fun c => cd_is_choked c = true /\ item_of_peer choke_all o ps c) l ->
            Forall (fun c => cd_is_choked c = true /\ item_of_peer choke_all o (p :: ps) c) l).
  { intros l Hl. eapply Forall_impl; [exact Hl|]. intros c [Hc (q & Hq & Hrest)].
    split; [done|]. exists q. split; [by right | done]. }
  unfold gets_choke_data at 1.
  destruct (isSeed p) eqn:Hseed; simpl.
  { destruct (IH k) as [IH1 IH2]. split; [done | by apply Hweaken]. }
  destruct choke_all eqn:Hall; simpl.
  { destruct (IH k) as [IH1 IH2]. split; [done | by apply Hweaken]. }
  destruct (is_not_optimistic o p) eqn:Hopt; simpl.
  - destruct (IH (S k)) as [IH1 IH2]. split; [by rewrite IH1|].
    constructor; [|by apply Hweaken]. simpl. split; [done|].
    exists p. split; [by left|]. unfold gets_choke_data. by rewrite Hseed, Hopt.
  - destruct (IH k) as [IH1 IH2]. split; [done | by apply Hweaken].
Qed.

Lemma unchoke_best_keeps slots maxed ui items :
  map cd_msgs (unchoke_best slots maxed ui items).1 = map cd_msgs items
  /\ map cd_is_interested (unchoke_best slots maxed ui items).1 = map cd_is_interested items.
Proof.
  revert ui. induction items as [|c items IH]; intros ui; simpl; [done|].
  destruct (Nat.leb slots ui); simpl; [done|].
  destruct (IH (if cd_is_interested c then S ui else ui)) as [-> ->]. done.
Qed.

Lemma unchoke_best_bound slots maxed ui items :
  Forall (fun c => cd_is_choked c = true) items ->
  ui <= slots ->
  length (List.filter item_unchoked_interested (unchoke_best slots maxed ui items).1) + ui
  <= slots.
Proof.
  intros Hall. revert ui. induction Hall as [|c items Hc Hall IH]; intros ui Hui; simpl; [done|].
  destruct (Nat.leb_spec slots ui) as [Hle|Hlt]; simpl.
  - unfold item_unchoked_interested at 1. rewrite Hc. simpl.
    assert (Hnone : List.filter item_unchoked_interested items = []).
    { clear -Hall. induction Hall as [|d items Hd _ IH]; simpl; [done|].
      unfold item_unchoked_interested at 1. by rewrite Hd. }
    rewrite Hnone. simpl. lia.
  - unfold item_unchoked_interested at 1. simpl.
    destruct (cd_is_interested c) eqn:Hint.
    + specialize (IH (S ui) ltac:(lia)).
      destruct (negb _ && true); simpl; lia.
    + specialize (IH ui ltac:(lia)). rewrite andb_false_r. lia.
Qed.

Lemma unchoke_best_Forall (P : ChokeData -> Prop) slots maxed ui items :
  (forall c b, P c -> P (set_is_choked b c)) ->
  Forall P items -> Forall P (unchoke_best slots maxed ui items).1.
Proof.
  intros HP Hall. revert ui. induction Hall as [|c items Hc Hall IH]; intros ui; simpl.
  - constructor.
  - destruct (Nat.leb slots ui); simpl; [by constructor|].
    constructor; [by apply HP | apply IH].
Qed.

Lemma choose_optimistic_spec rnd checked items items' o :
  choose_optimistic rnd checked items = Some (items', o) ->
  exists i c, items !! i = Some c
              /\ items' = alter (set_is_choked false) i items /\ o = cd_msgs c.
Proof.
  unfold choose_optimistic.
  destruct (Nat.eqb _ 0); [done|].
  destruct (_ !! (rnd mod _)) as [i|]; simpl; [|done].
  destruct (items !! i) as [c|] eqn:E; simpl; [|done].
  intros [= <- <-]. by exists i, c.
Qed.

Lemma elem_of_alter_inv {A} (f : A -> A) i (l : list A) x :
  x ∈ alter f i l -> x ∈ l \/ exists c, l !! i = Some c /\ x = f c.
Proof.
  revert i. induction l as [|y l IH]; intros i; simpl; [by left|].
  destruct i as [|i]; simpl.
  - intros [->|H]%elem_of_cons; [right; by exists y | left; by right].
  - intros [->|H]%elem_of_cons; [left; by left|].
    destruct (IH i H) as [H'|H']; [left; by right | by right].
Qed.

Lemma map_alter_same {A B} (g : A -> B) (f : A -> A) i (l : list A) :
  (forall x, g (f x) = g x) -> map g (alter f i l) = map g l.
Proof.
  intros Hg. revert i. induction l as [|y l IH]; intros i; simpl; [done|].
  destruct i; simpl; [by rewrite Hg | f_equal; apply IH].
Qed.

Lemma apply_choke_map items ps :
  apply_choke items ps = map (apply_choke_one items) ps.
Proof.
  unfold apply_choke, apply_choke_one. revert ps.
  induction items as [|c items IH]; intros ps; simpl.
  - by rewrite map_id.
  - rewrite IH. unfold update_peer. rewrite map_map. done.
Qed.

Lemma apply_choke_one_spec items p :
  msgs (apply_choke_one items p) = msgs p
  /\ isSeed (apply_choke_one items p) = isSeed p
  /\ peer_is_interested (apply_choke_one items p) = peer_is_interested p
  /\ ((exists c, c ∈ items /\ cd_msgs c = msgs p
                 /\ peer_is_choked (apply_choke_one items p) = cd_is_choked c)
      \/ ((forall c, c ∈ items -> cd_msgs c <> msgs p) /\ apply_choke_one items p = p)).
Proof.
  unfold apply_choke_one. revert p.
  induction items as [|c items IH]; intros p; simpl.
  - repeat split. right. split; [|done]. intros c Hc. by apply elem_of_nil in Hc.
  - remember (if Nat.eqb (msgs p) (cd_msgs c) then set_choke (cd_is_choked c) p else p)
      as p' eqn:Hp'.
    assert (Hkeep : msgs p' = msgs p /\ isSeed p' = isSeed p
                    /\ peer_is_interested p' = peer_is_interested p).
    { subst p'. by destruct (Nat.eqb _ _). }
    destruct Hkeep as (Hm & Hs & Hi).
    destruct (IH p') as (IHm & IHs & IHi & IHc).
    split; [congruence|]. split; [congruence|]. split; [congruence|].
    destruct IHc as [(d & Hd & Hdm & Hdc)|[Hnone Heq]].
    + left. exists d. split; [by right|]. split; [congruence | done].
    + rewrite Heq.
      destruct (Nat.eqb_spec (msgs p) (cd_msgs c)) as [E|E]; subst p'.
      * left. exists c. split; [by left|]. by split.
      * right. split; [|done]. intros d [->|Hd]%elem_of_cons; [congruence|].
        by apply Hnone.
Qed.

Lemma NoDup_map_eq {A B} (f : A -> B) (l : list A) x y :
  NoDup (map f l) -> x ∈ l -> y ∈ l -> f x = f y -> x = y.
Proof.
  induction l as [|z l IH]; simpl; intros Hnd Hx Hy Hf; [by apply elem_of_nil in Hx|].
  apply NoDup_cons in Hnd as [Hz Hnd].
  apply elem_of_cons in Hx as [->|Hx]; apply elem_of_cons in Hy as [->|Hy]; try done.
  - exfalso. apply Hz. rewrite Hf. apply list_elem_of_fmap. by exists y.
  - exfalso. apply Hz. rewrite <- Hf. apply list_elem_of_fmap. by exists x.
  - by apply IH.
Qed.

Lemma NoDup_map_filter {A B} (f : A -> B) (P : A -> bool) (l : list A) :
  NoDup (map f l) -> NoDup (map f (List.filter P l)).
Proof.
  induction l as [|z l IH]; simpl; intros Hnd; [done|].
  apply NoDup_cons in Hnd as [Hz Hnd].
  destruct (P z); simpl; [|by apply IH].
  apply NoDup_cons. split; [|by apply IH].
  intros Hin. apply Hz. apply list_elem_of_fmap in Hin as (y & -> & Hy).
  apply list_elem_of_fmap. exists y. split; [done|].
  apply list_elem_of_In in Hy. apply filter_In in Hy as [Hy _]. by apply list_elem_of_In.
Qed.

Lemma item_of_peer_set_is_choked choke_all o ps c b :
  item_of_peer choke_all o ps c -> item_of_peer choke_all o ps (set_is_choked b c).
Proof. done. Qed.

(** The outcome of [rechokeUploads], piece by piece. *)
Lemma rechoke_shape session salter rnd s :
  NoDup (map msgs (peers s)) ->
  let choke_all := negb (client_can_upload (tor s)) in
  let o1 := if Nat.ltb 0 (optimistic_unchoke_time_scaler s) then optimistic s else None in
  let s' := rechokeUploads session salter rnd s in
  exists reciprocated final : list ChokeData,
    peers s' = map (fun p => apply_choke_one final (choke_first choke_all p)) (peers s)
    /\ Forall (item_of_peer choke_all o1 (peers s)) final
    /\ NoDup (map cd_msgs final)
    /\ (forall p, p ∈ peers s -> gets_choke_data choke_all o1 p = true ->
          msgs p ∈ map cd_msgs final)
    /\ length (List.filter item_unchoked_interested reciprocated)
       <= uploadSlotsPerTorrent session
    /\ ((final = reciprocated /\ optimistic s' = o1)
        \/ (o1 = None
            /\ exists i c, reciprocated !! i = Some c
                 /\ final = alter (set_is_choked false) i reciprocated
                 /\ optimistic s' = Some (cd_msgs c)
                 /\ optimistic_unchoke_time_scaler s' = OptimisticUnchokeMultiplier)).
Proof.
  intros Hnd choke_all o1 s'. subst s'. unfold rechokeUploads.
  fold choke_all. fold o1.
  set (collected := collect_choke_data (tor s) choke_all o1 salter 0 (peers s)).
  set (choked := sort_by ChokeData_lt collected.2).
  set (rec := unchoke_best (uploadSlotsPerTorrent session) (upload_is_maxed_out (tor s)) 0 choked).
  destruct (collect_items (tor s) choke_all o1 salter 0 (peers s)) as [Hids Hitems].
  fold collected in Hids, Hitems.
  pose proof (SortFacts.sort_by_perm ChokeData_lt collected.2) as Hperm. fold choked in Hperm.
  assert (Hchoked : Forall (fun c => cd_is_choked c = true
                                     /\ item_of_peer choke_all o1 (peers s) c) choked).
  { by rewrite Hperm. }
  assert (Hbound : length (List.filter item_unchoked_interested rec.1)
                   <= uploadSlotsPerTorrent session).
  { pose proof (unchoke_best_bound (uploadSlotsPerTorrent session)
                  (upload_is_maxed_out (tor s)) 0 choked) as Hb.
    fold rec in Hb. rewrite Nat.add_0_r in Hb. apply Hb; [|lia].
    eapply Forall_impl; [exact Hchoked|]. by intros c [Hc _]. }
  assert (Hrec_items : Forall (item_of_peer choke_all o1 (peers s)) rec.1).
  { apply unchoke_best_Forall; [apply item_of_peer_set_is_choked|].
    eapply Forall_impl; [exact Hchoked|]. by intros c [_ Hc]. }
  assert (Hrec_ids : map cd_msgs rec.1 ≡ₚ map msgs (List.filter (gets_choke_data choke_all o1) (peers s))).
  { destruct (unchoke_best_keeps (uploadSlotsPerTorrent session)
                (upload_is_maxed_out (tor s)) 0 choked) as [Hk _].
    fold rec in Hk. rewrite Hk, <- Hids. by apply Permutation_map. }
  assert (Hrec_nodup : NoDup (map cd_msgs rec.1)).
  { rewrite Hrec_ids. by apply NoDup_map_filter. }
  assert (Hrec_all : forall p, p ∈ peers s -> gets_choke_data choke_all o1 p = true ->
                       msgs p ∈ map cd_msgs rec.1).
  { intros p Hp Hg. rewrite Hrec_ids. apply list_elem_of_fmap. exists p. split; [done|].
    apply list_elem_of_In, filter_In. split; [by apply list_elem_of_In | done]. }
  assert (Hps1 : collected.1 = map (choke_first choke_all) (peers s))
    by apply collect_peers.
  rewrite Hps1.
  set (chosen := match o1 with
                 | Some _ => None
                 | None => if negb (upload_is_maxed_out (tor s)) && Nat.ltb rec.2 (length rec.1)
                           then choose_optimistic rnd rec.2 rec.1 else None
                 end).
  assert (Hchosen : chosen = None
                    \/ (o1 = None /\ exists r, chosen = Some r
                                         /\ choose_optimistic rnd rec.2 rec.1 = Some r)).
  { subst chosen. destruct o1; [by left|].
    destruct (negb _ && _); [|by left].
    destruct (choose_optimistic rnd rec.2 rec.1) as [r|]; [|by left].
    right. split; [done|]. by exists r. }
  exists rec.1.
  destruct Hchosen as [Hnone | (Ho1 & [final o] & Hsome & Hspec)].
  - exists rec.1. rewrite Hnone. simpl. rewrite apply_choke_map, map_map.
    repeat split; try done. by left.
  - destruct (choose_optimistic_spec _ _ _ _ _ Hspec) as (i & c & Hi & -> & ->).
    exists (alter (set_is_choked false) i rec.1). rewrite Hsome. simpl.
    rewrite apply_choke_map, map_map.
    assert (Hsame : map cd_msgs (alter (set_is_choked false) i rec.1) = map cd_msgs rec.1).
    { by apply map_alter_same. }
    split; [done|]. split.
    { apply Forall_forall. intros x Hx.
      assert (Hall := proj1 (Forall_forall _ _) Hrec_items).
      apply elem_of_alter_inv in Hx as [Hx|(d & Hd & ->)]; [by apply Hall|].
      apply item_of_peer_set_is_choked, Hall. by eapply list_elem_of_lookup_2. }
    split; [by rewrite Hsame|]. split; [by rewrite Hsame|]. split; [done|].
    right. split; [done|]. by exists i, c.
Qed.

Lemma choke_first_keeps choke_all p :
  msgs (choke_first choke_all p) = msgs p
  /\ isSeed (choke_first choke_all p) = isSeed p
  /\ peer_is_interested (choke_first choke_all p) = peer_is_interested p.
Proof. unfold choke_first. by destruct (isSeed p || choke_all). Qed.

Lemma filter_split_length {A} (P Q : A -> bool) (l : list A) :
  length (List.filter P l)
  <= length (List.filter P (List.filter Q l)) + length (List.filter (fun x => negb (Q x)) l).
Proof.
  induction l as [|x l IH]; simpl; [done|].
  destruct (Q x), (P x) eqn:E; simpl; rewrite ?E; simpl; lia.
Qed.

Lemma at_most_one_with_id (m : nat) (l : list tr_peerMsgs) :
  NoDup (map msgs l) -> length (List.filter (fun p => Nat.eqb (msgs p) m) l) <= 1.
Proof.
  induction l as [|x l IH]; simpl; intros Hnd; [lia|].
  apply NoDup_cons in Hnd as [Hx Hnd].
  destruct (Nat.eqb_spec (msgs x) m) as [E|E]; simpl; [|by apply IH].
  assert (Hnone : List.filter (fun p => Nat.eqb (msgs p) m) l = []).
  { clear IH Hnd. induction l as [|y l IH]; simpl; [done|].
    destruct (Nat.eqb_spec (msgs y) m) as [E'|E'].
    - exfalso. apply Hx. simpl. apply elem_of_cons. left. congruence.
    - apply IH. intros Hin. apply Hx. simpl. apply elem_of_cons. by right. }
  rewrite Hnone. simpl. lia.
Qed.

Lemma count_le_of_ids (l : list tr_peerMsgs) (w : list nat) :
  NoDup (map msgs l) -> (forall p, p ∈ l -> msgs p ∈ w) -> length l <= length w.
Proof.
  intros Hnd Hin. rewrite <- (length_map msgs l).
  apply submseteq_length, NoDup_submseteq; [done|].
  intros x Hx. apply list_elem_of_fmap in Hx as (p & -> & Hp). by apply Hin.
Qed.

End RechokeFacts.

(** C1 (as stated) fails twice.  With two upload slots and three
    interested leechers, one pulse leaves three peers unchoked and
    interested: the two best by rate and the optimistic peer.  And when the
    torrent cannot upload, the optimistic peer, not a seed and with a
    scaler still above zero after the pulse, is choked with everyone else. *)
Lemma C1_rechoke_exceeds_slots_and_chokes_optimistic :
  (uploadSlotsPerTorrent sample_session = 2
   /\ unchoked_interested_count
        (peers (rechokeUploads sample_session N.of_nat 5 sample_rechoke_swarm)) = 3)
  /\ (optimistic (rechokeUploads sample_session N.of_nat 5 sample_no_upload_swarm) = Some 3
      /\ optimistic_unchoke_time_scaler
           (rechokeUploads sample_session N.of_nat 5 sample_no_upload_swarm) = 1
      /\ map (fun p => (msgs p, isSeed p, peer_is_choked p))
             (peers (rechokeUploads sample_session N.of_nat 5 sample_no_upload_swarm))
         = [(1, false, true); (2, false, true); (3, false, true)]).
Proof. repeat split; vm_compute; reflexivity. Qed.

(** C1 (amended): after every rechoke pulse on a swarm whose connected
    peers are distinct objects, at most [uploadSlotsPerTorrent] peers other
    than the optimistic peer are unchoked and interested at once, hence at
    most [uploadSlotsPerTorrent + 1] in all; every peer that is a seed is
    choked; and while the optimistic peer's scaler is greater than zero,
    that peer is unchoked unless it is itself a seed or the torrent cannot
    upload, provided that a peer which already was the optimistic peer
    before the pulse was unchoked then (the pulse leaves the choke state of
    a standing optimistic peer as it finds it). *)
Theorem C1_rechoke_invariants
    (session : tr_session) (salter : nat -> N) (rnd : nat) (s : tr_swarm) :
  NoDup (map msgs (peers s)) ->
  let s' := rechokeUploads session salter rnd s in
  unchoked_interested_count
    (List.filter (fun p => negb (is_optimistic_peer s' p)) (peers s'))
    <= uploadSlotsPerTorrent session
  /\ unchoked_interested_count (peers s') <= uploadSlotsPerTorrent session + 1
  /\ (forall p', p' ∈ peers s' -> isSeed p' = true -> peer_is_choked p' = true)
  /\ (forall p', p' ∈ peers s' ->
        optimistic s' = Some (msgs p') ->
        0 < optimistic_unchoke_time_scaler s' ->
        isSeed p' = false ->
        client_can_upload (tor s) = true ->
        (forall p, p ∈ peers s -> msgs p = msgs p' ->
           0 < optimistic_unchoke_time_scaler s -> optimistic s = Some (msgs p) ->
           peer_is_choked p = false) ->
        peer_is_choked p' = false).
Proof.
  intros Hnd s'.
  pose proof (RechokeFacts.rechoke_shape session salter rnd s Hnd) as Hshape.
  cbv zeta in Hshape. fold s' in Hshape. clearbody s'.
  destruct Hshape as (rec & final & Hpeers & Hitems & Hfinal_nd & Hall & Hbound & Hcase).
  set (choke_all := negb (client_can_upload (tor s))) in *.
  set (o1 := if Nat.ltb 0 (optimistic_unchoke_time_scaler s) then optimistic s else None) in *.
  assert (Hitem : forall c, c ∈ final -> item_of_peer choke_all o1 (peers s) c).
  { by apply Forall_forall. }
  assert (Hfrom : forall p', p' ∈ peers s' ->
            exists p, p ∈ peers s /\ p' = apply_choke_one final (choke_first choke_all p)).
  { intros p' Hp'. rewrite Hpeers in Hp'. apply list_elem_of_fmap in Hp' as (p & -> & Hp).
    by exists p. }
  assert (Hids : map msgs (peers s') = map msgs (peers s)).
  { rewrite Hpeers, map_map. apply map_ext. intros p.
    destruct (RechokeFacts.apply_choke_one_spec final (choke_first choke_all p)) as (-> & _).
    by destruct (RechokeFacts.choke_first_keeps choke_all p) as (-> & _). }
  assert (Hnd' : NoDup (map msgs (peers s'))) by by rewrite Hids.
  (* an entry of [choked] with the identity of [p] stems from [p] itself *)
  assert (Hown : forall p c, p ∈ peers s -> c ∈ final -> cd_msgs c = msgs p ->
            gets_choke_data choke_all o1 p = true
            /\ cd_is_interested c = peer_is_interested p).
  { intros p c Hp Hc Hcm. destruct (Hitem c Hc) as (q & Hq & Hg & Hqm & Hqi).
    assert (q = p) as -> by (apply (RechokeFacts.NoDup_map_eq msgs (peers s)); congruence).
    by split. }
  (* every peer after the pulse, traced back to the peer before it *)
  assert (Hana : forall p', p' ∈ peers s' ->
            exists p, p ∈ peers s /\ msgs p' = msgs p /\ isSeed p' = isSeed p
              /\ peer_is_interested p' = peer_is_interested p
              /\ ((exists c, c ∈ final /\ cd_msgs c = msgs p
                             /\ peer_is_choked p' = cd_is_choked c
                             /\ gets_choke_data choke_all o1 p = true
                             /\ cd_is_interested c = peer_is_interested p)
                  \/ (gets_choke_data choke_all o1 p = false
                      /\ p' = choke_first choke_all p))).
  { intros p' Hp'. destruct (Hfrom p' Hp') as (p & Hp & ->). exists p.
    destruct (RechokeFacts.choke_first_keeps choke_all p) as (Hm & Hs & Hi).
    destruct (RechokeFacts.apply_choke_one_spec final (choke_first choke_all p))
      as (Hm' & Hs' & Hi' & Hc).
    split; [done|]. split; [congruence|]. split; [congruence|]. split; [congruence|].
    destruct Hc as [(c & Hc & Hcm & Hcc)|[Hnone Heq]].
    - left. exists c. rewrite Hm in Hcm. destruct (Hown p c Hp Hc Hcm). by repeat split.
    - right. split; [|done].
      destruct (gets_choke_data choke_all o1 p) eqn:Hg; [|done]. exfalso.
      pose proof (Hall p Hp Hg) as Hin.
      apply list_elem_of_fmap in Hin as (c & Hcm & Hc).
      apply (Hnone c Hc). congruence. }
  (* the chosen entry, when the pulse picks a new optimistic peer *)
  assert (Hpicked : forall i c, rec !! i = Some c -> final = alter (set_is_choked false) i rec ->
            set_is_choked false c ∈ final).
  { intros i c Hi ->. apply (list_elem_of_lookup_2 _ i).
    by rewrite list_lookup_alter_eq, Hi. }
  (* the identities counted against the slots *)
  assert (Hslots : forall p', p' ∈ peers s' ->
            is_unchoked_interested p' = true -> is_optimistic_peer s' p' = false ->
            msgs p' ∈ map cd_msgs (List.filter item_unchoked_interested rec)).
  { intros p' Hp' Hui Hnot. unfold is_unchoked_interested in Hui.
    apply andb_true_iff in Hui as [Hunchoked Hinterested].
    apply negb_true_iff in Hunchoked.
    destruct (Hana p' Hp') as (p & Hp & Hm & Hs & Hi & [(c & Hc & Hcm & Hcc & Hg & Hci)|[Hg ->]]).
    - assert (Hcui : item_unchoked_interested c = true).
      { unfold item_unchoked_interested. rewrite <- Hcc, Hunchoked, Hci, <- Hi. done. }
      destruct Hcase as [[-> Ho]|(Ho1 & i & d & Hd & Hfinal & Ho & _)].
      + apply list_elem_of_fmap. exists c. split; [congruence|].
        apply list_elem_of_In, filter_In. split; [by apply list_elem_of_In | done].
      + rewrite Hfinal in Hc.
        apply RechokeFacts.elem_of_alter_inv in Hc as [Hc|(d' & Hd' & ->)].
        * apply list_elem_of_fmap. exists c. split; [congruence|].
          apply list_elem_of_In, filter_In. split; [by apply list_elem_of_In | done].
        * exfalso. rewrite Hd in Hd'. injection Hd' as <-.
          unfold is_optimistic_peer in Hnot. rewrite Ho in Hnot. simpl in Hcm.
          assert (E : msgs p' = cd_msgs d) by congruence.
          rewrite E, Nat.eqb_refl in Hnot. done.
    - exfalso. unfold choke_first in Hunchoked, Hm.
      unfold gets_choke_data in Hg.
      destruct (isSeed p); simpl in *; [done|].
      destruct choke_all; simpl in *; [done|].
      unfold is_not_optimistic in Hg. destruct o1 as [m|] eqn:Eo; [|done].
      apply negb_false_iff, Nat.eqb_eq in Hg.
      destruct Hcase as [[_ Ho]|(Ho1 & _)]; [|done].
      unfold is_optimistic_peer in Hnot. rewrite Ho in Hnot.
      assert (E : msgs (choke_first false p) = m).
      { destruct (RechokeFacts.choke_first_keeps false p) as (-> & _). done. }
      rewrite E, Nat.eqb_refl in Hnot. done. }
  assert (Hpart1 : unchoked_interested_count
                      (List.filter (fun p => negb (is_optimistic_peer s' p)) (peers s'))
                    <= uploadSlotsPerTorrent session).
  { unfold unchoked_interested_count.
    etrans; [|exact Hbound].
    rewrite <- (length_map cd_msgs (List.filter item_unchoked_interested rec)).
    apply RechokeFacts.count_le_of_ids.
    + by do 2 apply RechokeFacts.NoDup_map_filter.
    + intros p' Hp'. apply list_elem_of_In, filter_In in Hp' as [Hp' Hui].
      apply filter_In in Hp' as [Hp' Hnot]. apply negb_true_iff in Hnot.
      apply Hslots; [by apply list_elem_of_In | done | done]. }
  split; [exact Hpart1|]. split; [|split].
  - (* one more for the optimistic peer *)
    unfold unchoked_interested_count in *.
    etrans; [apply (RechokeFacts.filter_split_length is_unchoked_interested
                      (fun p => negb (is_optimistic_peer s' p)))|].
    apply Nat.add_le_mono; [exact Hpart1|].
    unfold is_optimistic_peer. destruct (optimistic s') as [m|].
    + erewrite filter_ext; [by apply RechokeFacts.at_most_one_with_id|].
      intros p. apply negb_involutive.
    + simpl. clear. induction (peers s'); simpl; [lia | done].
  - (* seeds *)
    intros p' Hp' Hseed.
    destruct (Hana p' Hp') as (p & Hp & Hm & Hs & Hi & [(c & Hc & Hcm & Hcc & Hg & Hci)|[Hg ->]]).
    + unfold gets_choke_data in Hg. rewrite <- Hs, Hseed in Hg. done.
    + unfold choke_first. rewrite <- Hs, Hseed. done.
  - (* the optimistic peer *)
    intros p' Hp' Hopt Hscaler Hnoseed Hupload Hbefore.
    destruct (Hana p' Hp') as (p & Hp & Hm & Hs & Hi & Hc).
    destruct Hcase as [[-> Ho]|(Ho1 & i & d & Hd & Hfinal & Ho & _)].
    + (* it was the optimistic peer before the pulse *)
      rewrite Hopt in Ho. subst o1.
      destruct (Nat.ltb 0 (optimistic_unchoke_time_scaler s)) eqn:Hpos; [|done].
      apply Nat.ltb_lt in Hpos.
      assert (Hnot : gets_choke_data choke_all (optimistic s) p = false).
      { unfold gets_choke_data, is_not_optimistic. rewrite <- Ho, Hm, Nat.eqb_refl.
        simpl. by rewrite andb_false_r. }
      destruct Hc as [(c & _ & _ & _ & Hg & _)|[_ ->]]; [congruence|].
      unfold choke_first. subst choke_all. rewrite <- Hs, Hnoseed, Hupload. simpl.
      apply Hbefore; [done | done | done | congruence].
    + (* it was picked in this pulse *)
      pose proof (Hpicked i d Hd Hfinal) as Hin.
      assert (Hdm : cd_msgs d = msgs p) by congruence.
      destruct Hc as [(c & Hc & Hcm & Hcc & _)|[Hg _]].
      * assert (c = set_is_choked false d) as ->.
        { apply (RechokeFacts.NoDup_map_eq cd_msgs final); try done. simpl. congruence. }
        by rewrite Hcc.
      * exfalso. destruct (Hown p (set_is_choked false d) Hp Hin Hdm) as [Hg' _].
        congruence.
Qed.

Lemma C1_rechoke_invariants_witness :
  unchoked_interested_count
    (List.filter
       (fun p => negb (is_optimistic_peer
                         (rechokeUploads sample_session N.of_nat 5 sample_rechoke_swarm) p))
       (peers (rechokeUploads sample_session N.of_nat 5 sample_rechoke_swarm)))
    <= uploadSlotsPerTorrent sample_session
  /\ unchoked_interested_count
       (peers (rechokeUploads sample_session N.of_nat 5 sample_rechoke_swarm))
     <= uploadSlotsPerTorrent sample_session + 1.
Proof.
  assert (Hnd : NoDup (map msgs (peers sample_rechoke_swarm))).
  { refine (bool_decide_unpack (NoDup _) _). vm_compute. exact I. }
  destruct (C1_rechoke_invariants sample_session N.of_nat 5 sample_rechoke_swarm Hnd)
    as (Hslots & Hall & _).
  split; [exact Hslots | exact Hall].
Defined.

Module DialerFacts.




Section Dial.

Variable reconnect_interval_has_passed : tr_peer_info -> Z -> bool.
Variable new_outgoing_ok : tr_address * N -> bool.


Lemma dial_fold_candidates now l mgr acc :
  outbound_candidates_ (fold_left (dial_step new_outgoing_ok now) l (mgr, acc)).1
  = outbound_candidates_ mgr.
Proof.
  revert mgr acc. induction l as [|c l IH]; intros mgr acc; simpl; [done|].
  assert (Hstep : outbound_candidates_ (dial_step new_outgoing_ok now (mgr, acc) c).1
                  = outbound_candidates_ mgr).
  { unfold dial_step. simpl. destruct (get_torrent c.1 mgr) as [s|]; [|done].
    by destruct (get_existing_peer_info c.2 s). }
  destruct (dial_step new_outgoing_ok now (mgr, acc) c) as [m a].
  by rewrite IH.
Qed.

End Dial.

End DialerFacts.




Module OrderFacts.

Lemma compare_3way_Z_cases (a b : Z) :
  (a < b /\ tr_compare_3way Z.ltb a b = -1)%Z
  \/ (a = b /\ tr_compare_3way Z.ltb a b = 0)%Z
  \/ (b < a /\ tr_compare_3way Z.ltb a b = 1)%Z.
Proof.
  unfold tr_compare_3way.
  destruct (Z.ltb_spec a b); [by left|].
  destruct (Z.ltb_spec b a); [by right; right|].
  right; left. split; [lia | done].
Qed.

Lemma compare_3way_N_cases (a b : N) :
  (a < b /\ tr_compare_3way N.ltb a b = (-1)%Z)%N
  \/ (a = b /\ tr_compare_3way N.ltb a b = 0%Z)
  \/ (b < a /\ tr_compare_3way N.ltb a b = 1%Z)%N.
Proof.
  unfold tr_compare_3way.
  destruct (N.ltb_spec a b); [by left|].
  destruct (N.ltb_spec b a); [by right; right|].
  right; left. split; [lia | done].
Qed.

(** The sort key of [ChokeData::compare], in numbers. *)
Lemma choke_lt_key a b :
  ChokeData_lt a b = true
  <-> (cd_rate b < cd_rate a)%Z
      \/ (cd_rate a = cd_rate b
          /\ ((Z.b2z (cd_was_choked a) < Z.b2z (cd_was_choked b))%Z
              \/ (Z.b2z (cd_was_choked a) = Z.b2z (cd_was_choked b)
                  /\ (cd_salt a < cd_salt b)%N))).
Proof.
  unfold ChokeData_lt, ChokeData_compare.
  destruct (compare_3way_Z_cases (cd_rate a) (cd_rate b)) as [[H ->] | [[H ->] | [H ->]]];
    simpl.
  - split; [done | intros [?|[? _]]; lia].
  - destruct (compare_3way_N_cases (cd_salt a) (cd_salt b))
      as [[Hs ->] | [[Hs ->] | [Hs ->]]];
      destruct (cd_was_choked a), (cd_was_choked b); simpl; split; try done; lia.
  - split; [intros _; by left | done].
Qed.

Lemma choke_lt_false_key a b :
  ChokeData_lt a b = false
  <-> ~ ((cd_rate b < cd_rate a)%Z
         \/ (cd_rate a = cd_rate b
             /\ ((Z.b2z (cd_was_choked a) < Z.b2z (cd_was_choked b))%Z
                 \/ (Z.b2z (cd_was_choked a) = Z.b2z (cd_was_choked b)
                     /\ (cd_salt a < cd_salt b)%N)))).
Proof. rewrite <- choke_lt_key. by destruct (ChokeData_lt a b). Qed.

Lemma choke_lt_iff a b :
  ChokeData_lt a b = true
  <-> (cd_rate b < cd_rate a)%Z
      \/ (cd_rate a = cd_rate b
          /\ ((cd_was_choked a = false /\ cd_was_choked b = true)
              \/ (cd_was_choked a = cd_was_choked b /\ (cd_salt a < cd_salt b)%N))).
Proof.
  rewrite choke_lt_key.
  destruct (cd_was_choked a), (cd_was_choked b); simpl; intuition (try congruence; try lia).
Qed.

Lemma usefulness_lt_iff a b :
  CompareAtomsByUsefulness.lt a b = true
  <-> (latest_piece_data_time b < latest_piece_data_time a)%Z
      \/ (latest_piece_data_time a = latest_piece_data_time b
          /\ ((from_best a < from_best b)%N
              \/ (from_best a = from_best b
                  /\ (connection_failure_count a < connection_failure_count b)%N))).
Proof.
  unfold CompareAtomsByUsefulness.lt, CompareAtomsByUsefulness.compare,
    compare_by_piece_data_time, compare_by_failure_count.
  destruct (compare_3way_Z_cases (latest_piece_data_time a)
              (latest_piece_data_time b)) as [[H ->] | [[H ->] | [H ->]]]; simpl.
  - split; [done | intros [?|[? _]]; lia].
  - destruct (compare_3way_N_cases (from_best a) (from_best b))
      as [[Hf ->] | [[Hf ->] | [Hf ->]]]; simpl.
    + split; [intros _; right; split; [done | by left] | done].
    + destruct (compare_3way_N_cases (connection_failure_count a)
                  (connection_failure_count b)) as [[Hc ->] | [[Hc ->] | [Hc ->]]]; simpl;
        split; try done; intuition lia.
    + split; [done | intuition lia].
  - split; [intros _; by left | done].
Qed.

Lemma usefulness_lt_false_iff a b :
  CompareAtomsByUsefulness.lt a b = false
  <-> ~ ((latest_piece_data_time b < latest_piece_data_time a)%Z
         \/ (latest_piece_data_time a = latest_piece_data_time b
             /\ ((from_best a < from_best b)%N
                 \/ (from_best a = from_best b
                     /\ (connection_failure_count a < connection_failure_count b)%N)))).
Proof. rewrite <- usefulness_lt_iff. by destruct (CompareAtomsByUsefulness.lt a b). Qed.


Lemma usefulness_negtrans a b c :
  CompareAtomsByUsefulness.lt a b = false -> CompareAtomsByUsefulness.lt b c = false ->
  CompareAtomsByUsefulness.lt a c = false.
Proof. rewrite !usefulness_lt_false_iff. lia. Qed.

End OrderFacts.

(** X1: [ChokeData::operator<] orders the entries lexicographically by
    higher rate, then previously unchoked before previously choked, then
    lower salt; it is a strict weak ordering, as [std::sort] requires. *)
Theorem ChokeData_lt_is_strict_weak_order :
  (forall a b, ChokeData_lt a b = true
     <-> (cd_rate b < cd_rate a)%Z
         \/ (cd_rate a = cd_rate b
             /\ ((cd_was_choked a = false /\ cd_was_choked b = true)
                 \/ (cd_was_choked a = cd_was_choked b /\ (cd_salt a < cd_salt b)%N))))
  /\ (forall a, ChokeData_lt a a = false)
  /\ (forall a b c, ChokeData_lt a b = true -> ChokeData_lt b c = true -> ChokeData_lt a c = true)
  /\ (forall a b c, ChokeData_lt a b = false -> ChokeData_lt b c = false ->
        ChokeData_lt a c = false).
Proof.
  split; [exact OrderFacts.choke_lt_iff|]. split; [|split].
  - intros a. apply OrderFacts.choke_lt_false_key. lia.
  - intros a b c. rewrite !OrderFacts.choke_lt_key. lia.
  - intros a b c. rewrite !OrderFacts.choke_lt_false_key. lia.
Qed.

(** X2: [CompareAtomsByUsefulness] puts a record first exactly when it
    has the later piece-data time, or the same time and the more trusted
    (lower) best source, or the same of both and fewer connection
    failures; it is a strict weak ordering. *)
Theorem CompareAtomsByUsefulness_is_strict_weak_order :
  (forall a b, CompareAtomsByUsefulness.lt a b = true
     <-> (latest_piece_data_time b < latest_piece_data_time a)%Z
         \/ (latest_piece_data_time a = latest_piece_data_time b
             /\ ((from_best a < from_best b)%N
                 \/ (from_best a = from_best b
                     /\ (connection_failure_count a < connection_failure_count b)%N))))
  /\ (forall a, CompareAtomsByUsefulness.lt a a = false)
  /\ (forall a b c, CompareAtomsByUsefulness.lt a b = true ->
        CompareAtomsByUsefulness.lt b c = true -> CompareAtomsByUsefulness.lt a c = true)
  /\ (forall a b c, CompareAtomsByUsefulness.lt a b = false ->
        CompareAtomsByUsefulness.lt b c = false -> CompareAtomsByUsefulness.lt a c = false).
Proof.
  split; [exact OrderFacts.usefulness_lt_iff|]. split; [|split].
  - intros a. apply OrderFacts.usefulness_lt_false_iff. lia.
  - intros a b c. rewrite !OrderFacts.usefulness_lt_iff. lia.
  - exact OrderFacts.usefulness_negtrans.
Qed.

Module ScoreFacts.

Lemma land_shiftl_small (v w addme : N) :
  (addme < 2 ^ w)%N -> N.land (N.shiftl v w) addme = 0%N.
Proof.
  intros H. apply N.bits_inj. intros n. rewrite N.land_spec, N.bits_0.
  destruct (N.ltb_spec n w) as [Hn|Hn].
  - by rewrite N.shiftl_spec_low.
  - rewrite andb_false_iff. right.
    destruct (N.eq_dec addme 0%N) as [->|Hne]; [apply N.bits_0|].
    apply N.bits_above_log2. apply N.log2_lt_pow2; [lia|].
    eapply N.lt_le_trans; [exact H|]. apply N.pow_le_mono_r; lia.
Qed.

Lemma addValToKey_small (k value width addme : N) :
  (value < 2 ^ k)%N -> (addme < 2 ^ width)%N -> (k + width <= 64)%N ->
  addValToKey value width addme = (value * 2 ^ width + addme)%N
  /\ (addValToKey value width addme < 2 ^ (k + width))%N.
Proof.
  intros Hv Ha Hk.
  assert (Hlt : (value * 2 ^ width + addme < 2 ^ (k + width))%N).
  { rewrite N.pow_add_r. nia. }
  assert (Hfit : (value * 2 ^ width < 2 ^ 64)%N).
  { eapply N.le_lt_trans; [apply (N.le_add_r _ addme)|].
    eapply N.lt_le_trans; [exact Hlt|]. apply N.pow_le_mono_r; lia. }
  unfold addValToKey, wrap64.
  rewrite N.shiftl_mul_pow2, N.mod_small by done.
  rewrite <- N.shiftl_mul_pow2.
  rewrite <- N.lxor_lor by (by apply land_shiftl_small).
  rewrite <- N.add_nocarry_lxor by (by apply land_shiftl_small).
  rewrite N.shiftl_mul_pow2. done.
Qed.

Lemma score_closed_form t info salt :
  score_in_range info salt ->
  getPeerCandidateScore t info salt = pack_fields (score_fields t info salt) score_widths 0.
Proof.
  intros (Ht & Hf & Hs).
  unfold getPeerCandidateScore, score_fields, score_widths, pack_fields.
  assert (Htime : time_to_uint64 (connection_attempt_time info)
                  = Z.to_N (connection_attempt_time info)).
  { unfold time_to_uint64. rewrite Z.mod_small; [done | lia]. }
  rewrite Htime.
  assert (Htn : (Z.to_N (connection_attempt_time info) < 2 ^ 32)%N) by lia.
  set (f := (if N.eqb (connection_failure_count info) 0 then 0 else 1)%N).
  assert (Hfe : (if negb (N.eqb (connection_failure_count info) 0) then 1 else 0)%N = f).
  { unfold f. by destruct (N.eqb _ _). }
  rewrite Hfe.
  set (conn := match is_connectable info with Some true => 0%N | _ => 1%N end).
  assert (Hce : (if match is_connectable info with Some b => b | None => false end
                 then 0 else 1)%N = conn).
  { unfold conn. by destruct (is_connectable info) as [[|]|]. }
  rewrite Hce.
  destruct (addValToKey_small 0 0 1 f) as [E1 B1]; [lia | unfold f; by destruct (N.eqb _ _) | lia |].
  rewrite E1.
  destruct (addValToKey_small 1 (0 * 2 ^ 1 + f) 32 (Z.to_N (connection_attempt_time info)))
    as [E2 B2]; [by rewrite <- E1 | done | lia |].
  rewrite E2.
  set (v2 := ((0 * 2 ^ 1 + f) * 2 ^ 32 + Z.to_N (connection_attempt_time info))%N) in *.
  set (prio := match get_priority t with
               | TR_PRI_HIGH => 0 | TR_PRI_NORMAL => 1 | TR_PRI_LOW => 2 end%N).
  destruct (addValToKey_small (1 + 32) v2 4 prio) as [E3 B3];
    [by rewrite <- E2 | unfold prio; by destruct (get_priority t) | lia |].
  rewrite E3. set (v3 := (v2 * 2 ^ 4 + prio)%N) in *.
  destruct (addValToKey_small (1 + 32 + 4) v3 1 (if recently_started t then 0 else 1))
    as [E4 B4]; [by rewrite <- E3 | by destruct (recently_started t) | lia |].
  rewrite E4. set (v4 := (v3 * 2 ^ 1 + _)%N) in *.
  destruct (addValToKey_small (1 + 32 + 4 + 1) v4 1 (if is_done t then 1 else 0))
    as [E5 B5]; [by rewrite <- E4 | by destruct (is_done t) | lia |].
  rewrite E5. set (v5 := (v4 * 2 ^ 1 + _)%N) in *.
  destruct (addValToKey_small (1 + 32 + 4 + 1 + 1) v5 1 conn)
    as [E6 B6]; [by rewrite <- E5 | unfold conn; by destruct (is_connectable info) as [[|]|] | lia |].
  rewrite E6. set (v6 := (v5 * 2 ^ 1 + _)%N) in *.
  destruct (addValToKey_small (1 + 32 + 4 + 1 + 1 + 1) v6 1 (if is_seed info then 0 else 1))
    as [E7 B7]; [by rewrite <- E6 | by destruct (is_seed info) | lia |].
  rewrite E7. set (v7 := (v6 * 2 ^ 1 + _)%N) in *.
  destruct (addValToKey_small (1 + 32 + 4 + 1 + 1 + 1 + 1) v7 4 (from_best info))
    as [E8 B8]; [by rewrite <- E7 | done | lia |].
  rewrite E8. set (v8 := (v7 * 2 ^ 4 + _)%N) in *.
  destruct (addValToKey_small (1 + 32 + 4 + 1 + 1 + 1 + 1 + 4) v8 8 salt)
    as [E9 B9]; [by rewrite <- E8 | done | lia |].
  rewrite E9. done.
Qed.

End ScoreFacts.

(** X3: when the attempt time fits 32 bits, the source 4 bits and the
    salt 8 bits, the shifts of [getPeerCandidateScore] lose nothing: the
    score is the 53-bit number with the failure flag at bit 52, the attempt
    time at bits 20..51, the torrent priority at bits 16..19, the flags for
    "not recently started", "done", "not known connectable" and "not a
    seed" at bits 15, 14, 13 and 12, the source at bits 8..11 and the salt
    at bits 0..7. *)
Theorem getPeerCandidateScore_bit_layout
    (t : tr_torrent) (info : tr_peer_info) (salt : N) :
  score_in_range info salt ->
  getPeerCandidateScore t info salt
  = ((if N.eqb (connection_failure_count info) 0 then 0 else 1) * 2 ^ 52
     + Z.to_N (connection_attempt_time info) * 2 ^ 20
     + match get_priority t with TR_PRI_HIGH => 0 | TR_PRI_NORMAL => 1 | TR_PRI_LOW => 2 end
       * 2 ^ 16
     + (if recently_started t then 0 else 1) * 2 ^ 15
     + (if is_done t then 1 else 0) * 2 ^ 14
     + match is_connectable info with Some true => 0 | _ => 1 end * 2 ^ 13
     + (if is_seed info then 0 else 1) * 2 ^ 12
     + from_best info * 2 ^ 8
     + salt)%N
  /\ (getPeerCandidateScore t info salt < 2 ^ 53)%N.
Proof.
  intros Hr. rewrite (ScoreFacts.score_closed_form t info salt Hr).
  destruct Hr as (Ht & Hf & Hs).
  unfold score_fields, score_widths, pack_fields.
  assert (Htn : (Z.to_N (connection_attempt_time info) < 2 ^ 32)%N) by lia.
  destruct (N.eqb (connection_failure_count info) 0), (get_priority t), (recently_started t),
    (is_done t), (is_connectable info) as [[|]|], (is_seed info); lia.
Qed.

Lemma sample_score_in_range : score_in_range sample_info_C 7.
Proof. repeat split; vm_compute; (reflexivity || discriminate). Defined.

Lemma getPeerCandidateScore_bit_layout_witness :
  score_in_range sample_info_C 7
  /\ (getPeerCandidateScore sample_torrent sample_info_C 7 < 2 ^ 53)%N.
Proof.
  split; [exact sample_score_in_range|].
  exact (proj2 (getPeerCandidateScore_bit_layout sample_torrent sample_info_C 7
                  sample_score_in_range)).
Defined.

(** X4: smaller is better, field by field.  For two candidates whose
    attempt time, source and salt are in range, one scores lower than the
    other exactly when its fields come first in lexicographic order: never
    failed before failed, then the earlier last attempt, then the higher
    torrent priority, then a recently started torrent, then a torrent still
    downloading, then a peer known to be connectable, then a seed, then the
    more trusted source, then the lower salt. *)
Theorem getPeerCandidateScore_is_lexicographic
    (ta tb : tr_torrent) (a b : tr_peer_info) (salt_a salt_b : N) :
  score_in_range a salt_a -> score_in_range b salt_b ->
  (getPeerCandidateScore ta a salt_a < getPeerCandidateScore tb b salt_b)%N
  <-> lex_lt (score_fields ta a salt_a) (score_fields tb b salt_b).
Proof.
  intros Ha Hb.
  rewrite (ScoreFacts.score_closed_form ta a salt_a Ha),
    (ScoreFacts.score_closed_form tb b salt_b Hb).
  destruct Ha as (Hta & Hfa & Hsa), Hb as (Htb & Hfb & Hsb).
  unfold score_fields, score_widths, pack_fields, lex_lt.
  assert (Htna : (Z.to_N (connection_attempt_time a) < 2 ^ 32)%N) by lia.
  assert (Htnb : (Z.to_N (connection_attempt_time b) < 2 ^ 32)%N) by lia.
  set (xa := Z.to_N (connection_attempt_time a)) in *.
  set (xb := Z.to_N (connection_attempt_time b)) in *.
  clearbody xa xb.
  assert (Hb1 : forall c : bool, ((if c then 0 else 1) < 2)%N) by (intros []; lia).
  assert (Hb2 : forall c : bool, ((if c then 1 else 0) < 2)%N) by (intros []; lia).
  assert (Hb3 : forall p, (match p with
                           | TR_PRI_HIGH => 0 | TR_PRI_NORMAL => 1 | TR_PRI_LOW => 2
                           end < 16)%N) by (intros []; lia).
  assert (Hb4 : forall c : option bool,
            (match c with Some true => 0 | _ => 1 end < 2)%N) by (intros [[|]|]; lia).
  pose proof (Hb1 (N.eqb (connection_failure_count a) 0)).
  pose proof (Hb1 (N.eqb (connection_failure_count b) 0)).
  pose proof (Hb3 (get_priority ta)). pose proof (Hb3 (get_priority tb)).
  pose proof (Hb1 (recently_started ta)). pose proof (Hb1 (recently_started tb)).
  pose proof (Hb2 (is_done ta)). pose proof (Hb2 (is_done tb)).
  pose proof (Hb4 (is_connectable a)). pose proof (Hb4 (is_connectable b)).
  pose proof (Hb1 (is_seed a)). pose proof (Hb1 (is_seed b)).
  clear Hb1 Hb2 Hb3 Hb4.
  set (fa := (if N.eqb (connection_failure_count a) 0 then 0 else 1)%N) in *.
  set (fb := (if N.eqb (connection_failure_count b) 0 then 0 else 1)%N) in *.
  set (pa := match get_priority ta with TR_PRI_HIGH => 0 | TR_PRI_NORMAL => 1 | TR_PRI_LOW => 2 end%N) in *.
  set (pb := match get_priority tb with TR_PRI_HIGH => 0 | TR_PRI_NORMAL => 1 | TR_PRI_LOW => 2 end%N) in *.
  set (ra := (if recently_started ta then 0 else 1)%N) in *.
  set (rb := (if recently_started tb then 0 else 1)%N) in *.
  set (da := (if is_done ta then 1 else 0)%N) in *.
  set (db := (if is_done tb then 1 else 0)%N) in *.
  set (ca := match is_connectable a with Some true => 0 | _ => 1 end%N) in *.
  set (cb := match is_connectable b with Some true => 0 | _ => 1 end%N) in *.
  set (sa := (if is_seed a then 0 else 1)%N) in *.
  set (sb := (if is_seed b then 0 else 1)%N) in *.
  clearbody fa fb pa pb ra rb da db ca cb sa sb.
  lia.
Qed.

Lemma getPeerCandidateScore_is_lexicographic_witness :
  (getPeerCandidateScore sample_high_torrent sample_info_C 7
   < getPeerCandidateScore sample_low_torrent sample_info_C 7)%N
  <-> lex_lt (score_fields sample_high_torrent sample_info_C 7)
             (score_fields sample_low_torrent sample_info_C 7).
Proof.
  exact (getPeerCandidateScore_is_lexicographic sample_high_torrent sample_low_torrent
           sample_info_C sample_info_C 7 7 sample_score_in_range sample_score_in_range).
Defined.

Module RequestFacts.

Lemma fold_remove_lookup (keys : list (N * nat)) (ar : gmap (N * nat) Z) (k : N * nat) :
  fold_left (fun ar bp => ActiveRequests.remove (fst bp) (snd bp) ar) keys ar !! k
  = if bool_decide (k ∈ keys) then None else ar !! k.
Proof.
  revert ar. induction keys as [|[b p] keys IH]; intros ar; simpl; [done|].
  rewrite IH. unfold ActiveRequests.remove. simpl.
  destruct (decide (k = (b, p))) as [->|Hne].
  - rewrite lookup_delete_eq. rewrite (bool_decide_eq_true_2 ((b, p) ∈ (b, p) :: keys));
      [by case_bool_decide | by left].
  - rewrite (lookup_delete_ne _ _ _ (not_eq_sym Hne)).
    case_bool_decide as H1; case_bool_decide as H2; try done.
    + exfalso. apply H2. by right.
    + exfalso. apply elem_of_cons in H2 as [?|?]; done.
Qed.

Lemma fold_add_lookup (peer : nat) (now : Z) (b0 : N) (n : nat) (ar : gmap (N * nat) Z)
    (k : N * nat) :
  is_Some (fold_left (fun ar i => ActiveRequests.add (b0 + N.of_nat i)%N peer now ar)
             (seq 0 n) ar !! k)
  <-> is_Some (ar !! k) \/ (snd k = peer /\ (b0 <= fst k < b0 + N.of_nat n)%N).
Proof.
  revert ar. induction n as [|n IH] using nat_ind; intros ar.
  - simpl. split; [by left | intros [?|[_ ?]]; [done | lia]].
  - rewrite seq_S, fold_left_app. simpl.
    set (ar' := fold_left _ (seq 0 n) ar).
    specialize (IH ar). fold ar' in IH.
    unfold ActiveRequests.add.
    destruct (ar' !! ((b0 + N.of_nat n)%N, peer)) as [t|] eqn:E.
    + rewrite IH. split.
      * intros [?|[? ?]]; [by left | right; split; [done | lia]].
      * intros [?|[Hp Hr]]; [by left|].
        destruct (decide (fst k = (b0 + N.of_nat n)%N)) as [Hk|Hk].
        -- apply IH. destruct k as [kb kp]. simpl in *. subst. by rewrite E.
        -- right. split; [done | lia].
    + destruct (decide (k = ((b0 + N.of_nat n)%N, peer))) as [->|Hne].
      * rewrite lookup_insert_eq. split; [|done]. intros _. right. simpl. split; [done | lia].
      * rewrite (lookup_insert_ne _ _ _ _ (not_eq_sym Hne)). rewrite IH. split.
        -- intros [?|[? ?]]; [by left | right; split; [done | lia]].
        -- intros [?|[Hp Hr]]; [by left|]. right. split; [done|].
           destruct k as [kb kp]. simpl in *. subst.
           assert (kb <> (b0 + N.of_nat n)%N) by congruence. lia.
Qed.

End RequestFacts.

(** X5: [cancelOldRequests] drops exactly the requests sent more than
    [RequestTtlSecs] = 90 seconds before [now]: a request sent at
    [now - 90] or later stays, with its time; nothing else of the swarm
    changes. *)
Theorem cancelOldRequests_drops_exactly_the_old (now : Z) (s : tr_swarm) :
  (forall block peer,
     active_requests (cancelOldRequests now s) !! (block, peer)
     = match active_requests s !! (block, peer) with
       | Some sent => if Z.ltb sent (now - 90) then None else Some sent
       | None => None
       end)
  /\ with_active_requests (active_requests s) (cancelOldRequests now s) = s.
Proof.
  split; [|by destruct s].
  intros block peer. unfold cancelOldRequests. simpl.
  rewrite RequestFacts.fold_remove_lookup.
  unfold ActiveRequests.sentBefore, RequestTtlSecs.
  case_bool_decide as Hin.
  - apply list_elem_of_fmap in Hin as [[k t] [-> Hk]].
    apply elem_of_map_to_list in Hk. apply map_lookup_filter_Some in Hk as [Hk Hold].
    simpl in *. rewrite Hk. destruct (Z.ltb_spec t (now - 90)); [done | lia].
  - destruct (active_requests s !! (block, peer)) as [t|] eqn:E; [|done].
    destruct (Z.ltb_spec t (now - 90)) as [Hold|]; [|done].
    exfalso. apply Hin. apply list_elem_of_fmap. exists ((block, peer), t). split; [done|].
    apply elem_of_map_to_list. apply map_lookup_filter_Some. by split.
Qed.

(** X6: after [tr_peerMgrClientSentRequests] for the span
    [[span_begin, span_end)], [tr_peerMgrDidPeerRequest] answers true for a
    peer and a block exactly when it did before, or when the peer is the
    one the requests went to and the block is in the span (so for an
    empty span, [span_end <= span_begin], no answer changes). *)
Theorem ClientSentRequests_then_DidPeerRequest
    (peer : peer_ptr) (span_begin span_end : tr_block_index_t) (now : Z) (s : tr_swarm)
    (peer' : peer_ptr) (block : tr_block_index_t) :
  tr_peerMgrDidPeerRequest peer' block
    (tr_peerMgrClientSentRequests peer span_begin span_end now s) = true
  <-> tr_peerMgrDidPeerRequest peer' block s = true
      \/ (peer' = peer /\ (span_begin <= block < span_end)%N).
Proof.
  unfold tr_peerMgrDidPeerRequest, tr_peerMgrClientSentRequests, ActiveRequests.has. simpl.
  rewrite !bool_decide_eq_true.
  rewrite (RequestFacts.fold_add_lookup peer now span_begin
             (N.to_nat (span_end - span_begin)) (active_requests s) (block, peer')).
  simpl. split; (intros [?|[? ?]]; [by left | right; split; [done | lia]]).
Qed.

(** X7: [cancelAllRequestsForBlock] (run when a block arrives) sends a
    CANCEL to exactly the connected peers of the swarm that had the block
    requested, except the peer [no_notify] that delivered it, and to none of
    them twice; afterwards nobody has the block requested, and the requests
    for every other block are as before. *)
Theorem cancelAllRequestsForBlock_notifies_the_others
    (block : tr_block_index_t) (no_notify : option peer_ptr) (s : tr_swarm) :
  let r := cancelAllRequestsForBlock block no_notify s in
  (forall q, q ∈ snd r
     <-> tr_peerMgrDidPeerRequest q block s = true
         /\ q ∈ map msgs (peers s) /\ no_notify <> Some q)
  /\ NoDup (snd r)
  /\ (forall q b, tr_peerMgrDidPeerRequest q b (fst r)
                  = tr_peerMgrDidPeerRequest q b s && negb (N.eqb b block)).
Proof.
  unfold cancelAllRequestsForBlock, tr_peerMgrDidPeerRequest, ActiveRequests.has,
    ActiveRequests.remove_block, maybeSendCancelRequest. simpl.
  set (ar := active_requests s).
  set (hits := map_to_list (filter (fun kv : N * nat * Z => fst (fst kv) = block) ar)).
  assert (Hhits : forall q, q ∈ map (fun kv : N * nat * Z => snd (fst kv)) hits
                            <-> is_Some (ar !! (block, q))).
  { intros q. rewrite list_elem_of_fmap. split.
    - intros [[[b p] t] [-> Hk]]. apply elem_of_map_to_list in Hk.
      apply map_lookup_filter_Some in Hk as [Hk Hb]. simpl in *. subst. by exists t.
    - intros [t Ht]. exists ((block, q), t). split; [done|].
      apply elem_of_map_to_list. apply map_lookup_filter_Some. by split. }
  split; [|split].
  - intros q. rewrite list_elem_of_In, filter_In, <- list_elem_of_In, Hhits.
    rewrite bool_decide_eq_true, andb_true_iff, negb_true_iff, bool_decide_eq_true,
      bool_decide_eq_false.
    tauto.
  - apply NoDup_ListNoDup, List.NoDup_filter, NoDup_ListNoDup.
    assert (Hnd : NoDup hits) by apply NoDup_map_to_list.
    assert (Hall : forall kv, kv ∈ hits -> ar !! fst kv = Some (snd kv) /\ fst (fst kv) = block).
    { intros [k t] Hk. apply elem_of_map_to_list in Hk.
      by apply map_lookup_filter_Some in Hk. }
    clearbody hits. revert Hall. clear Hhits.
    induction Hnd as [|kv l Hkv Hl IH]; intros Hall; simpl; [constructor|].
    constructor.
    + intros Hin. apply list_elem_of_fmap in Hin as [kv' [Heq Hkv']].
      apply Hkv. destruct (Hall kv (list_elem_of_here _ _)) as [H1 H2].
      destruct (Hall kv' (list_elem_of_further _ _ _ Hkv')) as [H1' H2'].
      destruct kv as [[b p] t], kv' as [[b' p'] t']. simpl in *. subst.
      assert (t = t') by congruence. by subst.
    + apply IH. intros kv' Hkv'. apply Hall. by right.
  - intros q b. destruct (N.eqb_spec b block) as [->|Hne].
    + rewrite andb_false_r. apply bool_decide_eq_false. intros [t Ht].
      apply map_lookup_filter_Some in Ht as [_ Ht]. by simpl in Ht.
    + rewrite andb_true_r. apply bool_decide_ext. split.
      * intros [t Ht]. apply map_lookup_filter_Some in Ht as [Ht _]. by exists t.
      * intros [t Ht]. exists t. apply map_lookup_filter_Some. by split.
Qed.

Module LifecycleFacts.

Section Removal.

Variable peer_destroyed : tr_peer_info -> tr_peer_info.

Lemma incoming_erase_spec key s :
  peers (incoming_erase key s) = peers s
  /\ stats (incoming_erase key s) = stats s
  /\ active_requests (incoming_erase key s) = active_requests s
  /\ connectable_pool (incoming_erase key s) = connectable_pool s
  /\ graveyard_pool (incoming_erase key s) = graveyard_pool s
  /\ incoming_pool (incoming_erase key s) = delete key (incoming_pool s)
  /\ (forall p, incoming_pool s !! key <> Some p ->
        infos (incoming_erase key s) !! p = infos s !! p)
  /\ (outgoing_handshakes (incoming_erase key s) = outgoing_handshakes s
      /\ tor (incoming_erase key s) = tor s
      /\ is_running (incoming_erase key s) = is_running s
      /\ optimistic (incoming_erase key s) = optimistic s
      /\ optimistic_unchoke_time_scaler (incoming_erase key s)
         = optimistic_unchoke_time_scaler s
      /\ pool_is_all_seeds_ (incoming_erase key s) = pool_is_all_seeds_ s
      /\ is_endgame_ (incoming_erase key s) = is_endgame_ s).
Proof.
  unfold incoming_erase. destruct (incoming_pool s !! key) as [q|] eqn:E; simpl.
  - repeat split; try done. intros p Hp. apply lookup_delete_ne. congruence.
  - repeat split; try done. symmetry. by apply delete_id.
Qed.

Lemma graveyard_erase_spec key s :
  peers (graveyard_erase key s) = peers s
  /\ stats (graveyard_erase key s) = stats s
  /\ active_requests (graveyard_erase key s) = active_requests s
  /\ connectable_pool (graveyard_erase key s) = connectable_pool s
  /\ incoming_pool (graveyard_erase key s) = incoming_pool s
  /\ graveyard_pool (graveyard_erase key s) = delete key (graveyard_pool s)
  /\ (forall p, graveyard_pool s !! key <> Some p ->
        infos (graveyard_erase key s) !! p = infos s !! p)
  /\ (outgoing_handshakes (graveyard_erase key s) = outgoing_handshakes s
      /\ tor (graveyard_erase key s) = tor s
      /\ is_running (graveyard_erase key s) = is_running s
      /\ optimistic (graveyard_erase key s) = optimistic s
      /\ optimistic_unchoke_time_scaler (graveyard_erase key s)
         = optimistic_unchoke_time_scaler s
      /\ pool_is_all_seeds_ (graveyard_erase key s) = pool_is_all_seeds_ s
      /\ is_endgame_ (graveyard_erase key s) = is_endgame_ s).
Proof.
  unfold graveyard_erase. destruct (graveyard_pool s !! key) as [q|] eqn:E; simpl.
  - repeat split; try done. intros p Hp. apply lookup_delete_ne. congruence.
  - repeat split; try done. symmetry. by apply delete_id.
Qed.

Lemma remove_peer_step a ia s :
  infos s !! peer_info a = Some ia ->
  exists s1, remove_peer peer_destroyed a s = Some s1 /\ removed a ia s s1.
Proof.
  intros Hia. unfold remove_peer. rewrite Hia. simpl.
  eexists. split; [reflexivity|].
  set (s4 := with_active_requests _ _).
  set (s5 := if is_incoming_connection a then incoming_erase (socket_address a) s4 else s4).
  destruct (graveyard_erase_spec (listen_socket_address ia) s5)
    as (G1 & G2 & G3 & G4 & G5 & G6 & G7 & G8 & G9 & G10 & G11 & G12 & G13 & G14).
  assert (H5 : peers s5 = peers s4 /\ stats s5 = stats s4
               /\ active_requests s5 = active_requests s4
               /\ connectable_pool s5 = connectable_pool s4
               /\ graveyard_pool s5 = graveyard_pool s4
               /\ incoming_pool s5
                  = (if is_incoming_connection a
                     then delete (socket_address a) (incoming_pool s4) else incoming_pool s4)
               /\ (forall p, (is_incoming_connection a = true ->
                              incoming_pool s4 !! socket_address a <> Some p) ->
                     infos s5 !! p = infos s4 !! p)
               /\ (outgoing_handshakes s5 = outgoing_handshakes s4
                   /\ tor s5 = tor s4 /\ is_running s5 = is_running s4
                   /\ optimistic s5 = optimistic s4
                   /\ optimistic_unchoke_time_scaler s5 = optimistic_unchoke_time_scaler s4
                   /\ pool_is_all_seeds_ s5 = pool_is_all_seeds_ s4
                   /\ is_endgame_ s5 = is_endgame_ s4)).
  { unfold s5. destruct (is_incoming_connection a).
    - destruct (incoming_erase_spec (socket_address a) s4)
        as (I1 & I2 & I3 & I4 & I5 & I6 & I7 & I8).
      repeat split; try done; try apply I8. intros p Hp. apply I7. by apply Hp.
    - repeat split; done. }
  destruct H5 as (I1 & I2 & I3 & I4 & I5 & I6 & I7 & I8 & I9 & I10 & I11 & I12 & I13 & I14).
  split.
  - by rewrite G1, I1.
  - by rewrite G2, I2.
  - by rewrite G3, I3.
  - by rewrite G4, I4.
  - by rewrite G5, I6.
  - by rewrite G6, I5.
  - intros p Hp Hg Hi. rewrite G7 by (by rewrite I5). rewrite I7 by done.
    unfold s4. simpl. apply lookup_alter_ne. congruence.
  - rewrite G8, G9, G10, G11, G12, G13, G14, I8, I9, I10, I11, I12, I13, I14. done.
Qed.


Lemma remove_peers_cons a victims s :
  remove_peers peer_destroyed (a :: victims) s
  = remove_peer peer_destroyed a s ≫= remove_peers peer_destroyed victims.
Proof.
  unfold remove_peers. simpl.
  destruct (remove_peer peer_destroyed a s) as [s1|]; simpl; [done|].
  induction victims as [|v victims IH]; simpl; done.
Qed.

Lemma remove_peers_spec victims s :
  NoDup (map msgs victims) ->
  records_alive victims s ->
  removal_spares_the_others victims s ->
  exists s', remove_peers peer_destroyed victims s = Some s' /\ removed_all victims s s'.
Proof.
  revert s. induction victims as [|a victims IH]; intros s Hnd Halive Hsafe.
  - exists s. split; [done|]. split; simpl; try done; try (by right). lia.
    intros v Hv. by apply elem_of_nil in Hv.
  - simpl in Hnd. apply NoDup_cons in Hnd as [Ha Hnd].
    destruct (Halive a (list_elem_of_here _ _)) as [ia Hia].
    destruct (remove_peer_step a ia s Hia) as (s1 & Hs1 & R).
    assert (Hother : forall b, b ∈ victims -> msgs a <> msgs b).
    { intros b Hb Heq. apply Ha. rewrite Heq. apply list_elem_of_fmap. by exists b. }
    assert (Hkeep : forall b, b ∈ victims -> infos s1 !! peer_info b = infos s !! peer_info b).
    { intros b Hb.
      destruct (Hsafe a b ia (list_elem_of_here _ _) (list_elem_of_further _ _ _ Hb)
                  (Hother b Hb) Hia) as (N1 & N2 & N3).
      apply (rm_infos _ _ _ _ R); [congruence | done | done]. }
    destruct (IH s1 Hnd) as (s' & Hs' & R').
    { intros b Hb. rewrite (Hkeep b Hb). apply Halive. by right. }
    { intros b c ib Hb Hc Hne Hib. rewrite (Hkeep b Hb) in Hib.
      destruct (Hsafe b c ib (list_elem_of_further _ _ _ Hb) (list_elem_of_further _ _ _ Hc)
                  Hne Hib) as (N1 & N2 & N3).
      split; [done|]. split.
      - rewrite (rm_graveyard _ _ _ _ R).
        destruct (decide (listen_socket_address ia = listen_socket_address ib)) as [E|E].
        + rewrite E, lookup_delete_eq. done.
        + by rewrite (lookup_delete_ne _ _ _ E).
      - intros Hinc. rewrite (rm_incoming _ _ _ _ R).
        destruct (is_incoming_connection a); [|by apply N3].
        destruct (decide (socket_address a = socket_address b)) as [E|E].
        + rewrite E, lookup_delete_eq. done.
        + rewrite (lookup_delete_ne _ _ _ E). by apply N3. }
    exists s'. split; [by rewrite remove_peers_cons, Hs1|].
    destruct (rm_frame _ _ _ _ R) as (F1 & F2 & F3 & F4 & F5 & F6 & F7).
    destruct (ra_frame _ _ _ R') as (F1' & F2' & F3' & F4' & F5' & F6' & F7').
    split; simpl.
    + by rewrite (ra_peers _ _ _ R'), (rm_peers _ _ _ _ R).
    + rewrite (ra_count _ _ _ R'), (rm_count _ _ _ _ R). lia.
    + by rewrite (ra_requests _ _ _ R'), (rm_requests _ _ _ _ R).
    + by rewrite (ra_connectable _ _ _ R'), (rm_connectable _ _ _ _ R).
    + intros k. destruct (ra_incoming _ _ _ R' k) as [H|H]; [by left|].
      rewrite H, (rm_incoming _ _ _ _ R).
      destruct (is_incoming_connection a); [|by right].
      destruct (decide (socket_address a = k)) as [<-|E].
      * left. apply lookup_delete_eq.
      * right. by apply lookup_delete_ne.
    + intros v Hv Hinc. apply elem_of_cons in Hv as [->|Hv].
      * destruct (ra_incoming _ _ _ R' (socket_address a)) as [H|H]; [done|].
        rewrite H, (rm_incoming _ _ _ _ R), Hinc. apply lookup_delete_eq.
      * by apply (ra_incoming_gone _ _ _ R').
    + intros k. destruct (ra_graveyard _ _ _ R' k) as [H|H]; [by left|].
      rewrite H, (rm_graveyard _ _ _ _ R).
      destruct (decide (listen_socket_address ia = k)) as [<-|E].
      * left. apply lookup_delete_eq.
      * right. by apply lookup_delete_ne.
    + rewrite F1', F2', F3', F4', F5', F6', F7'. done.
Qed.

End Removal.

Lemma erase_peer_filter m ps :
  NoDup (map msgs ps) ->
  erase_peer m ps = List.filter (fun p => negb (Nat.eqb (msgs p) m)) ps.
Proof.
  induction ps as [|p ps IH]; intros Hnd; simpl; [done|].
  apply NoDup_cons in Hnd as [Hp Hnd].
  destruct (Nat.eqb_spec (msgs p) m) as [E|E]; simpl.
  - symmetry. apply forallb_filter_id. apply forallb_forall. intros q Hq.
    destruct (Nat.eqb_spec (msgs q) m) as [E'|]; [|done].
    exfalso. apply Hp. rewrite E, <- E'. apply list_elem_of_fmap. exists q.
    split; [done | by apply list_elem_of_In].
  - f_equal. by apply IH.
Qed.

Lemma NoDup_msgs_filter (P : tr_peerMsgs -> bool) ps :
  NoDup (map msgs ps) -> NoDup (map msgs (List.filter P ps)).
Proof.
  induction ps as [|p ps IH]; intros Hnd; simpl; [done|].
  apply NoDup_cons in Hnd as [Hp Hnd].
  destruct (P p); simpl; [|by apply IH].
  apply NoDup_cons. split; [|by apply IH].
  intros Hin. apply Hp. apply list_elem_of_fmap in Hin as [q [-> Hq]].
  apply list_elem_of_fmap. exists q. split; [done|].
  apply list_elem_of_In in Hq. apply filter_In in Hq as [Hq _]. by apply list_elem_of_In.
Qed.

Lemma erase_fold_filter victims ps :
  NoDup (map msgs ps) ->
  fold_left (fun ps v => erase_peer (msgs v) ps) victims ps
  = List.filter (fun p => negb (bool_decide (msgs p ∈ map msgs victims))) ps.
Proof.
  revert ps. induction victims as [|v victims IH]; intros ps Hnd; simpl.
  - symmetry. apply forallb_filter_id. by apply forallb_forall.
  - rewrite erase_peer_filter by done.
    rewrite IH by (by apply NoDup_msgs_filter).
    induction ps as [|p ps IHps]; simpl; [done|].
    apply NoDup_cons in Hnd as [_ Hnd].
    destruct (Nat.eqb_spec (msgs p) (msgs v)) as [E|E]; simpl.
    + rewrite (bool_decide_eq_true_2 (msgs p ∈ msgs v :: map msgs victims)) by (rewrite E; by left).
      simpl. by apply IHps.
    + rewrite (bool_decide_ext (msgs p ∈ msgs v :: map msgs victims)
                 (msgs p ∈ map msgs victims)).
      * destruct (bool_decide _); simpl; [by apply IHps | f_equal; by apply IHps].
      * rewrite elem_of_cons. intuition congruence.
Qed.

Lemma requests_fold_filter (victims : list tr_peerMsgs) (ar : gmap (N * nat) Z) :
  fold_left (fun ar v => ActiveRequests.remove_peer (msgs v) ar) victims ar
  = filter (fun kv : N * nat * Z => snd (fst kv) ∉ map msgs victims) ar.
Proof.
  revert ar. induction victims as [|v victims IH]; intros ar; simpl.
  - symmetry. apply map_filter_id. intros k x _. apply not_elem_of_nil.
  - rewrite IH. unfold ActiveRequests.remove_peer. rewrite map_filter_filter.
    apply map_filter_ext. intros k x _. simpl. rewrite not_elem_of_cons. tauto.
Qed.

End LifecycleFacts.

(** X8: [remove_peer] on a connected peer (the connected peers being
    distinct objects, the peer's record alive, [stats.peer_count] equal to
    the number of peers) takes exactly that peer out of [peers], keeps
    [stats.peer_count] equal to the number of peers, and leaves no request
    of that peer in [active_requests] while keeping those of the others.
    The address book forgets only what it cannot dial: [connectable_pool]
    is untouched, the entry of [incoming_pool] under the socket address of
    an incoming peer is erased, and so is the entry of [graveyard_pool]
    under the record's listen address. *)
Theorem remove_peer_unregisters_the_peer
    (peer_destroyed : tr_peer_info -> tr_peer_info)
    (a : tr_peerMsgs) (ia : tr_peer_info) (s : tr_swarm) :
  a ∈ peers s ->
  NoDup (map msgs (peers s)) ->
  infos s !! peer_info a = Some ia ->
  peer_count (stats s) = peerCount s ->
  exists s',
    remove_peer peer_destroyed a s = Some s'
    /\ peers s' = List.filter (fun p => negb (Nat.eqb (msgs p) (msgs a))) (peers s)
    /\ S (peerCount s') = peerCount s
    /\ peer_count (stats s') = peerCount s'
    /\ tr_peerMgrCountActiveRequestsToPeer (msgs a) s' = 0
    /\ (forall q block, q <> msgs a ->
          tr_peerMgrDidPeerRequest q block s' = tr_peerMgrDidPeerRequest q block s)
    /\ connectable_pool s' = connectable_pool s
    /\ (is_incoming_connection a = true -> incoming_pool s' !! socket_address a = None)
    /\ graveyard_pool s' !! listen_socket_address ia = None.
Proof.
  intros Ha Hnd Hia Hcount.
  destruct (LifecycleFacts.remove_peer_step peer_destroyed a ia s Hia) as (s' & Hs' & R).
  exists s'. split; [done|].
  assert (Hpeers : peers s' = List.filter (fun p => negb (Nat.eqb (msgs p) (msgs a))) (peers s)).
  { rewrite (rm_peers _ _ _ _ R). by apply LifecycleFacts.erase_peer_filter. }
  assert (Hlen : S (peerCount s') = peerCount s).
  { unfold peerCount. rewrite Hpeers. clear -Ha Hnd.
    induction (peers s) as [|p ps IH]; [by apply elem_of_nil in Ha|].
    simpl in Hnd. apply NoDup_cons in Hnd as [Hp Hnd].
    simpl. destruct (Nat.eqb_spec (msgs p) (msgs a)) as [E|E]; simpl.
    - f_equal. f_equal. apply forallb_filter_id. apply forallb_forall. intros q Hq.
      destruct (Nat.eqb_spec (msgs q) (msgs a)) as [E'|]; [|done].
      exfalso. apply Hp. rewrite E, <- E'. apply list_elem_of_fmap. exists q.
      split; [done | by apply list_elem_of_In].
    - f_equal. apply IH; [|done]. apply elem_of_cons in Ha as [->|Ha]; done. }
  split; [done|]. split; [done|]. split.
  { rewrite (rm_count _ _ _ _ R). lia. }
  split.
  { unfold tr_peerMgrCountActiveRequestsToPeer, ActiveRequests.count_peer.
    rewrite (rm_requests _ _ _ _ R). unfold ActiveRequests.remove_peer.
    apply map_size_empty_iff. apply map_eq. intros k. rewrite lookup_empty.
    apply map_lookup_filter_None. right. intros x Hx Hp.
    apply map_lookup_filter_Some in Hx as [_ Hx]. done. }
  split.
  { intros q block Hq. unfold tr_peerMgrDidPeerRequest, ActiveRequests.has.
    rewrite (rm_requests _ _ _ _ R). unfold ActiveRequests.remove_peer.
    apply bool_decide_ext. split.
    - intros [t Ht]. apply map_lookup_filter_Some in Ht as [Ht _]. by exists t.
    - intros [t Ht]. exists t. apply map_lookup_filter_Some. by split. }
  split; [apply (rm_connectable _ _ _ _ R)|]. split.
  - intros Hinc. rewrite (rm_incoming _ _ _ _ R), Hinc. apply lookup_delete_eq.
  - rewrite (rm_graveyard _ _ _ _ R). apply lookup_delete_eq.
Qed.

Lemma remove_peer_unregisters_the_peer_witness :
  exists s',
    remove_peer (set_connected false) sample_peer_B sample_port_swarm = Some s'
    /\ peer_count (stats s') = peerCount s'
    /\ incoming_pool s' !! socket_address sample_peer_B = None.
Proof.
  assert (Hin : sample_peer_B ∈ peers sample_port_swarm).
  { apply list_elem_of_further, list_elem_of_here. }
  assert (Hnd : NoDup (map msgs (peers sample_port_swarm))).
  { refine (bool_decide_unpack (NoDup _) _). vm_compute. exact I. }
  destruct (remove_peer_unregisters_the_peer (set_connected false) sample_peer_B sample_info_B
              sample_port_swarm Hin Hnd eq_refl eq_refl)
    as (s' & Hrun & _ & _ & Hcount & _ & _ & _ & Hinc & _).
  exists s'. split; [exact Hrun|]. split; [exact Hcount|]. exact (Hinc eq_refl).
Defined.

(** X9: [stop] tears the swarm down.  When the connected peers are
    distinct objects with live records, removing one of them destroys no
    record of another, and [stats.peer_count] is the number of peers, then
    [stop] succeeds and leaves the swarm not running, without peers, with
    [stats.peer_count] zero, without outgoing handshakes and without any
    request to a former peer; [connectable_pool] is kept, so the addresses
    are there when the torrent starts again. *)
Theorem stop_tears_the_swarm_down
    (peer_destroyed : tr_peer_info -> tr_peer_info) (s : tr_swarm) :
  NoDup (map msgs (peers s)) ->
  records_alive (peers s) s ->
  removal_spares_the_others (peers s) s ->
  peer_count (stats s) = peerCount s ->
  exists s',
    stop peer_destroyed s = Some s'
    /\ is_running s' = false
    /\ peers s' = []
    /\ peer_count (stats s') = 0
    /\ outgoing_handshakes s' = ∅
    /\ (forall p, p ∈ peers s -> tr_peerMgrCountActiveRequestsToPeer (msgs p) s' = 0)
    /\ (forall q block, q ∉ map msgs (peers s) ->
          tr_peerMgrDidPeerRequest q block s' = tr_peerMgrDidPeerRequest q block s)
    /\ connectable_pool s' = connectable_pool s.
Proof.
  intros Hnd Halive Hsafe Hcount.
  destruct (LifecycleFacts.remove_peers_spec peer_destroyed (peers s)
              (with_peers [] (with_is_running false s)) Hnd)
    as (s1 & Hs1 & R); [done | done |].
  destruct (ra_frame _ _ _ R) as (F1 & F2 & F3 & F4 & F5 & F6 & F7).
  exists (with_outgoing_handshakes ∅ s1). split.
  { unfold stop, remove_all_peers. simpl.
    change (peers (with_is_running false s)) with (peers s).
    by rewrite Hs1. }
  simpl. split; [by rewrite F3|]. split.
  { rewrite (ra_peers _ _ _ R). simpl.
    clear. induction (peers s) as [|p ps IH]; simpl; done. }
  split.
  { rewrite (ra_count _ _ _ R). simpl. unfold peerCount in Hcount. lia. }
  split; [done|].
  assert (Hreq : active_requests s1
                 = filter (fun kv : N * nat * Z => snd (fst kv) ∉ map msgs (peers s))
                     (active_requests s)).
  { rewrite (ra_requests _ _ _ R). simpl.
    apply LifecycleFacts.requests_fold_filter. }
  split; [|split].
  - intros p Hp. unfold tr_peerMgrCountActiveRequestsToPeer, ActiveRequests.count_peer. simpl.
    rewrite Hreq. apply map_size_empty_iff. apply map_eq. intros k. rewrite lookup_empty.
    apply map_lookup_filter_None. right. intros x Hx Hk.
    apply map_lookup_filter_Some in Hx as [_ Hx]. apply Hx. rewrite Hk.
    apply list_elem_of_fmap. by exists p.
  - intros q block Hq. unfold tr_peerMgrDidPeerRequest, ActiveRequests.has. simpl.
    rewrite Hreq. apply bool_decide_ext. split.
    + intros [t Ht]. apply map_lookup_filter_Some in Ht as [Ht _]. by exists t.
    + intros [t Ht]. exists t. apply map_lookup_filter_Some. by split.
  - by rewrite (ra_connectable _ _ _ R).
Qed.

Lemma sample_port_swarm_removal_is_safe :
  records_alive (peers sample_port_swarm) sample_port_swarm
  /\ removal_spares_the_others (peers sample_port_swarm) sample_port_swarm.
Proof.
  split.
  - intros p Hp.
    apply elem_of_cons in Hp as [->|Hp]; [vm_compute; eauto|].
    apply elem_of_cons in Hp as [->|Hp]; [vm_compute; eauto|].
    by apply elem_of_nil in Hp.
  - intros a b ia Ha Hb Hne Hia.
    apply elem_of_cons in Ha as [->|Ha];
      [|apply elem_of_cons in Ha as [->|Ha]; [|by apply elem_of_nil in Ha]];
      (apply elem_of_cons in Hb as [->|Hb];
       [|apply elem_of_cons in Hb as [->|Hb]; [|by apply elem_of_nil in Hb]]);
      try done;
      vm_compute in Hia; injection Hia as <-;
      (split; [vm_compute; lia|]); (split; [vm_compute; congruence|]);
      vm_compute; congruence.
Defined.

Lemma stop_tears_the_swarm_down_witness :
  exists s',
    stop (set_connected false) sample_port_swarm = Some s'
    /\ peers s' = [] /\ peer_count (stats s') = 0
    /\ connectable_pool s' = connectable_pool sample_port_swarm.
Proof.
  assert (Hnd : NoDup (map msgs (peers sample_port_swarm))).
  { refine (bool_decide_unpack (NoDup _) _). vm_compute. exact I. }
  destruct (stop_tears_the_swarm_down (set_connected false) sample_port_swarm Hnd
              (proj1 sample_port_swarm_removal_is_safe)
              (proj2 sample_port_swarm_removal_is_safe) eq_refl)
    as (s' & Hrun & _ & Hpeers & Hcount & _ & _ & _ & Hpool).
  exists s'. split; [exact Hrun|]. split; [exact Hpeers|]. split; [exact Hcount | exact Hpool].
Defined.

Module CloseFacts.

Section Close.

Variable peer_destroyed : tr_peer_info -> tr_peer_info.
Variable idle_secs : tr_peer_info -> Z -> option Z.
Variable idle_limit : nat -> nat -> Z.

Lemma shouldPeerBeClosed_is_Some s p n now :
  is_Some (infos s !! peer_info p) ->
  is_Some (shouldPeerBeClosed idle_secs idle_limit s p n now).
Proof.
  intros [i Hi]. unfold shouldPeerBeClosed. rewrite Hi. simpl.
  destruct (do_purge p); [done|]. by destruct (is_done (tor s) && isSeed p).
Qed.

Lemma get_peers_to_close_filter s n now ps :
  records_alive ps s ->
  fold_right
    (fun peer acc =>
       bad ← acc;
       close ← shouldPeerBeClosed idle_secs idle_limit s peer n now;
       Some (if (close : bool) then peer :: bad else bad))
    (Some []) ps
  = Some (List.filter
            (fun p => bool_decide (shouldPeerBeClosed idle_secs idle_limit s p n now = Some true))
            ps).
Proof.
  induction ps as [|p ps IH]; intros Halive; simpl; [done|].
  rewrite IH by (intros q Hq; apply Halive; by right). simpl.
  destruct (shouldPeerBeClosed_is_Some s p n now (Halive p (list_elem_of_here _ _)))
    as [c Hc].
  rewrite Hc. simpl. by destruct c.
Qed.

End Close.

Lemma filter_complement_length {A} (P : A -> bool) (l : list A) :
  length (List.filter P l) + length (List.filter (fun x => negb (P x)) l) = length l.
Proof.
  induction l as [|x l IH]; simpl; [done|]. destruct (P x); simpl; lia.
Qed.

Lemma elem_of_filter_list {A} (P : A -> bool) (l : list A) x :
  x ∈ List.filter P l <-> x ∈ l /\ P x = true.
Proof. by rewrite !list_elem_of_In, filter_In. Qed.

End CloseFacts.

(** X10: [close_bad_peers] disconnects exactly the peers for which
    [shouldPeerBeClosed] says so and keeps the others, in their order.
    Under the conditions of a safe removal (distinct peer objects, live
    records, no removal destroying the record of another peer,
    [stats.peer_count] equal to the number of peers) it succeeds; among
    the peers that are left none is marked [do_purge], and
    [stats.peer_count] is again the number of peers. *)
Theorem close_bad_peers_closes_the_bad_ones
    (peer_destroyed : tr_peer_info -> tr_peer_info)
    (idle_secs : tr_peer_info -> Z -> option Z) (idle_limit : nat -> nat -> Z)
    (s : tr_swarm) (now_sec : Z) :
  NoDup (map msgs (peers s)) ->
  records_alive (peers s) s ->
  removal_spares_the_others (peers s) s ->
  peer_count (stats s) = peerCount s ->
  exists s',
    close_bad_peers peer_destroyed idle_secs idle_limit s now_sec = Some s'
    /\ peers s'
       = List.filter
           (fun p => bool_decide (shouldPeerBeClosed idle_secs idle_limit s p (peerCount s)
                                    now_sec = Some false))
           (peers s)
    /\ (forall p, p ∈ peers s' -> do_purge p = false)
    /\ peer_count (stats s') = peerCount s'.
Proof.
  intros Hnd Halive Hsafe Hcount.
  set (should := fun p => bool_decide (shouldPeerBeClosed idle_secs idle_limit s p
                                         (length (peers s)) now_sec = Some true)).
  assert (Hbad : get_peers_to_close idle_secs idle_limit s now_sec
                 = Some (List.filter should (peers s))).
  { unfold get_peers_to_close. by apply CloseFacts.get_peers_to_close_filter. }
  destruct (LifecycleFacts.remove_peers_spec peer_destroyed (List.filter should (peers s)) s)
    as (s' & Hs' & R).
  { by apply LifecycleFacts.NoDup_msgs_filter. }
  { intros p Hp. apply Halive. by apply CloseFacts.elem_of_filter_list in Hp as [Hp _]. }
  { intros a b ia Ha Hb. apply Hsafe.
    - by apply CloseFacts.elem_of_filter_list in Ha as [Ha _].
    - by apply CloseFacts.elem_of_filter_list in Hb as [Hb _]. }
  exists s'. split; [unfold close_bad_peers; by rewrite Hbad|].
  assert (Hpeers : peers s' = List.filter (fun p => negb (should p)) (peers s)).
  { rewrite (ra_peers _ _ _ R), LifecycleFacts.erase_fold_filter by done.
    apply filter_ext_in. intros p Hp. f_equal.
    apply bool_decide_ext. rewrite list_elem_of_fmap. split.
    - intros [q [Heq Hq]]. apply CloseFacts.elem_of_filter_list in Hq as [Hq Hsq].
      assert (p = q) as ->; [|by apply bool_decide_eq_true in Hsq].
      apply (RechokeFacts.NoDup_map_eq msgs (peers s)); [done | | done | done].
      by apply list_elem_of_In.
    - intros Hsp. exists p. split; [done|]. apply CloseFacts.elem_of_filter_list.
      split; [by apply list_elem_of_In | by apply bool_decide_eq_true]. }
  assert (Hext : forall p, p ∈ peers s ->
            negb (should p)
            = bool_decide (shouldPeerBeClosed idle_secs idle_limit s p (peerCount s) now_sec
                           = Some false)).
  { intros p Hp. unfold should, peerCount.
    destruct (CloseFacts.shouldPeerBeClosed_is_Some idle_secs idle_limit s p
                (length (peers s)) now_sec (Halive p Hp)) as [c Hc].
    rewrite Hc. by destruct c. }
  split; [|split].
  - rewrite Hpeers. apply filter_ext_in. intros p Hp. apply Hext. by apply list_elem_of_In.
  - intros p Hp. rewrite Hpeers in Hp. apply CloseFacts.elem_of_filter_list in Hp as [Hp Hsp].
    rewrite (Hext p Hp) in Hsp. apply bool_decide_eq_true in Hsp.
    unfold shouldPeerBeClosed in Hsp. by destruct (do_purge p).
  - rewrite (ra_count _ _ _ R). unfold peerCount in *. rewrite Hpeers, Hcount.
    pose proof (CloseFacts.filter_complement_length should (peers s)). lia.
Qed.

Module SortedFacts.

Section Generic.

Context {A : Type} (lt : A -> A -> bool) (P : A -> Prop).
Hypothesis lt_asym : forall a b, P a -> P b -> lt a b = true -> lt b a = false.
Hypothesis lt_negtrans :
  forall a b c, P a -> P b -> P c -> lt a b = false -> lt b c = false -> lt a c = false.

Lemma sort_insert_in_order x l :
  P x -> Forall P l ->
  StronglySorted (in_order lt) l -> StronglySorted (in_order lt) (sort_insert lt x l).
Proof using lt_asym lt_negtrans.
  intros Hx Hl. induction 1 as [|y r Hr IH Hy]; simpl.
  - repeat constructor.
  - apply Forall_cons in Hl as [Hpy Hl].
    destruct (lt y x) eqn:E.
    + constructor; [by apply IH|].
      rewrite (SortFacts.sort_insert_perm lt x r).
      constructor; [by apply lt_asym | done].
    + constructor; [by constructor|].
      constructor; [done|].
      apply Forall_forall. intros z Hz. unfold in_order in *.
      apply (lt_negtrans z y x); [|done|done| |done].
      * by apply (proj1 (Forall_forall _ _) Hl).
      * by apply (proj1 (Forall_forall _ _) Hy).
Qed.

Lemma sort_by_in_order l : Forall P l -> StronglySorted (in_order lt) (sort_by lt l).
Proof using lt_asym lt_negtrans.
  induction l as [|x l IH]; intros Hl; simpl; [constructor|].
  apply Forall_cons in Hl as [Hx Hl].
  apply sort_insert_in_order; [done| |by apply IH].
  apply Forall_forall. intros y Hy. apply (proj1 (Forall_forall _ _) Hl).
  by rewrite (SortFacts.sort_by_perm lt l) in Hy.
Qed.

End Generic.

Lemma sorted_take_before_drop {A} (R : A -> A -> Prop) k l a b :
  StronglySorted R l -> a ∈ take k l -> b ∈ drop k l -> R a b.
Proof.
  intros Hs. revert k. induction Hs as [|y r Hr IH Hy]; intros k Ha Hb.
  - rewrite take_nil in Ha. by apply elem_of_nil in Ha.
  - destruct k as [|k]; simpl in *; [by apply elem_of_nil in Ha|].
    apply elem_of_cons in Ha as [->|Ha].
    + apply (proj1 (Forall_forall _ _) Hy). by apply (subseteq_drop k r).
    + by apply (IH k).
Qed.

End SortedFacts.

Module LimitFacts.

Lemma most_active_lt_iff a b :
  ComparePeerByMostActive.lt a b = true
  <-> (do_purge (fst a) = false /\ do_purge (fst b) = true)
      \/ (do_purge (fst a) = do_purge (fst b)
          /\ (latest_piece_data_time (snd b) < latest_piece_data_time (snd a))%Z).
Proof.
  unfold ComparePeerByMostActive.lt, ComparePeerByMostActive.compare, compare_by_piece_data_time.
  destruct (OrderFacts.compare_3way_Z_cases (latest_piece_data_time (snd a))
              (latest_piece_data_time (snd b))) as [[H ->] | [[H ->] | [H ->]]];
    destruct (do_purge (fst a)), (do_purge (fst b)); simpl;
    split; try done; intuition (try congruence; try lia).
Qed.

Lemma most_active_lt_false_iff a b :
  ComparePeerByMostActive.lt a b = false
  <-> ~ ((do_purge (fst a) = false /\ do_purge (fst b) = true)
         \/ (do_purge (fst a) = do_purge (fst b)
             /\ (latest_piece_data_time (snd b) < latest_piece_data_time (snd a))%Z)).
Proof.
  rewrite <- most_active_lt_iff. by destruct (ComparePeerByMostActive.lt a b).
Qed.

Lemma least_active_asym a b :
  ComparePeerByLeastActive a b = true -> ComparePeerByLeastActive b a = false.
Proof.
  unfold ComparePeerByLeastActive. rewrite most_active_lt_iff, most_active_lt_false_iff.
  destruct (do_purge (fst a)), (do_purge (fst b)); intuition (try congruence; try lia).
Qed.

Lemma least_active_negtrans a b c :
  ComparePeerByLeastActive a b = false -> ComparePeerByLeastActive b c = false ->
  ComparePeerByLeastActive a c = false.
Proof.
  unfold ComparePeerByLeastActive. rewrite !most_active_lt_false_iff.
  destruct (do_purge (fst a)), (do_purge (fst b)), (do_purge (fst c));
    intuition (try congruence; try lia).
Qed.

Lemma with_records_spec s ps :
  records_alive ps s ->
  exists r, with_records s ps = Some r
            /\ map fst r = ps
            /\ Forall (fun pi => infos s !! peer_info (fst pi) = Some (snd pi)) r.
Proof.
  induction ps as [|p ps IH]; intros Halive; simpl.
  - exists []. repeat split; constructor.
  - destruct (Halive p (list_elem_of_here _ _)) as [i Hi].
    destruct IH as (r & Hr & Hmap & Hall); [intros q Hq; apply Halive; by right|].
    exists ((p, i) :: r). rewrite Hi, Hr. simpl. repeat split; [by rewrite Hmap|].
    by constructor.
Qed.

End LimitFacts.


Lemma sample_purge_swarm_removal_is_safe :
  NoDup (map msgs (peers sample_purge_swarm))
  /\ records_alive (peers sample_purge_swarm) sample_purge_swarm
  /\ removal_spares_the_others (peers sample_purge_swarm) sample_purge_swarm.
Proof.
  split; [|split].
  - refine (bool_decide_unpack (NoDup _) _). vm_compute. exact I.
  - intros p Hp.
    apply elem_of_cons in Hp as [->|Hp]; [vm_compute; eauto|].
    apply elem_of_cons in Hp as [->|Hp]; [vm_compute; eauto|].
    by apply elem_of_nil in Hp.
  - intros a b ia Ha Hb Hne Hia.
    apply elem_of_cons in Ha as [->|Ha];
      [|apply elem_of_cons in Ha as [->|Ha]; [|by apply elem_of_nil in Ha]];
      (apply elem_of_cons in Hb as [->|Hb];
       [|apply elem_of_cons in Hb as [->|Hb]; [|by apply elem_of_nil in Hb]]);
      try done;
      vm_compute in Hia; injection Hia as <-;
      (split; [vm_compute; lia|]); (split; [vm_compute; congruence|]);
      vm_compute; congruence.
Defined.


Lemma close_bad_peers_closes_the_bad_ones_witness :
  exists s',
    close_bad_peers (set_connected false) (fun _ _ => None) (fun _ _ => 300%Z)
      sample_purge_swarm 1000 = Some s'
    /\ (forall p, p ∈ peers s' -> do_purge p = false)
    /\ peer_count (stats s') = peerCount s'.
Proof.
  destruct (close_bad_peers_closes_the_bad_ones (set_connected false) (fun _ _ => None)
              (fun _ _ => 300%Z) sample_purge_swarm 1000
              (proj1 sample_purge_swarm_removal_is_safe)
              (proj1 (proj2 sample_purge_swarm_removal_is_safe))
              (proj2 (proj2 sample_purge_swarm_removal_is_safe)) eq_refl)
    as (s' & Hrun & _ & Hpurge & Hcount).
  exists s'. split; [exact Hrun|]. split; [exact Hpurge | exact Hcount].
Defined.

Module HandshakeFacts.

Lemma on_handshake_done_manager result mgr mgr' added :
  on_handshake_done result mgr = Some (mgr', added) ->
  session mgr' = session mgr
  /\ incoming_handshakes mgr'
     = (if io_is_incoming result
        then incoming_handshakes mgr ∖ {[ io_socket_address result ]}
        else incoming_handshakes mgr)
  /\ outbound_candidates_ mgr' = outbound_candidates_ mgr.
Proof.
  unfold on_handshake_done. intros H.
  repeat (case_match; simplify_option_eq); by repeat split.
Qed.

End HandshakeFacts.

(** X12: [tr_peerMgrAddIncoming] starts a handshake exactly when the
    remote address is not blocklisted and no incoming handshake is pending
    for that socket address; otherwise the socket is closed and the manager
    is unchanged.  While the handshake is pending, a second connection from
    the same socket address is closed; once [on_handshake_done] has run
    for it, whatever its outcome, the address is admitted again. *)
Theorem AddIncoming_one_handshake_per_socket_address
    (sa : tr_socket_address) (mgr : tr_peerMgr) :
  let r := tr_peerMgrAddIncoming sa mgr in
  (snd r = true
   <-> addressIsBlocked (session mgr) (fst sa) = false /\ sa ∉ incoming_handshakes mgr)
  /\ (snd r = false -> fst r = mgr)
  /\ (snd r = true ->
      sa ∈ incoming_handshakes (fst r)
      /\ torrents (fst r) = torrents mgr
      /\ tr_peerMgrAddIncoming sa (fst r) = (fst r, false)
      /\ forall result mgr' added,
           io_is_incoming result = true ->
           io_socket_address result = sa ->
           on_handshake_done result (fst r) = Some (mgr', added) ->
           snd (tr_peerMgrAddIncoming sa mgr') = true).
Proof.
  unfold tr_peerMgrAddIncoming.
  destruct (addressIsBlocked (session mgr) (fst sa)) eqn:Hblocked; simpl.
  { split; [split; [done | by intros [? _]]|]. split; done. }
  case_bool_decide as Hpending; simpl.
  { split; [split; [done | by intros [_ ?]]|]. split; done. }
  split; [done|]. split; [done|]. intros _.
  assert (Hin : sa ∈ incoming_handshakes mgr ∪ {[ sa ]}).
  { apply elem_of_union. right. by apply elem_of_singleton. }
  split; [done|]. split; [done|]. split.
  { rewrite Hblocked. by rewrite bool_decide_eq_true_2. }
  intros result mgr' added Hinc Hsa Hdone.
  destruct (HandshakeFacts.on_handshake_done_manager _ _ _ _ Hdone) as (Hs & Hh & _).
  rewrite Hinc in Hh. simpl in *. rewrite Hs, Hh, Hsa. simpl. rewrite Hblocked.
  rewrite bool_decide_eq_false_2; [done|].
  intros H. apply elem_of_difference in H as [_ H]. apply H. by apply elem_of_singleton.
Qed.

(** X13: a handshake that failed, or that completed for a swarm that is
    not running, never adds a peer.  With the records of
    [connectable_pool] alive, [on_handshake_done] returns false, takes the
    handshake out of its table (the manager's for an incoming connection,
    the swarm's for an outgoing one) and leaves peers, stats and pools as
    they are; the record that [connectable_pool] has under the socket
    address, if it is not connected, gets one more connection failure and
    is marked not connectable when nothing was read from the peer; every
    other record is untouched. *)
Theorem failed_handshake_is_recorded
    (result : tr_handshake_result) (mgr : tr_peerMgr) (s : tr_swarm) :
  get_existing_swarm (io_torrent_hash result) mgr = Some s ->
  hr_is_connected result = false \/ is_running s = false ->
  pool_nodes_alive (connectable_pool s) s ->
  exists mgr' s',
    on_handshake_done result mgr = Some (mgr', false)
    /\ get_existing_swarm (io_torrent_hash result) mgr' = Some s'
    /\ incoming_handshakes mgr'
       = (if io_is_incoming result
          then incoming_handshakes mgr ∖ {[ io_socket_address result ]}
          else incoming_handshakes mgr)
    /\ outgoing_handshakes s'
       = (if io_is_incoming result then outgoing_handshakes s
          else outgoing_handshakes s ∖ {[ io_socket_address result ]})
    /\ peers s' = peers s /\ stats s' = stats s
    /\ connectable_pool s' = connectable_pool s
    /\ incoming_pool s' = incoming_pool s
    /\ graveyard_pool s' = graveyard_pool s
    /\ match connectable_pool s !! io_socket_address result with
       | Some p =>
           exists info,
             infos s !! p = Some info
             /\ infos s'
                = if is_connected info then infos s
                  else <[p := handshake_failed (hr_read_anything_from_peer result) info]>
                         (infos s)
       | None => infos s' = infos s
       end.
Proof.
  intros Hsw Hfail Halive.
  pose proof (AdmissionFacts.get_swarm_hash _ _ _ Hsw) as Hhash.
  unfold on_handshake_done. rewrite Hsw.
  set (s0 := if io_is_incoming result then s
             else with_outgoing_handshakes
                    (outgoing_handshakes s ∖ {[ io_socket_address result ]}) s).
  assert (Hfound : (if io_is_incoming result then Some s
                    else option_map
                           (fun s => with_outgoing_handshakes
                                       (outgoing_handshakes s ∖ {[ io_socket_address result ]}) s)
                           (Some s)) = Some s0).
  { unfold s0. by destruct (io_is_incoming result). }
  rewrite Hfound.
  assert (Hcond : negb (hr_is_connected result) || negb (is_running s0) = true).
  { assert (is_running s0 = is_running s) as -> by (unfold s0; by destruct (io_is_incoming result)).
    destruct Hfail as [-> | ->]; [done | by rewrite orb_true_r]. }
  rewrite Hcond.
  assert (Hs0 : peers s0 = peers s /\ stats s0 = stats s
                /\ connectable_pool s0 = connectable_pool s
                /\ incoming_pool s0 = incoming_pool s /\ graveyard_pool s0 = graveyard_pool s
                /\ infos s0 = infos s /\ tor s0 = tor s
                /\ outgoing_handshakes s0
                   = (if io_is_incoming result then outgoing_handshakes s
                      else outgoing_handshakes s ∖ {[ io_socket_address result ]})).
  { unfold s0. by destruct (io_is_incoming result). }
  destruct Hs0 as (P1 & P2 & P3 & P4 & P5 & P6 & P7 & P8).
  unfold get_existing_peer_info. rewrite P3.
  set (mgr1 := if io_is_incoming result then _ else mgr).
  assert (Hsw1 : get_existing_swarm (io_torrent_hash result) mgr1 = Some s).
  { unfold mgr1. by destruct (io_is_incoming result). }
  assert (Hh1 : incoming_handshakes mgr1
                = (if io_is_incoming result
                   then incoming_handshakes mgr ∖ {[ io_socket_address result ]}
                   else incoming_handshakes mgr)).
  { unfold mgr1. by destruct (io_is_incoming result). }
  destruct (connectable_pool s !! io_socket_address result) as [p|] eqn:Hp.
  - destruct (Halive _ _ Hp) as [info Hinfo]. rewrite P6, Hinfo. simpl.
    destruct (is_connected info) eqn:Hconn; simpl.
    + exists (put_swarm (io_torrent_hash result) s0 mgr1), s0.
      split; [done|]. split; [apply (AdmissionFacts.get_put_swarm _ s); [done | by rewrite P7]|].
      repeat (split; [done|]). exists info. by rewrite Hconn.
    + eexists (put_swarm (io_torrent_hash result) _ mgr1), _.
      split; [reflexivity|].
      split; [apply (AdmissionFacts.get_put_swarm _ s); [done | simpl; by rewrite P7]|].
      simpl. repeat (split; [done|]). exists info. rewrite Hconn, ?P6. done.
  - exists (put_swarm (io_torrent_hash result) s0 mgr1), s0.
    split; [done|]. split; [apply (AdmissionFacts.get_put_swarm _ s); [done | by rewrite P7]|].
    by repeat (split; [done|]).
Qed.

Lemma failed_handshake_is_recorded_witness :
  exists mgr',
    on_handshake_done
      (mk_handshake_result false false (sample_ip, 7000%N) false false 1)
      (mk_peerMgr sample_session [sample_rekey_swarm] ∅ []) = Some (mgr', false).
Proof.
  destruct (failed_handshake_is_recorded
              (mk_handshake_result false false (sample_ip, 7000%N) false false 1)
              (mk_peerMgr sample_session [sample_rekey_swarm] ∅ []) sample_rekey_swarm
              eq_refl (or_introl eq_refl))
    as (mgr' & s' & Hrun & _).
  { intros sa p H.
    change (connectable_pool sample_rekey_swarm) with
      ({[ (sample_ip, 6881%N) := 10; (sample_ip, 7000%N) := 30 ]} : gmap (tr_address * N) nat)
      in H.
    apply lookup_insert_Some in H as [[_ <-] | [_ H]]; [vm_compute; eauto|].
    apply lookup_singleton_Some in H as [_ <-]. vm_compute. eauto. }
  exists mgr'. exact Hrun.
Defined.

Module AddPexMore.

Lemma ensure_connectable_pool sa flags from s :
  let s' := fst (ensure_info_exists sa flags from true s) in
  same_apart_from_records s s'
  /\ (forall sa', is_Some (connectable_pool s' !! sa')
                  <-> is_Some (connectable_pool s !! sa') \/ sa' = sa)
  /\ (forall sa' p, connectable_pool s !! sa' = Some p -> connectable_pool s' !! sa' = Some p).
Proof.
  unfold ensure_info_exists, same_apart_from_records.
  destruct (connectable_pool s !! sa) as [p|] eqn:E; simpl.
  - split; [done|]. split; [|done].
    intros sa'. split; [by left|]. intros [?| ->]; [done | by rewrite E].
  - split; [done|]. split.
    + intros sa'. destruct (decide (sa = sa')) as [->|Hne].
      * rewrite lookup_insert_eq. split; [by right | done].
      * rewrite (lookup_insert_ne _ _ _ _ Hne). split; [by left|].
        intros [?| ->]; done.
    + intros sa' p Hp. rewrite lookup_insert_ne; [done|]. congruence.
Qed.

Section Fold.

Variable tr_isPex : Pex.tr_pex -> bool.
Variable is_valid_for_peers : Pex.tr_pex -> bool.
Variable session : tr_session.
Variable from : tr_peer_from.

Lemma fold_pool pex acc :
  let r := fold_left (add_pex_step tr_isPex is_valid_for_peers session from) pex acc in
  same_apart_from_records (fst acc) (fst r)
  /\ (forall sa, is_Some (connectable_pool (fst r) !! sa)
        <-> is_Some (connectable_pool (fst acc) !! sa)
            \/ exists e, e ∈ pex
                 /\ pex_is_usable tr_isPex is_valid_for_peers session from e = true
                 /\ (Pex.addr e, Pex.port e) = sa)
  /\ (forall sa p, connectable_pool (fst acc) !! sa = Some p ->
        connectable_pool (fst r) !! sa = Some p).
Proof.
  revert acc. induction pex as [|e pex IH]; intros acc; simpl.
  - split; [by repeat split|]. split; [|done].
    intros sa. split; [by left|]. intros [?|(e & He & _)]; [done|]. by apply elem_of_nil in He.
  - destruct (IH (add_pex_step tr_isPex is_valid_for_peers session from acc e))
      as (F & D & K).
    unfold add_pex_step in F, D, K |- *.
    destruct (pex_is_usable tr_isPex is_valid_for_peers session from e) eqn:U; simpl in *.
    + destruct (ensure_connectable_pool (Pex.addr e, Pex.port e) (Pex.flags e) from (fst acc))
        as (F0 & D0 & K0).
      split; [|split].
      * unfold same_apart_from_records in *.
        destruct F as (A1 & A2 & A3 & A4 & A5 & A6 & A7 & A8),
                 F0 as (B1 & B2 & B3 & B4 & B5 & B6 & B7 & B8).
        rewrite A1, A2, A3, A4, A5, A6, A7, A8. done.
      * intros sa. rewrite D, D0. split.
        -- intros [[?| ->]|(e' & He' & U' & E')].
           ++ by left.
           ++ right. exists e. split; [by left | done].
           ++ right. exists e'. split; [by right | done].
        -- intros [?|(e' & He' & U' & E')]; [by left; left|].
           apply elem_of_cons in He' as [->|He'].
           ++ left. by right.
           ++ right. by exists e'.
      * intros sa p Hp. apply K. by apply K0.
    + split; [done|]. split; [|done].
      intros sa. rewrite D. split.
      * intros [?|(e' & He' & U' & E')]; [by left|]. right. exists e'. split; [by right | done].
      * intros [?|(e' & He' & U' & E')]; [by left|].
        apply elem_of_cons in He' as [->|He']; [congruence|]. right. by exists e'.
Qed.

End Fold.

End AddPexMore.

(** X14: [tr_peerMgrAddPex] uses exactly the entries that pass its test
    (a well-formed entry, address not blocklisted, valid for peers, source
    other than INCOMING, and from PEX only with the connectable flag): the
    count returned is their number, and the addresses known in
    [connectable_pool] afterwards are those known before together with the
    addresses of these entries.  An address known before keeps its record
    object; peers, stats, the other two pools, requests and handshakes are
    untouched. *)
Theorem AddPex_adds_exactly_the_usable_entries
    (tr_isPex is_valid_for_peers : Pex.tr_pex -> bool)
    (session : tr_session) (from : tr_peer_from) (pex : list Pex.tr_pex) (s : tr_swarm) :
  let r := tr_peerMgrAddPex tr_isPex is_valid_for_peers session from pex s in
  snd r = length (List.filter (pex_is_usable tr_isPex is_valid_for_peers session from) pex)
  /\ snd r <= length pex
  /\ (forall sa, is_Some (connectable_pool (fst r) !! sa)
        <-> is_Some (connectable_pool s !! sa)
            \/ exists e, e ∈ pex
                 /\ pex_is_usable tr_isPex is_valid_for_peers session from e = true
                 /\ (Pex.addr e, Pex.port e) = sa)
  /\ (forall sa p, connectable_pool s !! sa = Some p -> connectable_pool (fst r) !! sa = Some p)
  /\ (peers (fst r) = peers s /\ stats (fst r) = stats s
      /\ incoming_pool (fst r) = incoming_pool s /\ graveyard_pool (fst r) = graveyard_pool s
      /\ active_requests (fst r) = active_requests s
      /\ outgoing_handshakes (fst r) = outgoing_handshakes s).
Proof.
  unfold tr_peerMgrAddPex.
  pose proof (AddPexFacts.fold_count tr_isPex is_valid_for_peers session from pex (s, 0)) as Hn.
  destruct (AddPexMore.fold_pool tr_isPex is_valid_for_peers session from pex (s, 0))
    as (F & D & K).
  simpl in *. split; [exact Hn|]. split.
  { rewrite Hn. apply filter_length_le. }
  split; [exact D|]. split; [exact K|].
  destruct F as (A1 & A2 & A3 & A4 & A5 & A6 & _). done.
Qed.

Module GetPeersMore.





End GetPeersMore.


Module RechokeMore.

Lemma set_choke_twice b b' p : set_choke b (set_choke b' p) = set_choke b p.
Proof. done. Qed.

Lemma choke_first_up_to_choke choke_all p :
  set_choke true (choke_first choke_all p) = set_choke true p.
Proof. unfold choke_first. by destruct (isSeed p || choke_all). Qed.

Lemma apply_choke_one_up_to_choke items p :
  set_choke true (apply_choke_one items p) = set_choke true p.
Proof.
  unfold apply_choke_one. revert p. induction items as [|c items IH]; intros p; simpl; [done|].
  rewrite IH. by destruct (Nat.eqb (msgs p) (cd_msgs c)).
Qed.

Lemma rechoke_peers session salter rnd s :
  exists final,
    peers (rechokeUploads session salter rnd s)
    = map (fun p => apply_choke_one final (choke_first (negb (client_can_upload (tor s))) p))
          (peers s).
Proof.
  unfold rechokeUploads.
  set (collected := collect_choke_data _ _ _ _ _ _).
  set (final := match _ with Some r => fst r | None => _ end).
  exists final. simpl.
  rewrite RechokeFacts.apply_choke_map. unfold collected.
  by rewrite RechokeFacts.collect_peers, map_map.
Qed.

End RechokeMore.

(** X16: [rechokeUploads] changes nothing but choke flags, the optimistic
    peer and its scaler: the peers afterwards are the peers before, in the
    same order, equal up to [peer_is_choked], and every other field of the
    swarm is as it was. *)
Theorem rechokeUploads_changes_only_choke_state
    (session : tr_session) (salter : nat -> N) (rnd : nat) (s : tr_swarm) :
  let s' := rechokeUploads session salter rnd s in
  map (set_choke true) (peers s') = map (set_choke true) (peers s)
  /\ with_optimistic (optimistic s) (optimistic_unchoke_time_scaler s)
       (with_peers (peers s) s') = s.
Proof.
  intros s'. split.
  - destruct (RechokeMore.rechoke_peers session salter rnd s) as [final Hfinal].
    unfold s'. rewrite Hfinal, map_map. apply map_ext. intros p.
    by rewrite RechokeMore.apply_choke_one_up_to_choke, RechokeMore.choke_first_up_to_choke.
  - unfold s', rechokeUploads. by destruct s.
Qed.

Module OptimisticFacts.

Lemma standing_optimistic session salter rnd s m k :
  optimistic s = Some m ->
  optimistic_unchoke_time_scaler s = S k ->
  optimistic (rechokeUploads session salter rnd s) = Some m
  /\ optimistic_unchoke_time_scaler (rechokeUploads session salter rnd s) = k.
Proof.
  intros Ho Hk. unfold rechokeUploads. rewrite Ho, Hk. simpl. split; [done | lia].
Qed.

Lemma standing_items session salter rnd s m k :
  optimistic s = Some m ->
  optimistic_unchoke_time_scaler s = S k ->
  exists final,
    peers (rechokeUploads session salter rnd s)
    = map (fun p => apply_choke_one final (choke_first (negb (client_can_upload (tor s))) p))
          (peers s)
    /\ Forall (fun c => cd_msgs c <> m) final.
Proof.
  intros Ho Hk. unfold rechokeUploads. rewrite Ho, Hk. simpl.
  set (choke_all := negb (client_can_upload (tor s))).
  set (collected := collect_choke_data (tor s) choke_all (Some m) salter 0 (peers s)).
  set (rec := unchoke_best _ _ 0 (sort_by ChokeData_lt (snd collected))).
  exists (fst rec). split.
  - rewrite RechokeFacts.apply_choke_map. unfold collected.
    by rewrite RechokeFacts.collect_peers, map_map.
  - destruct (RechokeFacts.collect_items (tor s) choke_all (Some m) salter 0 (peers s))
      as [_ Hitems].
    fold collected in Hitems.
    apply (RechokeFacts.unchoke_best_Forall (fun c => cd_msgs c <> m)); [done|].
    rewrite (SortFacts.sort_by_perm ChokeData_lt (snd collected)).
    eapply Forall_impl; [exact Hitems|].
    intros c [_ (p & _ & Hg & Hm & _)]. rewrite <- Hm.
    unfold gets_choke_data, is_not_optimistic in Hg.
    destruct (Nat.eqb_spec (msgs p) m) as [E|E]; [|done].
    by rewrite !andb_false_r in Hg.
Qed.

Lemma apply_choke_one_none items p :
  Forall (fun c => cd_msgs c <> msgs p) items -> apply_choke_one items p = p.
Proof.
  intros H. destruct (RechokeFacts.apply_choke_one_spec items p)
    as (_ & _ & _ & [(c & Hc & Hm & _)|[_ Heq]]); [|done].
  by destruct (proj1 (Forall_forall _ _) H c Hc).
Qed.

End OptimisticFacts.

(** X17: an optimistic unchoke lasts for as many pulses as its scaler
    says ([OptimisticUnchokeMultiplier] = 4 when it is chosen): while the
    scaler is greater than zero each [rechokeUploads] keeps the optimistic
    peer and takes one off the scaler, so after [n] pulses, [n] at most
    the scaler, the peer is still the optimistic one, whatever the
    randomness and whatever else happened to the swarm in between. *)
Theorem optimistic_unchoke_lasts_for_the_scaler
    (n : nat) (s s' : tr_swarm) (m : peer_ptr) :
  rechoke_pulses n s s' ->
  optimistic s = Some m ->
  n <= optimistic_unchoke_time_scaler s ->
  optimistic s' = Some m
  /\ optimistic_unchoke_time_scaler s' = optimistic_unchoke_time_scaler s - n.
Proof.
  induction 1 as [s|n s s1 session salter rnd s' Ho Hk Hrun IH]; intros Hopt Hn.
  - split; [done | lia].
  - destruct (optimistic_unchoke_time_scaler s) as [|k] eqn:E; [lia|].
    destruct (OptimisticFacts.standing_optimistic session salter rnd s1 m k)
      as [Ho1 Hk1]; [congruence | congruence |].
    destruct IH as [IH1 IH2]; [done | lia |].
    split; [done|]. rewrite IH2, Hk1. lia.
Qed.

Lemma optimistic_unchoke_lasts_for_the_scaler_witness :
  optimistic (rechokeUploads sample_session N.of_nat 5 sample_no_upload_swarm) = Some 3
  /\ optimistic_unchoke_time_scaler
       (rechokeUploads sample_session N.of_nat 5 sample_no_upload_swarm) = 1.
Proof.
  refine (optimistic_unchoke_lasts_for_the_scaler 1 sample_no_upload_swarm _ 3 _ eq_refl _).
  - apply (pulses_step 0 sample_no_upload_swarm sample_no_upload_swarm sample_session
             N.of_nat 5); [reflexivity | reflexivity | apply pulses_done].
  - vm_compute. lia.
Defined.

(** X18: the standing optimistic peer is immune from rechoking.  In a
    pulse that starts with the scaler greater than zero, the optimistic
    peer gets no [ChokeData]: it comes out of [rechokeUploads] as it went
    in, except that it is choked when it is a seed or the torrent cannot
    upload. *)
Theorem standing_optimistic_peer_is_not_rechoked
    (session : tr_session) (salter : nat -> N) (rnd : nat) (s : tr_swarm)
    (m : peer_ptr) (i : nat) (p : tr_peerMsgs) :
  optimistic s = Some m ->
  0 < optimistic_unchoke_time_scaler s ->
  peers s !! i = Some p ->
  msgs p = m ->
  peers (rechokeUploads session salter rnd s) !! i
  = Some (if isSeed p || negb (client_can_upload (tor s)) then set_choke true p else p).
Proof.
  intros Ho Hk Hi Hm.
  destruct (optimistic_unchoke_time_scaler s) as [|k] eqn:E; [lia|].
  destruct (OptimisticFacts.standing_items session salter rnd s m k Ho E)
    as (final & Hpeers & Hfinal).
  rewrite Hpeers, list_lookup_fmap, Hi. simpl. f_equal.
  rewrite OptimisticFacts.apply_choke_one_none; [done|].
  eapply Forall_impl; [exact Hfinal|]. intros c Hc.
  destruct (RechokeFacts.choke_first_keeps (negb (client_can_upload (tor s))) p) as (-> & _).
  congruence.
Qed.

Lemma standing_optimistic_peer_is_not_rechoked_witness :
  peers (rechokeUploads sample_session N.of_nat 5 sample_no_upload_swarm) !! 2
  = Some (set_choke true (sample_leech 3 10 false true)).
Proof.
  refine (standing_optimistic_peer_is_not_rechoked sample_session N.of_nat 5
            sample_no_upload_swarm 3 2 (sample_leech 3 10 false true) eq_refl _ eq_refl eq_refl).
  vm_compute. lia.
Defined.

Module MaxedOutFacts.

Lemma collect_remembers t choke_all o salter k ps :
  Forall (fun c => cd_is_choked c = true /\ remembers ps c)
         (snd (collect_choke_data t choke_all o salter k ps)).
Proof.
  revert k. induction ps as [|p ps IH]; intros k; simpl; [constructor|].
  assert (Hweaken : forall l,
            Forall (fun c => cd_is_choked c = true /\ remembers ps c) l ->
            Forall (fun c => cd_is_choked c = true /\ remembers (p :: ps) c) l).
  { intros l Hl. eapply Forall_impl; [exact Hl|]. intros c [Hc (q & Hq & Hrest)].
    split; [done|]. exists q. split; [by right | done]. }
  destruct (isSeed p); simpl; [by apply Hweaken|].
  destruct choke_all; simpl; [by apply Hweaken|].
  destruct (is_not_optimistic o p); simpl; [|by apply Hweaken].
  constructor; [|by apply Hweaken]. simpl. split; [done|].
  exists p. split; [by left | done].
Qed.

Lemma unchoke_best_maxed_out slots ui items :
  Forall (fun c => cd_is_choked c = true) items ->
  Forall (fun c => cd_is_choked c = true \/ cd_is_choked c = cd_was_choked c)
         (fst (unchoke_best slots true ui items)).
Proof.
  revert ui. induction items as [|c items IH]; intros ui Hall; simpl; [constructor|].
  apply Forall_cons in Hall as [Hc Hall].
  destruct (Nat.leb slots ui); simpl.
  - constructor; [by left|]. eapply Forall_impl; [exact Hall|]. intros d Hd. by left.
  - constructor; [by right | by apply IH].
Qed.

End MaxedOutFacts.

(** X19: if the upload bandwidth is maxed out, [rechokeUploads] does not
    unchoke any more peers.  With the connected peers being distinct
    objects, every peer that was choked before the pulse is choked after
    it, and no optimistic peer is chosen. *)
Theorem maxed_out_unchokes_nobody
    (session : tr_session) (salter : nat -> N) (rnd : nat) (s : tr_swarm) :
  upload_is_maxed_out (tor s) = true ->
  NoDup (map msgs (peers s)) ->
  let s' := rechokeUploads session salter rnd s in
  (forall i p p', peers s !! i = Some p -> peers s' !! i = Some p' ->
     peer_is_choked p = true -> peer_is_choked p' = true)
  /\ optimistic s'
     = (if Nat.ltb 0 (optimistic_unchoke_time_scaler s) then optimistic s else None).
Proof.
  intros Hmax Hnd s'. subst s'. unfold rechokeUploads. rewrite Hmax. simpl.
  set (choke_all := negb (client_can_upload (tor s))).
  set (o1 := if Nat.ltb 0 (optimistic_unchoke_time_scaler s) then optimistic s else None).
  set (collected := collect_choke_data (tor s) choke_all o1 salter 0 (peers s)).
  set (rec := unchoke_best (uploadSlotsPerTorrent session) true 0
                (sort_by ChokeData_lt (snd collected))).
  assert (Hchosen : match o1 with Some _ => None | None => None end
                    = (None : option (list ChokeData * nat))) by (by destruct o1).
  rewrite Hchosen. simpl. split; [|done].
  intros i p p' Hp Hp' Hchoked.
  rewrite RechokeFacts.apply_choke_map in Hp'. unfold collected in Hp'.
  rewrite RechokeFacts.collect_peers, map_map, list_lookup_fmap, Hp in Hp'.
  simpl in Hp'. injection Hp' as <-.
  pose proof (MaxedOutFacts.collect_remembers (tor s) choke_all o1 salter 0 (peers s)) as Hrem.
  fold collected in Hrem.
  assert (Hsorted : Forall (fun c => cd_is_choked c = true /\ remembers (peers s) c)
                      (sort_by ChokeData_lt (snd collected))).
  { by rewrite (SortFacts.sort_by_perm ChokeData_lt (snd collected)). }
  assert (Hrec1 : Forall (fun c => cd_is_choked c = true \/ cd_is_choked c = cd_was_choked c)
                    (fst rec)).
  { apply MaxedOutFacts.unchoke_best_maxed_out.
    eapply Forall_impl; [exact Hsorted|]. by intros c [Hc _]. }
  assert (Hrec2 : Forall (remembers (peers s)) (fst rec)).
  { apply RechokeFacts.unchoke_best_Forall; [done|].
    eapply Forall_impl; [exact Hsorted|]. by intros c [_ Hc]. }
  destruct (RechokeFacts.choke_first_keeps choke_all p) as (Hm & _ & _).
  assert (Hfirst : peer_is_choked (choke_first choke_all p) = true).
  { unfold choke_first. by destruct (isSeed p || choke_all). }
  destruct (RechokeFacts.apply_choke_one_spec (fst rec) (choke_first choke_all p))
    as (_ & _ & _ & [(c & Hc & Hcm & Hcc)|[_ Heq]]); [|by rewrite Heq].
  rewrite Hcc.
  destruct (proj1 (Forall_forall _ _) Hrec1 c Hc) as [Ht|Hw]; [done|].
  rewrite Hw.
  destruct (proj1 (Forall_forall _ _) Hrec2 c Hc) as (q & Hq & Hqm & Hqw).
  rewrite Hqw.
  assert (q = p) as ->; [|done].
  apply (RechokeFacts.NoDup_map_eq msgs (peers s)); [done | done | |congruence].
  by eapply list_elem_of_lookup_2.
Qed.

Lemma maxed_out_unchokes_nobody_witness :
  optimistic (rechokeUploads sample_session N.of_nat 5 sample_maxed_out_swarm) = None.
Proof.
  assert (Hnd : NoDup (map msgs (peers sample_maxed_out_swarm))).
  { refine (bool_decide_unpack (NoDup _) _). vm_compute. exact I. }
  exact (proj2 (maxed_out_unchokes_nobody sample_session N.of_nat 5 sample_maxed_out_swarm
                  eq_refl Hnd)).
Defined.



(** X21: the candidate list fits its fixed-capacity vector and honours
    the budget for incoming connections.  [get_peer_candidates] never
    returns more than [OutboundCandidateListCapacity] = 36 entries
    (4 pulses of [MaxConnectionsPerPulse] = 9), and none at all when the
    session already has as many peers as the outgoing budget (95% of the
    peer limit) allows; in that case a dialer pulse that starts with an
    empty cache attempts no connection and leaves the manager as it is. *)
Theorem candidate_list_fits_its_capacity
    (reconnect_interval_has_passed : tr_peer_info -> Z -> bool)
    (new_outgoing_ok : tr_socket_address -> bool)
    (now : Z) (salter : nat -> N) (mgr : tr_peerMgr) :
  MaxConnectionsPerPulse = 9
  /\ OutboundCandidateListCapacity = 36
  /\ length (fst (get_peer_candidates reconnect_interval_has_passed now salter mgr)) <= 36
  /\ (outgoing_peer_budget (session mgr) <= total_peer_count (torrents mgr) ->
      get_peer_candidates reconnect_interval_has_passed now salter mgr = ([], mgr)
      /\ (outbound_candidates_ mgr = [] ->
          make_new_peer_connections reconnect_interval_has_passed new_outgoing_ok now salter mgr
          = (mgr, []))).
Proof.
  split; [reflexivity|]. split; [reflexivity|]. split.
  - unfold get_peer_candidates.
    destruct (Nat.leb _ _); simpl; [lia|].
    unfold best_candidates_last. rewrite length_map, length_rev.
    change OutboundCandidateListCapacity with 36.
    destruct (Nat.ltb 36 _) eqn:E.
    + rewrite length_take. lia.
    + apply Nat.ltb_ge in E. lia.
  - intros Hbudget.
    assert (Hget : get_peer_candidates reconnect_interval_has_passed now salter mgr = ([], mgr)).
    { unfold get_peer_candidates. by rewrite (proj2 (Nat.leb_le _ _) Hbudget). }
    split; [done|]. intros Hcache.
    unfold make_new_peer_connections, candidates_to_dial. rewrite Hcache, Hget. simpl.
    unfold with_outbound_candidates. destruct mgr. simpl in *. by rewrite Hcache.
Qed.

Module CandidateFacts.

Section Candidates.

Variable reconnect_interval_has_passed : tr_peer_info -> Z -> bool.

Lemma candidate_memo session s info now :
  memo_filled session info
    (snd (is_peer_candidate reconnect_interval_has_passed session s info now))
  /\ listen_socket_address
       (snd (is_peer_candidate reconnect_interval_has_passed session s info now))
     = listen_socket_address info.
Proof.
  destruct (GetPeersFacts.is_blocklisted_keeps session info) as (Hsa & _).
  unfold memo_filled, is_peer_candidate.
  destruct (match is_connectable info with Some false => true | _ => false end);
    [split; [by left | done]|].
  destruct (is_done (tor s) && is_seed info); [split; [by left | done]|].
  destruct (peer_is_in_use s info); [split; [by left | done]|].
  destruct (negb _); [split; [by left | done]|].
  destruct (fst (is_blocklisted session info)); [split; [by right | done]|].
  destruct (is_banned _); split; try done; by right.
Qed.

Hypothesis interval_ignores_memo :
  forall session info now,
    reconnect_interval_has_passed (snd (is_blocklisted session info)) now
    = reconnect_interval_has_passed info now.

Lemma candidate_stable session s s' info info' now :
  tor s' = tor s -> outgoing_handshakes s' = outgoing_handshakes s ->
  memo_filled session info info' ->
  fst (is_peer_candidate reconnect_interval_has_passed session s' info' now)
  = fst (is_peer_candidate reconnect_interval_has_passed session s info now)
  /\ memo_filled session info
       (snd (is_peer_candidate reconnect_interval_has_passed session s' info' now))
  /\ listen_socket_address
       (snd (is_peer_candidate reconnect_interval_has_passed session s' info' now))
     = listen_socket_address info.
Proof using interval_ignores_memo.
  intros Htor Hout [-> | ->].
  - destruct (candidate_memo session s' info now) as [H1 H2].
    split; [|by split].
    unfold is_peer_candidate, peer_is_in_use. by rewrite Htor, Hout.
  - destruct (GetPeersFacts.is_blocklisted_keeps session info) as (Hsa & Hseed & Hban & Hconn).
    assert (Hc : is_connectable (snd (is_blocklisted session info)) = is_connectable info).
    { unfold is_blocklisted. by destruct (blocklisted_ info). }
    unfold is_peer_candidate, peer_is_in_use.
    rewrite Htor, Hout, Hsa, Hseed, Hconn, Hc, GetPeersFacts.is_blocklisted_again, Hban,
      interval_ignores_memo.
    destruct (match is_connectable info with Some false => true | _ => false end);
      [split; [done | split; [by right | done]]|].
    destruct (is_done (tor s) && is_seed info); [split; [done | split; [by right | done]]|].
    destruct (is_connected info || _); [split; [done | split; [by right | done]]|].
    destruct (negb _); [split; [done | split; [by right | done]]|].
    destruct (fst (is_blocklisted session info)); [split; [done | split; [by right | done]]|].
    destruct (is_banned info); (split; [done | split; [by right | done]]).
Qed.


Lemma candidate_step_inv session now salter (Q : peer_candidate -> Prop) s sk cands n entry :
  (forall c, candidate_tor c = tor_id (tor s) ->
             is_candidate_of reconnect_interval_has_passed session now s (candidate_address c) ->
             Q c) ->
  connectable_pool s !! fst entry = Some (snd entry) ->
  memo_step session s sk ->
  Forall Q cands ->
  Forall Q (fst (fst (candidate_step reconnect_interval_has_passed session now salter
                        (cands, n, sk) entry)))
  /\ memo_step session s
       (snd (candidate_step reconnect_interval_has_passed session now salter
               (cands, n, sk) entry)).
Proof using interval_ignores_memo.
  intros HQ Hkey (Htor & Hout & Hinfos) Hcands.
  unfold candidate_step. simpl.
  pose proof (Hinfos (snd entry)) as Hp.
  destruct (infos s !! snd entry) as [info|] eqn:E.
  - destruct Hp as (info' & Hsk & Hmemo). rewrite Hsk.
    destruct (candidate_stable session s sk info info' now Htor Hout Hmemo)
      as (Hfst & Hsnd & Hsa).
    assert (Hstep : memo_step session s
              (with_infos
                 (<[snd entry := snd (is_peer_candidate reconnect_interval_has_passed session
                                        sk info' now)]> (infos sk)) sk)).
    { split; [done | split; [done|]]. intros q. simpl.
      rewrite lookup_insert. case_decide; subst.
      - rewrite E. by eexists.
      - apply Hinfos. }
    destruct (fst (is_peer_candidate reconnect_interval_has_passed session sk info' now))
      eqn:Hcand; simpl; [|by split].
    split; [|done]. apply Forall_app. split; [done|]. constructor; [|constructor].
    apply HQ; simpl; [by rewrite Htor|].
    exists (fst entry), (snd entry), info. rewrite Hsa. repeat split; try done; congruence.
  - rewrite Hp. simpl. split; [done|]. by split.
Qed.

Lemma candidate_fold_inv session now salter (Q : peer_candidate -> Prop) s l sk cands n :
  (forall c, candidate_tor c = tor_id (tor s) ->
             is_candidate_of reconnect_interval_has_passed session now s (candidate_address c) ->
             Q c) ->
  (forall entry, entry ∈ l -> connectable_pool s !! fst entry = Some (snd entry)) ->
  memo_step session s sk ->
  Forall Q cands ->
  Forall Q (fst (fst (fold_left (candidate_step reconnect_interval_has_passed session now salter)
                        l (cands, n, sk)))).
Proof using interval_ignores_memo.
  intros HQ. revert sk cands n. induction l as [|entry l IH]; intros sk cands n Hl Hmemo Hc;
    simpl; [done|].
  destruct (candidate_step_inv session now salter Q s sk cands n entry HQ) as [H1 H2];
    [apply Hl; by left | done | done |].
  destruct (candidate_step reconnect_interval_has_passed session now salter (cands, n, sk) entry)
    as [[cands' n'] sk'].
  apply IH; [|done|done]. intros e He. apply Hl. by right.
Qed.

Lemma swarm_candidates_inv session now salter (Q : peer_candidate -> Prop) s cands n :
  (is_running s = true ->
   forall c, candidate_tor c = tor_id (tor s) ->
             is_candidate_of reconnect_interval_has_passed session now s (candidate_address c) ->
             Q c) ->
  Forall Q cands ->
  Forall Q (fst (fst (swarm_candidates reconnect_interval_has_passed session now salter
                        (cands, n) s))).
Proof using interval_ignores_memo.
  intros HQ Hc. unfold swarm_candidates.
  destruct (is_running s) eqn:Hrun; simpl; [|done].
  set (all_seeds := if is_done (tor s) then is_all_seeds s else (false, s)).
  assert (Hs1 : tor (snd all_seeds) = tor s
                /\ outgoing_handshakes (snd all_seeds) = outgoing_handshakes s
                /\ infos (snd all_seeds) = infos s
                /\ connectable_pool (snd all_seeds) = connectable_pool s).
  { unfold all_seeds, is_all_seeds.
    destruct (is_done (tor s)); [|done]. by destruct (pool_is_all_seeds_ s). }
  destruct Hs1 as (T1 & T2 & T3 & T4).
  destruct (is_done (tor s) && fst all_seeds && negb (allows_pex (tor (snd all_seeds))));
    [done|].
  destruct (Nat.leb _ _); [done|].
  destruct (is_done (tor s) && upload_is_maxed_out (tor (snd all_seeds))); [done|].
  apply (candidate_fold_inv session now salter Q s); [by apply HQ| | |done].
  - intros [key p] He. rewrite T4 in He. by apply elem_of_map_to_list in He.
  - split; [done | split; [done|]]. intros p. rewrite T3.
    destruct (infos s !! p) as [info|]; [|done]. exists info. split; [done | by left].
Qed.

Lemma collect_candidates_inv session now salter (Q : peer_candidate -> Prop) ts :
  (forall s, s ∈ ts -> is_running s = true ->
     forall c, candidate_tor c = tor_id (tor s) ->
               is_candidate_of reconnect_interval_has_passed session now s (candidate_address c) ->
               Q c) ->
  Forall Q (fst (collect_candidates reconnect_interval_has_passed session now salter ts)).
Proof using interval_ignores_memo.
  intros HQ. unfold collect_candidates.
  assert (Hgen : forall (acc : list peer_candidate * nat * list tr_swarm),
            Forall Q (fst (fst acc)) ->
            Forall Q
              (fst (fst (fold_left
                 (fun (acc : list peer_candidate * nat * list tr_swarm) s =>
                    let c := swarm_candidates reconnect_interval_has_passed session now salter
                               (fst acc) s in
                    (fst c, snd acc ++ [snd c]))
                 ts acc)))).
  { induction ts as [|s ts IH]; intros acc Hacc; simpl; [done|].
    apply IH.
    - intros s' Hs'. apply HQ. by right.
    - simpl. destruct acc as [[cands n] done_]. simpl in *.
      apply swarm_candidates_inv; [|done]. apply HQ. by left. }
  by apply Hgen.
Qed.

End Candidates.

End CandidateFacts.

(** X22: every entry of a freshly built candidate list names a peer
    worth dialling.  Each entry that [get_peer_candidates] returns carries
    the torrent id of a running swarm of the session and the listen address
    of a record of that swarm's [connectable_pool] which [is_peer_candidate]
    accepts at that time: not known to be unreachable, not a seed while we
    are done, neither connected nor in a handshake, past its reconnect
    interval, not blocklisted and not banned.  (The reconnect interval is
    assumed not to depend on the blocklist memo of the record.) *)
Theorem fresh_candidates_are_worth_dialling
    (reconnect_interval_has_passed : tr_peer_info -> Z -> bool)
    (now : Z) (salter : nat -> N) (mgr : tr_peerMgr) :
  (forall session info now,
     reconnect_interval_has_passed (snd (is_blocklisted session info)) now
     = reconnect_interval_has_passed info now) ->
  Forall (names_a_candidate reconnect_interval_has_passed now mgr)
         (fst (get_peer_candidates reconnect_interval_has_passed now salter mgr)).
Proof.
  intros Hrihp. unfold get_peer_candidates.
  destruct (Nat.leb _ _); simpl; [constructor|].
  pose proof (CandidateFacts.collect_candidates_inv reconnect_interval_has_passed Hrihp
                (session mgr) now salter
                (fun c => names_a_candidate reconnect_interval_has_passed now mgr
                            (candidate_key c))
                (torrents mgr)) as Hall.
  unfold best_candidates_last. apply Forall_fmap, Forall_rev.
  assert (Hcands : Forall (fun c => names_a_candidate reconnect_interval_has_passed now mgr
                                      (candidate_key c))
                     (fst (collect_candidates reconnect_interval_has_passed (session mgr) now
                             salter (torrents mgr)))).
  { apply Hall. intros s Hs Hrun c Htor Hcand. exists s. by repeat split. }
  destruct (Nat.ltb _ _); [|exact Hcands].
  apply Forall_take. by rewrite (SortFacts.sort_by_perm score_lt).
Qed.

Lemma fresh_candidates_are_worth_dialling_witness :
  Forall (names_a_candidate (fun _ _ => true) 1000 sample_dial_mgr)
         (fst (get_peer_candidates (fun _ _ => true) 1000 N.of_nat sample_dial_mgr)).
Proof.
  apply (fresh_candidates_are_worth_dialling (fun _ _ => true) 1000 N.of_nat sample_dial_mgr).
  intros session info now. reflexivity.
Defined.

Module StrikeFacts.


End StrikeFacts.



Module FlagFacts.
Import Ascii PeerStats.

Lemma put_sublist b c : sublist (put b c) [c].
Proof. unfold put. destruct b; [done | by apply sublist_nil_l]. Qed.

Lemma choice_sublist (b1 b2 : bool) (c1 c2 : ascii) :
  sublist (if b1 then [c1] else put b2 c2) [c1; c2].
Proof.
  unfold put. destruct b1, b2.
  - apply sublist_skip, sublist_nil_l.
  - apply sublist_skip, sublist_nil_l.
  - apply sublist_cons, sublist_skip, sublist_nil.
  - apply sublist_nil_l.
Qed.

Lemma put_length b c : length (put b c) <= 1.
Proof. unfold put. destruct b; simpl; lia. Qed.

Lemma choice_length (b1 b2 : bool) (c1 c2 : ascii) :
  length (if b1 then [c1] else put b2 c2) <= 1.
Proof. unfold put. destruct b1, b2; simpl; lia. Qed.

Lemma elem_of_put x b c : x ∈ put b c <-> b = true /\ x = c.
Proof.
  unfold put. destruct b.
  - rewrite list_elem_of_singleton. tauto.
  - split; [intros H; by apply elem_of_nil in H | by intros [? _]].
Qed.

Lemma elem_of_choice x (b1 b2 : bool) (c1 c2 : ascii) :
  x ∈ (if b1 then [c1] else put b2 c2)
  <-> (b1 = true /\ x = c1) \/ (b1 = false /\ b2 = true /\ x = c2).
Proof.
  destruct b1.
  - rewrite list_elem_of_singleton. intuition congruence.
  - rewrite elem_of_put. intuition congruence.
Qed.

Lemma elem_of_flagStr x stats o :
  x ∈ flagStr stats o
  <-> (isUTP stats = true /\ x = "T"%char)
      \/ (o = true /\ x = "O"%char)
      \/ ((isDownloadingFrom stats = true /\ x = "D"%char)
          \/ (isDownloadingFrom stats = false /\ clientIsInterested stats = true
              /\ x = "d"%char))
      \/ ((isUploadingTo stats = true /\ x = "U"%char)
          \/ (isUploadingTo stats = false /\ peerIsInterested stats = true /\ x = "u"%char))
      \/ (negb (clientIsChoked stats) && negb (clientIsInterested stats) = true
          /\ x = "K"%char)
      \/ (negb (peerIsChoked stats) && negb (peerIsInterested stats) = true /\ x = "?"%char)
      \/ (isEncrypted stats = true /\ x = "E"%char)
      \/ ((N.eqb (from stats) TR_PEER_FROM_DHT = true /\ x = "H"%char)
          \/ (N.eqb (from stats) TR_PEER_FROM_DHT = false
              /\ N.eqb (from stats) TR_PEER_FROM_PEX = true /\ x = "X"%char))
      \/ (isIncoming stats = true /\ x = "I"%char).
Proof.
  unfold flagStr. by rewrite !elem_of_app, !elem_of_put, !elem_of_choice.
Qed.

Lemma flagStr_sublist stats o : sublist (flagStr stats o) all_flags.
Proof.
  unfold flagStr.
  change all_flags
    with (["T"%char] ++ ["O"%char] ++ ["D"%char; "d"%char] ++ ["U"%char; "u"%char]
          ++ ["K"%char] ++ ["?"%char] ++ ["E"%char] ++ ["H"%char; "X"%char] ++ ["I"%char]).
  repeat (apply sublist_app; [first [apply put_sublist | apply choice_sublist]|]).
  apply put_sublist.
Qed.

Lemma flagStr_length stats o : length (flagStr stats o) <= 9.
Proof.
  unfold flagStr. rewrite !length_app.
  pose proof (put_length (isUTP stats) "T").
  pose proof (put_length o "O").
  pose proof (choice_length (isDownloadingFrom stats) (clientIsInterested stats) "D" "d").
  pose proof (choice_length (isUploadingTo stats) (peerIsInterested stats) "U" "u").
  pose proof (put_length (negb (clientIsChoked stats) && negb (clientIsInterested stats)) "K").
  pose proof (put_length (negb (peerIsChoked stats) && negb (peerIsInterested stats)) "?").
  pose proof (put_length (isEncrypted stats) "E").
  pose proof (choice_length (N.eqb (from stats) TR_PEER_FROM_DHT)
                (N.eqb (from stats) TR_PEER_FROM_PEX) "H" "X").
  pose proof (put_length (isIncoming stats) "I").
  lia.
Qed.

End FlagFacts.

(** X24: the flag string of [get_peer_stats] is made of the characters
    [T O D d U u K ? E H X I], each at most once and in this order; it
    never has both of [D] and [d], of [U] and [u], or of [H] and [X], so it
    has at most 9 characters; and it has [O] exactly for the optimistic
    peer of the swarm. *)
Theorem flagStr_is_an_ordered_selection_of_flags
    (stats : PeerStats.tr_peer_stat) (is_optimistic : bool) :
  sublist (PeerStats.flagStr stats is_optimistic) PeerStats.all_flags
  /\ length (PeerStats.flagStr stats is_optimistic) <= 9
  /\ ~ (PeerStats.flag_D ∈ PeerStats.flagStr stats is_optimistic
        /\ PeerStats.flag_d ∈ PeerStats.flagStr stats is_optimistic)
  /\ ~ (PeerStats.flag_U ∈ PeerStats.flagStr stats is_optimistic
        /\ PeerStats.flag_u ∈ PeerStats.flagStr stats is_optimistic)
  /\ ~ (PeerStats.flag_H ∈ PeerStats.flagStr stats is_optimistic
        /\ PeerStats.flag_X ∈ PeerStats.flagStr stats is_optimistic)
  /\ (PeerStats.flag_O ∈ PeerStats.flagStr stats is_optimistic <-> is_optimistic = true).
Proof.
  split; [apply FlagFacts.flagStr_sublist|]. split; [apply FlagFacts.flagStr_length|].
  rewrite !FlagFacts.elem_of_flagStr.
  unfold PeerStats.flag_D, PeerStats.flag_d, PeerStats.flag_U, PeerStats.flag_u,
    PeerStats.flag_H, PeerStats.flag_X, PeerStats.flag_O.
  repeat split; intuition (try discriminate; try congruence).
Qed.

(** X25: learning a listen port without a collision moves the record and
    keeps the object.  When a connected peer announces a non-empty port
    that differs from the one on record and [connectable_pool] has no entry
    for the peer's address with that port, the peer's record is taken from
    its pool (from [incoming_pool] under the peer's socket address if its
    listen port was not known, else from [connectable_pool] under its old
    listen address) and entered in [connectable_pool] under the address
    with the announced port.  It is the same object, so the pointer the
    peer holds stays valid; it now has the announced listen port, and is
    marked connectable if it came from [incoming_pool].  Peers and
    [graveyard_pool] are untouched and the all-seeds memo is reset. *)
Theorem port_announcement_moves_the_record
    (merge : tr_peer_info -> tr_peer_info -> tr_peer_info)
    (s : tr_swarm) (m : peer_ptr) (event_port : tr_port)
    (this : tr_peerMsgs) (info : tr_peer_info) :
  let was_connectable := negb (port_empty (listen_port info)) in
  find_peer m (peers s) = Some this ->
  infos s !! peer_info this = Some info ->
  port_empty event_port = false ->
  event_port <> listen_port info ->
  connectable_pool s !! (listen_address info, event_port) = None ->
  (if was_connectable
   then connectable_pool s !! listen_socket_address info = Some (peer_info this)
   else incoming_pool s !! socket_address this = Some (peer_info this)
        /\ fst (socket_address this) = listen_address info) ->
  exists s',
    client_got_port merge m event_port s = Some s'
    /\ connectable_pool s'
       = <[(listen_address info, event_port) := peer_info this]>
           (if was_connectable then delete (listen_socket_address info) (connectable_pool s)
            else connectable_pool s)
    /\ incoming_pool s'
       = (if was_connectable then incoming_pool s
          else delete (socket_address this) (incoming_pool s))
    /\ infos s'
       = <[peer_info this :=
             set_listen_port event_port
               (if was_connectable then info else set_connectable true info)]> (infos s)
    /\ graveyard_pool s' = graveyard_pool s
    /\ peers s' = peers s
    /\ pool_is_all_seeds_ s' = None.
Proof.
  intros was_connectable Hthis Hinfo Hport Hnew Hfree Hhome.
  unfold client_got_port. rewrite Hport, Hthis. simpl. rewrite Hinfo. simpl.
  assert (Hneq : N.eqb (listen_port info) event_port = false).
  { apply N.eqb_neq. congruence. }
  unfold was_connectable in *.
  destruct (port_empty (listen_port info)) eqn:Hknown; simpl in *.
  - destruct Hhome as [Hhome Haddr].
    unfold on_got_port. rewrite Hthis. simpl. rewrite Hinfo. simpl. rewrite Hfree. simpl.
    rewrite lookup_alter_eq, Hinfo. simpl. rewrite Hhome. simpl.
    rewrite Haddr, Hfree.
    eexists. split; [reflexivity|]. simpl.
    repeat split; try done.
    apply map_eq. intros q. rewrite lookup_alter.
    destruct (decide (peer_info this = q)) as [<-|Hq].
    + by rewrite lookup_alter_eq, Hinfo, lookup_insert_eq.
    + by rewrite (lookup_alter_ne _ _ _ _ Hq), (lookup_insert_ne _ _ _ _ Hq).
  - rewrite Hneq. simpl.
    unfold on_got_port. rewrite Hthis. simpl. rewrite Hinfo. simpl. rewrite Hfree. simpl.
    rewrite Hinfo. simpl. rewrite Hhome. simpl.
    assert (Hkeys : listen_socket_address info <> (listen_address info, event_port)).
    { unfold listen_socket_address. congruence. }
    rewrite (lookup_delete_ne _ _ _ Hkeys), Hfree.
    eexists. split; [reflexivity|]. simpl.
    repeat split; try done.
    apply map_eq. intros q. rewrite lookup_alter.
    destruct (decide (peer_info this = q)) as [<-|Hq].
    + by rewrite Hinfo, lookup_insert_eq.
    + by rewrite (lookup_insert_ne _ _ _ _ Hq).
Qed.

Lemma port_announcement_moves_the_record_witness :
  exists s',
    client_got_port merge_model 2 51413%N
      (with_connectable_pool ∅ sample_port_swarm) = Some s'
    /\ connectable_pool s' = {[ (sample_ip, 51413%N) := 20 ]}
    /\ incoming_pool s' = ∅.
Proof.
  destruct (port_announcement_moves_the_record merge_model
              (with_connectable_pool ∅ sample_port_swarm) 2 51413%N
              sample_peer_B sample_info_B eq_refl eq_refl eq_refl)
    as (s' & Hrun & Hconn & Hinc & _).
  - discriminate.
  - reflexivity.
  - split; reflexivity.
  - exists s'. split; [exact Hrun|]. split.
    + rewrite Hconn. reflexivity.
    + rewrite Hinc. vm_compute. reflexivity.
Defined.

(** ** Memo resets *)

Module MemoFacts.

Lemma for_each_entries f (entries : list (tr_socket_address * nat))
    (store : gmap nat tr_peer_info) p :
  (forall i, f (f i) = f i) ->
  fold_left (fun st entry => alter f (snd entry) st) entries store !! p
  = if bool_decide (p ∈ snd <$> entries) then f <$> store !! p else store !! p.
Proof.
  intros Hidem. revert store.
  induction entries as [|e entries IH]; intros store; cbn [fold_left].
  - rewrite bool_decide_eq_false_2; [done | apply not_elem_of_nil].
  - rewrite IH, fmap_cons.
    destruct (decide (snd e = p)) as [<-|Hne].
    + rewrite lookup_alter_eq.
      rewrite (bool_decide_eq_true_2 (snd e ∈ snd e :: (snd <$> entries)))
        by (apply elem_of_cons; by left).
      case_bool_decide; [|done].
      destruct (store !! snd e); simpl; [by rewrite Hidem | done].
    + rewrite (lookup_alter_ne _ _ _ _ Hne).
      case_bool_decide as H1; case_bool_decide as H2; try done.
      * exfalso. apply H2. apply elem_of_cons. by right.
      * exfalso. apply elem_of_cons in H2 as [?|?]; [congruence | done].
Qed.

Lemma in_pool_range (pool : gmap tr_socket_address nat) p :
  p ∈ snd <$> map_to_list pool <-> exists key, pool !! key = Some p.
Proof.
  rewrite list_elem_of_fmap. split.
  - intros ([key q] & -> & Hin). exists key. by apply elem_of_map_to_list.
  - intros (key & Hkey). exists (key, p). split; [done|]. by apply elem_of_map_to_list.
Qed.

Lemma for_each_record_pooled f pool (store : gmap nat tr_peer_info) key p :
  (forall i, f (f i) = f i) -> pool !! key = Some p ->
  for_each_record f pool store !! p = f <$> store !! p.
Proof.
  intros Hidem Hkey. unfold for_each_record. rewrite for_each_entries by done.
  rewrite bool_decide_eq_true_2; [done|]. apply in_pool_range. by exists key.
Qed.

Lemma for_each_record_other f pool (store : gmap nat tr_peer_info) p :
  (forall i, f (f i) = f i) -> (forall key, pool !! key <> Some p) ->
  for_each_record f pool store !! p = store !! p.
Proof.
  intros Hidem Hkey. unfold for_each_record. rewrite for_each_entries by done.
  rewrite bool_decide_eq_false_2; [done|].
  intros (key & H)%in_pool_range. by apply (Hkey key).
Qed.

Lemma for_each_record_either f pool (store : gmap nat tr_peer_info) p :
  (forall i, f (f i) = f i) ->
  for_each_record f pool store !! p = f <$> store !! p
  \/ for_each_record f pool store !! p = store !! p.
Proof.
  intros Hidem. unfold for_each_record. rewrite for_each_entries by done.
  case_bool_decide; [by left | by right].
Qed.

End MemoFacts.

(** X26: a change of the blocklist is seen by every pooled record.
    [on_blocklist_changed] resets the blocklist memo of every record of
    [connectable_pool] and of [incoming_pool] of every swarm, so the next
    [is_blocklisted] of such a record answers what the session's blocklist
    says about its address at that time, whatever had been remembered.
    Nothing else of the record changes; the records that are in neither
    pool, those of [graveyard_pool] among them, keep their memo; pools and
    peers stay as they are. *)
Theorem on_blocklist_changed_forgets_the_pooled_answers (mgr : tr_peerMgr) :
  session (on_blocklist_changed mgr) = session mgr
  /\ Forall2
       (fun s s' =>
          same_apart_from_records s s'
          /\ connectable_pool s' = connectable_pool s
          /\ (forall key p info,
                 connectable_pool s !! key = Some p \/ incoming_pool s !! key = Some p ->
                 infos s !! p = Some info ->
                 infos s' !! p = Some (set_blocklisted None info)
                 /\ forall later : tr_session,
                      fst (is_blocklisted later (set_blocklisted None info))
                      = addressIsBlocked later (listen_address info))
          /\ (forall p,
                 (forall key, connectable_pool s !! key <> Some p
                              /\ incoming_pool s !! key <> Some p) ->
                 infos s' !! p = infos s !! p))
       (torrents mgr) (torrents (on_blocklist_changed mgr)).
Proof.
  split; [done|]. unfold on_blocklist_changed. simpl.
  apply Forall2_fmap_r, Forall_Forall2_diag, Forall_forall. intros s _.
  assert (Hidem : forall i, set_blocklisted_dirty (set_blocklisted_dirty i)
                            = set_blocklisted_dirty i) by done.
  split; [by repeat split|]. split; [done|]. split.
  - intros key p info Hpooled Hinfo. split; [|done].
    unfold swarm_blocklist_changed. simpl.
    destruct Hpooled as [Hc | Hi].
    + destruct (MemoFacts.for_each_record_either set_blocklisted_dirty (incoming_pool s)
                  (for_each_record set_blocklisted_dirty (connectable_pool s) (infos s))
                  p Hidem) as [-> | ->];
        by rewrite (MemoFacts.for_each_record_pooled _ _ _ key), Hinfo.
    + rewrite (MemoFacts.for_each_record_pooled _ _ _ key) by done.
      destruct (MemoFacts.for_each_record_either set_blocklisted_dirty (connectable_pool s)
                  (infos s) p Hidem) as [-> | ->]; by rewrite Hinfo.
  - intros p Hout. unfold swarm_blocklist_changed. simpl.
    rewrite !MemoFacts.for_each_record_other; try done; intros key; by destruct (Hout key).
Qed.

Module SeedFacts.

Lemma mark_fold_infos (entries : list (tr_socket_address * nat)) s :
  let s' := fold_left (fun s1 entry => mark_peer_as_seed (snd entry) s1) entries s in
  infos s' = fold_left (fun st entry => alter set_seed (snd entry) st) entries (infos s)
  /\ connectable_pool s' = connectable_pool s
  /\ same_apart_from_records s s'
  /\ optimistic s' = optimistic s
  /\ is_endgame_ s' = is_endgame_ s.
Proof.
  revert s. induction entries as [|e entries IH]; intros s; cbn [fold_left].
  - by repeat split.
  - destruct (IH (mark_peer_as_seed (snd e) s)) as (H1 & H2 & H3 & H4 & H5).
    cbn zeta in *. rewrite H1, H2, H4, H5. split; [done|]. split; [done|].
    split; [|done]. destruct H3 as (?&?&?&?&?&?&?&?). by repeat split.
Qed.

Lemma with_infos_same s : with_infos (infos s) s = s.
Proof. by destruct s. Qed.

End SeedFacts.

(** X27: a swarm told to be all seeds is all seeds, and a finished torrent
    dials nobody in it.  [on_swarm_is_all_seeds] marks every record of
    [connectable_pool] as a seed and resets the all-seeds memo, so the next
    [is_all_seeds] answers yes; the pools, the peers and the records of
    the other pools stay as they are.  If the torrent is done, the loop of
    [get_peer_candidates] then takes no candidate from the swarm, with
    peer exchange allowed or not. *)
Theorem all_seeds_swarm_is_not_dialled
    (reconnect_interval_has_passed : tr_peer_info -> Z -> bool)
    (session : tr_session) (now : Z) (salter : nat -> N)
    (acc : list peer_candidate * nat) (s : tr_swarm) :
  pool_nodes_alive (connectable_pool s) s ->
  let s' := on_swarm_is_all_seeds s in
  fst (is_all_seeds s') = true
  /\ connectable_pool s' = connectable_pool s
  /\ same_apart_from_records s s'
  /\ (forall key p info,
        connectable_pool s !! key = Some p -> infos s !! p = Some info ->
        infos s' !! p = Some (set_seed info))
  /\ (forall p, (forall key, connectable_pool s !! key <> Some p) ->
                infos s' !! p = infos s !! p)
  /\ (is_done (tor s) = true ->
      fst (swarm_candidates reconnect_interval_has_passed session now salter acc s') = acc).
Proof.
  intros Halive s'.
  destruct (SeedFacts.mark_fold_infos (map_to_list (connectable_pool s)) s)
    as (Hinfos & Hpool & Hsame & _).
  cbn zeta in *.
  assert (Hidem : forall i, set_seed (set_seed i) = set_seed i) by done.
  assert (Hinfos' : infos s' = for_each_record set_seed (connectable_pool s) (infos s)).
  { unfold s', on_swarm_is_all_seeds. simpl. exact Hinfos. }
  assert (Hpool' : connectable_pool s' = connectable_pool s).
  { unfold s', on_swarm_is_all_seeds. simpl. exact Hpool. }
  assert (Hsame' : same_apart_from_records s s').
  { unfold s', on_swarm_is_all_seeds.
    destruct Hsame as (?&?&?&?&?&?&?&?). by repeat split. }
  assert (Hmemo : pool_is_all_seeds_ s' = None) by done.
  assert (Htor : tor s' = tor s) by (by destruct Hsame' as (?&?&?&?&?&?&?&?)).
  clearbody s'. clear Hinfos Hpool Hsame.
  assert (Hmarked : forall key p info,
             connectable_pool s !! key = Some p -> infos s !! p = Some info ->
             infos s' !! p = Some (set_seed info)).
  { intros key p info Hkey Hinfo.
    by rewrite Hinfos', (MemoFacts.for_each_record_pooled _ _ _ key), Hinfo. }
  assert (Hseeds : forall key p, connectable_pool s' !! key = Some p ->
             exists info, infos s' !! p = Some info /\ is_seed info = true).
  { intros key p Hkey. rewrite Hpool' in Hkey.
    destruct (Halive key p Hkey) as [info Hinfo].
    exists (set_seed info). split; [by eapply Hmarked | done]. }
  assert (Hall : forallb
            (fun entry => match infos s' !! snd entry with
                          | Some info => is_seed info
                          | None => false
                          end) (map_to_list (connectable_pool s')) = true).
  { apply forallb_forall. intros [key p] Hin%list_elem_of_In%elem_of_map_to_list.
    destruct (Hseeds key p Hin) as (info & Hinfo & Hseed). cbn [snd]. by rewrite Hinfo. }
  assert (Hyes : fst (is_all_seeds s') = true).
  { unfold is_all_seeds. rewrite Hmemo. simpl. exact Hall. }
  split; [exact Hyes|]. split; [exact Hpool'|]. split; [exact Hsame'|].
  split; [exact Hmarked|]. split.
  { intros p Hout. rewrite Hinfos'. by apply MemoFacts.for_each_record_other. }
  intros Hdone.
  unfold swarm_candidates.
  destruct (is_running s'); simpl; [|done].
  rewrite Htor, Hdone. simpl.
  assert (Htor1 : tor (snd (is_all_seeds s')) = tor s).
  { unfold is_all_seeds. rewrite Hmemo. simpl. exact Htor. }
  rewrite Hyes, Htor1. simpl.
  destruct (allows_pex (tor s)); simpl; [|done].
  destruct (Nat.leb _ _); [done|].
  destruct (upload_is_maxed_out (tor s)); [done|].
  set (s1 := snd (is_all_seeds s')).
  assert (Hs1 : infos s1 = infos s' /\ connectable_pool s1 = connectable_pool s').
  { unfold s1, is_all_seeds. rewrite Hmemo. done. }
  destruct Hs1 as [Hi1 Hp1].
  assert (Hseeds1 : forall e, e ∈ map_to_list (connectable_pool s1) ->
             exists info, infos s1 !! snd e = Some info /\ is_seed info = true).
  { intros [key p] Hin%elem_of_map_to_list. rewrite Hp1 in Hin. rewrite Hi1.
    by apply (Hseeds key). }
  assert (Hdone1 : is_done (tor s1) = true) by (unfold s1; by rewrite Htor1).
  clearbody s1.
  assert (Hfold : forall entries,
             (forall e, e ∈ entries ->
                exists info, infos s1 !! snd e = Some info /\ is_seed info = true) ->
             fold_left (candidate_step reconnect_interval_has_passed session now salter)
                       entries (acc, s1) = (acc, s1)).
  { induction entries as [|e entries IH]; intros He; [done|].
    cbn [fold_left].
    destruct (He e) as (info & Hinfo & Hseed); [by (apply elem_of_cons; left)|].
    assert (Hstep : candidate_step reconnect_interval_has_passed session now salter
                      (acc, s1) e = (acc, s1)).
    { unfold candidate_step. simpl. rewrite Hinfo.
      unfold is_peer_candidate. rewrite Hdone1, Hseed. simpl.
      destruct (match is_connectable info with Some false => true | _ => false end);
        simpl; rewrite (insert_id _ _ _ Hinfo), SeedFacts.with_infos_same;
        by destruct acc. }
    rewrite Hstep. apply IH. intros e' He'. apply He. apply elem_of_cons. by right. }
  by rewrite Hfold.
Qed.

Lemma all_seeds_swarm_is_not_dialled_witness :
  fst (is_all_seeds (on_swarm_is_all_seeds (sample_dial_swarm sample_done_torrent [1; 2; 3]%N))) = true
  /\ fst (swarm_candidates (fun _ _ => true) sample_session 0 (fun _ => 0%N) ([], 0)
            (on_swarm_is_all_seeds (sample_dial_swarm sample_done_torrent [1; 2; 3]%N))) = ([], 0).
Proof.
  assert (Halive : pool_nodes_alive (connectable_pool (sample_dial_swarm sample_done_torrent [1; 2; 3]%N)) (sample_dial_swarm sample_done_torrent [1; 2; 3]%N)).
  { apply (bool_decide_unpack
             (map_Forall (fun _ p => is_Some
                            (infos (sample_dial_swarm sample_done_torrent [1; 2; 3]%N) !! p))
                (connectable_pool (sample_dial_swarm sample_done_torrent [1; 2; 3]%N)))).
    vm_compute. exact I. }
  destruct (all_seeds_swarm_is_not_dialled (fun _ _ => true) sample_session 0
              (fun _ => 0%N) ([], 0) (sample_dial_swarm sample_done_torrent [1; 2; 3]%N) Halive)
    as (Hyes & _ & _ & _ & _ & Hnone).
  split; [exact Hyes | by apply Hnone].
Defined.

(** X28: a failed uTP handshake turns uTP off for that address.
    [set_utp_failed] on a torrent and an address of its [connectable_pool]
    marks the record as not supporting uTP and changes nothing else of the
    record, no other record, no pool and no peer.  From then on
    [initiate_connection] does not count on uTP for this record: in a
    session that does not allow TCP it makes no attempt and leaves the
    swarm as it is. *)
Theorem utp_failure_turns_utp_off
    (new_outgoing_ok : tr_socket_address -> bool) (now : Z)
    (mgr : tr_peerMgr) (hash : N) (sa : tr_socket_address)
    (s : tr_swarm) (p : nat) (info : tr_peer_info) :
  get_existing_swarm hash mgr = Some s ->
  connectable_pool s !! sa = Some p ->
  infos s !! p = Some info ->
  exists s',
    get_existing_swarm hash (set_utp_failed hash sa mgr) = Some s'
    /\ session (set_utp_failed hash sa mgr) = session mgr
    /\ same_apart_from_records s s'
    /\ connectable_pool s' = connectable_pool s
    /\ infos s' = <[p := set_utp_supported false info]> (infos s)
    /\ (allowsTCP (session mgr) = false ->
        initiate_connection new_outgoing_ok (session mgr) now p s' = (s', false)).
Proof.
  intros Hget Hpool Hinfo.
  unfold set_utp_failed, get_existing_peer_info. rewrite Hget, Hpool.
  eexists. split.
  { apply (AdmissionFacts.get_put_swarm _ s); [done|].
    simpl. by apply (AdmissionFacts.get_swarm_hash _ _ mgr). }
  split; [done|]. split; [by repeat split|]. split; [done|]. split.
  { simpl. apply map_eq. intros q. destruct (decide (p = q)) as [<-|Hq].
    - by rewrite lookup_alter_eq, Hinfo, lookup_insert_eq.
    - by rewrite (lookup_alter_ne _ _ _ _ Hq), (lookup_insert_ne _ _ _ _ Hq). }
  intros Htcp. unfold initiate_connection. simpl.
  rewrite lookup_alter_eq, Hinfo. simpl. rewrite Htcp.
  rewrite andb_false_r. simpl. by rewrite orb_true_r.
Qed.

Lemma utp_failure_turns_utp_off_witness :
  exists s',
    get_existing_swarm 1
      (set_utp_failed 1 (listen_socket_address (sample_candidate_info 1)) sample_dial_mgr)
    = Some s'
    /\ infos s' !! 1 = Some (set_utp_supported false (sample_candidate_info 1)).
Proof.
  destruct (utp_failure_turns_utp_off (fun _ => true) 0 sample_dial_mgr 1
              (listen_socket_address (sample_candidate_info 1))
              (sample_dial_swarm sample_low_torrent [1; 2; 3; 4; 5; 6; 7; 8; 9]%N)
              1 (sample_candidate_info 1) eq_refl)
    as (s' & Hget & _ & _ & _ & Hinfos & _).
  - vm_compute. reflexivity.
  - vm_compute. reflexivity.
  - exists s'. split; [exact Hget|]. rewrite Hinfos. apply lookup_insert_eq.
Defined.

(** ** The reconnect pulse *)

Module PulseFacts.

Lemma erase_peer_length m ps :
  m ∈ map msgs ps -> S (length (erase_peer m ps)) = length ps.
Proof.
  induction ps as [|p ps IH]; simpl; intros Hm; [by apply elem_of_nil in Hm|].
  destruct (Nat.eqb_spec (msgs p) m) as [E|E]; [done|].
  apply elem_of_cons in Hm as [Hm|Hm]; [congruence|].
  simpl. by rewrite IH.
Qed.

Lemma filter_sublist {A} (f : A -> bool) (l : list A) : sublist (List.filter f l) l.
Proof.
  induction l as [|x l IH]; simpl; [constructor|].
  destruct (f x); by constructor.
Qed.

Lemma some_peers_left_refl s : some_peers_left s s.
Proof. by repeat split. Qed.

Lemma some_peers_left_trans s1 s2 s3 :
  some_peers_left s1 s2 -> some_peers_left s2 s3 -> some_peers_left s1 s3.
Proof.
  intros (T1 & R1 & S1) (T2 & R2 & S2). repeat split; [congruence | congruence |].
  by transitivity (peers s2).
Qed.

Section Removal.

Variable peer_destroyed : tr_peer_info -> tr_peer_info.

Lemma remove_peer_safe a s :
  removal_is_safe s -> a ∈ peers s ->
  exists s1,
    remove_peer peer_destroyed a s = Some s1
    /\ removal_is_safe s1
    /\ peers s1 = List.filter (fun p => negb (Nat.eqb (msgs p) (msgs a))) (peers s)
    /\ S (peerCount s1) = peerCount s
    /\ (forall b, b ∈ peers s1 -> infos s1 !! peer_info b = infos s !! peer_info b)
    /\ tor s1 = tor s /\ is_running s1 = is_running s.
Proof.
  intros (Hnd & Halive & Hsafe & Hcount) Ha.
  destruct (Halive a Ha) as [ia Hia].
  destruct (LifecycleFacts.remove_peer_step peer_destroyed a ia s Hia) as (s1 & Hs1 & R).
  assert (Hpeers : peers s1
                   = List.filter (fun p => negb (Nat.eqb (msgs p) (msgs a))) (peers s)).
  { rewrite (rm_peers _ _ _ _ R). by apply LifecycleFacts.erase_peer_filter. }
  assert (Hin : forall b, b ∈ peers s1 -> b ∈ peers s /\ msgs a <> msgs b).
  { intros b Hb. rewrite Hpeers in Hb. apply CloseFacts.elem_of_filter_list in Hb as [Hb Hne].
    split; [done|]. apply negb_true_iff, Nat.eqb_neq in Hne. congruence. }
  assert (Hkeep : forall b, b ∈ peers s1 -> infos s1 !! peer_info b = infos s !! peer_info b).
  { intros b Hb. destruct (Hin b Hb) as [Hb' Hne].
    destruct (Hsafe a b ia Ha Hb' Hne Hia) as (N1 & N2 & N3).
    apply (rm_infos _ _ _ _ R); [congruence | done | done]. }
  assert (Hlen : S (peerCount s1) = peerCount s).
  { unfold peerCount. rewrite (rm_peers _ _ _ _ R). apply erase_peer_length.
    apply list_elem_of_fmap. by exists a. }
  destruct (rm_frame _ _ _ _ R) as (F1 & F2 & F3 & _).
  exists s1. split; [done|]. split; [|done].
  split; [rewrite Hpeers; by apply LifecycleFacts.NoDup_msgs_filter|].
  split; [intros b Hb; rewrite (Hkeep b Hb); apply Halive; by apply Hin|].
  split.
  - intros b c ib Hb Hc Hne Hib. rewrite (Hkeep b Hb) in Hib.
    destruct (Hsafe b c ib (proj1 (Hin b Hb)) (proj1 (Hin c Hc)) Hne Hib) as (N1 & N2 & N3).
    split; [done|]. split.
    + rewrite (rm_graveyard _ _ _ _ R).
      destruct (decide (listen_socket_address ia = listen_socket_address ib)) as [E|E].
      * rewrite E, lookup_delete_eq. done.
      * by rewrite (lookup_delete_ne _ _ _ E).
    + intros Hinc. rewrite (rm_incoming _ _ _ _ R).
      destruct (is_incoming_connection a); [|by apply N3].
      destruct (decide (socket_address a = socket_address b)) as [E|E].
      * rewrite E, lookup_delete_eq. done.
      * rewrite (lookup_delete_ne _ _ _ E). by apply N3.
  - rewrite (rm_count _ _ _ _ R), Hcount. lia.
Qed.

Lemma remove_peers_safe victims s :
  removal_is_safe s ->
  NoDup (map msgs victims) ->
  (forall v, v ∈ victims -> v ∈ peers s) ->
  exists s',
    remove_peers peer_destroyed victims s = Some s'
    /\ removal_is_safe s'
    /\ peers s'
       = List.filter (fun p => negb (bool_decide (msgs p ∈ map msgs victims))) (peers s)
    /\ peerCount s' + length victims = peerCount s
    /\ (forall b, b ∈ peers s' -> infos s' !! peer_info b = infos s !! peer_info b)
    /\ some_peers_left s s'.
Proof.
  revert s. induction victims as [|a victims IH]; intros s Hsafe Hnd Hin.
  - exists s. split; [done|]. split; [done|]. split.
    { symmetry. apply forallb_filter_id. by apply forallb_forall. }
    split; [simpl; lia|]. split; [done|]. apply some_peers_left_refl.
  - simpl in Hnd. apply NoDup_cons in Hnd as [Ha Hnd].
    destruct (remove_peer_safe a s Hsafe) as (s1 & Hs1 & Hsafe1 & Hp1 & Hc1 & Hk1 & T1 & R1).
    { apply Hin. by left. }
    destruct (IH s1 Hsafe1 Hnd) as (s' & Hs' & Hsafe' & Hp' & Hc' & Hk' & T' & R' & S').
    { intros v Hv. rewrite Hp1. apply CloseFacts.elem_of_filter_list.
      split; [apply Hin; by right|].
      apply negb_true_iff, Nat.eqb_neq. intros E. apply Ha. rewrite <- E.
      apply list_elem_of_fmap. by exists v. }
    assert (Hpeers : peers s'
              = List.filter (fun p => negb (bool_decide (msgs p ∈ map msgs (a :: victims))))
                  (peers s)).
    { rewrite Hp', Hp1. clear. induction (peers s) as [|p ps IHps]; simpl; [done|].
      destruct (Nat.eqb_spec (msgs p) (msgs a)) as [E|E]; simpl.
      - rewrite (bool_decide_eq_true_2 (msgs p ∈ msgs a :: map msgs victims))
          by (rewrite E; by left).
        simpl. exact IHps.
      - rewrite (bool_decide_ext (msgs p ∈ msgs a :: map msgs victims)
                   (msgs p ∈ map msgs victims)).
        + destruct (bool_decide _); simpl; [exact IHps | by rewrite IHps].
        + rewrite elem_of_cons. intuition congruence. }
    exists s'. split; [by rewrite LifecycleFacts.remove_peers_cons, Hs1|].
    split; [done|]. split; [done|]. split; [simpl; lia|]. split.
    + intros b Hb. rewrite (Hk' b Hb). apply Hk1.
      rewrite Hp' in Hb. by apply CloseFacts.elem_of_filter_list in Hb as [Hb _].
    + repeat split; [congruence | congruence |].
      rewrite Hpeers. apply filter_sublist.
Qed.

Lemma total_peer_count_insert ts i s s1 :
  ts !! i = Some s ->
  total_peer_count (<[i := s1]> ts) + peerCount s = total_peer_count ts + peerCount s1.
Proof.
  revert i. induction ts as [|t ts IH]; intros i Hi; [done|].
  destruct i as [|i]; simpl in *.
  - injection Hi as ->. lia.
  - specialize (IH i Hi). lia.
Qed.

Lemma close_peers_fold (V : list session_peer) ts :
  Forall removal_is_safe ts ->
  NoDup (map peer_tag V) ->
  (forall v, v ∈ V -> exists s, ts !! fst v = Some s /\ fst (snd v) ∈ peers s) ->
  exists ts',
    fold_left (fun acc victim => ts1 ← acc; close_peer peer_destroyed victim ts1) V (Some ts)
    = Some ts'
    /\ Forall removal_is_safe ts'
    /\ length ts' = length ts
    /\ total_peer_count ts' + length V = total_peer_count ts
    /\ (forall i s, ts !! i = Some s ->
          exists s', ts' !! i = Some s'
            /\ peers s'
               = List.filter (fun p => negb (bool_decide ((i, msgs p) ∈ map peer_tag V))) (peers s)
            /\ (forall b, b ∈ peers s' -> infos s' !! peer_info b = infos s !! peer_info b)
            /\ some_peers_left s s').
Proof.
  revert ts. induction V as [|[i [a ia]] V IH]; intros ts Hsafe Hnd Hin.
  - exists ts. split; [done|]. split; [done|]. split; [done|]. split; [simpl; lia|].
    intros i s Hi. exists s. split; [done|]. split.
    { symmetry. apply forallb_filter_id. by apply forallb_forall. }
    split; [done|]. apply some_peers_left_refl.
  - simpl in Hnd. apply NoDup_cons in Hnd as [Hv Hnd].
    destruct (Hin (i, (a, ia))) as (s & Hs & Ha); [by left|]. simpl in Hs, Ha.
    destruct (remove_peer_safe a s) as (s1 & Hs1 & Hsafe1 & Hp1 & Hc1 & Hk1 & T1 & R1);
      [by apply (proj1 (Forall_lookup _ _) Hsafe i) | done |].
    set (ts1 := <[i := s1]> ts).
    assert (Hi_lt : i < length ts) by (by apply lookup_lt_Some in Hs).
    destruct (IH ts1) as (ts' & Hfold & Hsafe' & Hlen' & Hcount' & Hall').
    { by apply Forall_insert. }
    { done. }
    { intros [j [b ib]] Hb. simpl.
      destruct (Hin (j, (b, ib))) as (t & Ht & Hbt); [by right|]. simpl in Ht, Hbt.
      destruct (decide (j = i)) as [->|Hji].
      - exists s1. unfold ts1. rewrite list_lookup_insert_eq by done. split; [done|].
        assert (t = s) as -> by congruence.
        rewrite Hp1. apply CloseFacts.elem_of_filter_list. split; [done|].
        apply negb_true_iff, Nat.eqb_neq. intros E. apply Hv.
        apply list_elem_of_fmap. exists (i, (b, ib)). split; [|done].
        unfold peer_tag. simpl. by rewrite E.
      - exists t. unfold ts1. by rewrite list_lookup_insert_ne. }
    exists ts'. split.
    { cbn [fold_left]. unfold close_peer at 2. simpl. rewrite Hs. simpl. rewrite Hs1. simpl.
      exact Hfold. }
    split; [done|]. split; [rewrite Hlen'; unfold ts1; by rewrite length_insert|]. split.
    { pose proof (total_peer_count_insert ts i s s1 Hs) as Hins. fold ts1 in Hins.
      simpl. lia. }
    intros j t Ht.
    destruct (decide (j = i)) as [->|Hji].
    + assert (t = s) as -> by congruence.
      destruct (Hall' i s1) as (s' & Hs' & Hp' & Hk' & L').
      { unfold ts1. by rewrite list_lookup_insert_eq. }
      exists s'. split; [done|].
      assert (Hpeers : peers s'
                = List.filter
                    (fun p => negb (bool_decide ((i, msgs p) ∈ map peer_tag ((i, (a, ia)) :: V))))
                    (peers s)).
      { rewrite Hp', Hp1. clear. induction (peers s) as [|p ps IHps]; simpl; [done|].
        destruct (Nat.eqb_spec (msgs p) (msgs a)) as [E|E]; simpl.
        - rewrite (bool_decide_eq_true_2 ((i, msgs p) ∈ peer_tag (i, (a, ia)) :: map peer_tag V))
            by (unfold peer_tag; simpl; rewrite E; by left).
          simpl. exact IHps.
        - rewrite (bool_decide_ext ((i, msgs p) ∈ peer_tag (i, (a, ia)) :: map peer_tag V)
                     ((i, msgs p) ∈ map peer_tag V)).
          + destruct (bool_decide _); simpl; [exact IHps | by rewrite IHps].
          + rewrite elem_of_cons. unfold peer_tag at 1. simpl. intuition congruence. }
      split; [done|]. split.
      * intros b Hb. rewrite (Hk' b Hb). apply Hk1.
        rewrite Hp' in Hb. by apply CloseFacts.elem_of_filter_list in Hb as [Hb _].
      * apply (some_peers_left_trans s s1 s'); [|done].
        repeat split; [done | done |]. rewrite Hp1. apply filter_sublist.
    + destruct (Hall' j t) as (s' & Hs' & Hp' & Hk' & L').
      { unfold ts1. by rewrite list_lookup_insert_ne. }
      exists s'. split; [done|]. split; [|done].
      rewrite Hp'. apply filter_ext_in. intros p _. f_equal. apply bool_decide_ext.
      simpl. rewrite elem_of_cons. unfold peer_tag at 2. simpl. intuition congruence.
Qed.

End Removal.

End PulseFacts.

Module SessionLimitFacts.

Lemma most_active_first_asym a b :
  most_active_first a b = true -> most_active_first b a = false.
Proof. intros H. by apply (LimitFacts.least_active_asym (snd b) (snd a)). Qed.

Lemma most_active_first_negtrans a b c :
  most_active_first a b = false -> most_active_first b c = false ->
  most_active_first a c = false.
Proof.
  intros H1 H2. by apply (LimitFacts.least_active_negtrans (snd c) (snd b) (snd a)).
Qed.

(** What [all_peers] holds: every peer of every swarm, once, with its
    record. *)
Lemma all_peers_spec k ts :
  Forall removal_is_safe ts ->
  exists all,
    all_peers k ts = Some all
    /\ length all = total_peer_count ts
    /\ NoDup (map peer_tag all)
    /\ (forall v, v ∈ all <->
          exists j s, fst v = k + j /\ ts !! j = Some s /\ fst (snd v) ∈ peers s
                      /\ infos s !! peer_info (fst (snd v)) = Some (snd (snd v))).
Proof.
  revert k. induction ts as [|s ts IH]; intros k Hsafe.
  - exists []. split; [done|]. split; [done|]. split; [constructor|].
    intros v. split; [by intros ?%elem_of_nil|]. by intros (j & s & _ & ? & _).
  - apply Forall_cons in Hsafe as [(Hnd & Halive & _ & _) Hsafe].
    destruct (LimitFacts.with_records_spec s (peers s) Halive) as (r & Hr & Hmap & Hall).
    destruct (IH (S k) Hsafe) as (there & Hthere & Hlen & Hnd' & Hiff).
    exists (map (pair k) r ++ there). split; [simpl; by rewrite Hr, Hthere|].
    assert (Hhere : forall v, v ∈ map (pair k) r <->
              fst v = k /\ fst (snd v) ∈ peers s
              /\ infos s !! peer_info (fst (snd v)) = Some (snd (snd v))).
    { intros [j [p ip]]. simpl. rewrite list_elem_of_fmap. split.
      - intros ([p' ip'] & Heq & Hp). injection Heq as -> -> ->. split; [done|]. split.
        + rewrite <- Hmap. apply list_elem_of_fmap. by exists (p', ip').
        + by apply (proj1 (Forall_forall _ _) Hall (p', ip')).
      - intros (-> & Hp & Hip). rewrite <- Hmap in Hp.
        apply list_elem_of_fmap in Hp as ([p' ip'] & Heq & Hp'). simpl in Heq. subst p'.
        exists (p, ip'). split; [|done].
        pose proof (proj1 (Forall_forall _ _) Hall (p, ip') Hp') as H. simpl in H.
        congruence. }
    split; [|split].
    + rewrite length_app, length_map. simpl. unfold peerCount, session_peer in *.
      rewrite Hlen. by rewrite <- Hmap, length_map.
    + rewrite map_app. apply NoDup_app. split; [|split; [|done]].
      * rewrite map_map. unfold peer_tag. simpl.
        rewrite <- (map_map (fun x => msgs (fst x)) (pair k)).
        apply (NoDup_fmap_2 (pair k)).
        rewrite <- (map_map fst msgs). by rewrite Hmap.
      * intros x Hx Hx'.
        apply list_elem_of_fmap in Hx as (v & -> & Hv).
        apply list_elem_of_fmap in Hx' as (v' & Heq & Hv').
        apply Hhere in Hv as (Hk & _). apply Hiff in Hv' as (j & _ & Hj & _).
        unfold peer_tag in Heq. injection Heq as Heq _. lia.
    + intros v. rewrite elem_of_app, Hhere, Hiff. split.
      * intros [(Hk & Hp & Hip) | (j & t & Hj & Ht & Hp & Hip)].
        -- exists 0, s. rewrite Nat.add_0_r. by repeat split.
        -- exists (S j), t. repeat split; [lia | done | done | done].
      * intros ([|j] & t & Hj & Ht & Hp & Hip); simpl in Ht.
        -- left. injection Ht as <-. rewrite Nat.add_0_r in Hj. by repeat split.
        -- right. exists j, t. repeat split; [lia | done | done | done].
Qed.

Section SessionLimit.

Variable peer_destroyed : tr_peer_info -> tr_peer_info.

Lemma enforceSessionPeerLimit_spec session ts :
  Forall removal_is_safe ts ->
  exists ts',
    enforceSessionPeerLimit peer_destroyed session ts = Some ts'
    /\ Forall removal_is_safe ts'
    /\ total_peer_count ts' = Nat.min (total_peer_count ts) (peerLimit session)
    /\ Forall2 some_peers_left ts ts'
    /\ (forall i j s s' t t' p q ip iq,
          ts !! i = Some s -> ts' !! i = Some s' ->
          ts !! j = Some t -> ts' !! j = Some t' ->
          p ∈ peers s' -> q ∈ peers t -> q ∉ peers t' ->
          infos s !! peer_info p = Some ip -> infos t !! peer_info q = Some iq ->
          ComparePeerByMostActive.lt (q, iq) (p, ip) = false).
Proof.
  intros Hsafe. unfold enforceSessionPeerLimit.
  destruct (Nat.leb_spec (total_peer_count ts) (peerLimit session)) as [Hle|Hgt].
  { exists ts. split; [done|]. split; [done|]. split; [lia|]. split.
    - apply Forall_Forall2_diag, Forall_forall. intros s _. apply PulseFacts.some_peers_left_refl.
    - intros i j s s' t t' p q ip iq _ _ Ht Ht' _ Hq Hq'.
      assert (t' = t) as -> by congruence. done. }
  destruct (all_peers_spec 0 ts Hsafe) as (all & Hall & Hlen & Hnd & Hiff).
  rewrite Hall. simpl.
  set (max := peerLimit session) in *.
  destruct (Nat.ltb_spec max (length all)) as [_|Hno]; [|lia].
  set (sorted := sort_by most_active_first all).
  assert (Hperm : Permutation sorted all) by apply SortFacts.sort_by_perm.
  assert (Hsorted : StronglySorted (in_order most_active_first) sorted).
  { apply (SortedFacts.sort_by_in_order most_active_first (fun _ => True)).
    - intros a b _ _. apply most_active_first_asym.
    - intros a b c _ _ _. apply most_active_first_negtrans.
    - by apply Forall_forall. }
  set (V := drop max sorted).
  assert (HV_in : forall v, v ∈ V -> v ∈ all).
  { intros v Hv. rewrite <- Hperm. by apply (subseteq_drop max sorted). }
  assert (Hnd_sorted : NoDup (map peer_tag sorted)).
  { apply (NoDup_Permutation_proper _ _ (Permutation_map peer_tag Hperm)). exact Hnd. }
  assert (Hnd_V : NoDup (map peer_tag V)).
  { rewrite <- (take_drop max sorted), map_app in Hnd_sorted.
    by apply NoDup_app in Hnd_sorted as (_ & _ & H). }
  assert (HlenV : length V = total_peer_count ts - max).
  { unfold V. rewrite length_drop. rewrite (Permutation_length Hperm). lia. }
  destruct (PulseFacts.close_peers_fold peer_destroyed V ts Hsafe Hnd_V)
    as (ts' & Hfold & Hsafe' & Hlen' & Hcount' & Hall').
  { intros v Hv. apply HV_in, Hiff in Hv as (j & s & Hj & Hs & Hp & _).
    exists s. simpl in Hj. rewrite Hj. done. }
  exists ts'. split; [done|]. split; [done|]. split; [lia|]. split.
  { apply Forall2_same_length_lookup. split; [done|].
    intros i s s' Hs Hs'. destruct (Hall' i s Hs) as (s'' & Hs'' & _ & _ & L).
    assert (s'' = s') as -> by congruence. done. }
  intros i j s s' t t' p q ip iq Hs Hs' Ht Ht' Hp Hq Hq' Hip Hiq.
  destruct (Hall' i s Hs) as (s'' & Hs'' & Hps & _ & _).
  assert (s'' = s') as -> by congruence.
  destruct (Hall' j t Ht) as (t'' & Ht'' & Hpt & _ & _).
  assert (t'' = t') as -> by congruence.
  (* the peer that was kept is among the first [max] *)
  rewrite Hps in Hp. apply CloseFacts.elem_of_filter_list in Hp as [Hp Hp_kept].
  apply negb_true_iff, bool_decide_eq_false in Hp_kept.
  assert (Hp_all : (i, (p, ip)) ∈ all).
  { apply Hiff. exists i, s. by repeat split. }
  assert (Hp_take : (i, (p, ip)) ∈ take max sorted).
  { rewrite <- Hperm, <- (take_drop max sorted) in Hp_all.
    apply elem_of_app in Hp_all as [H|H]; [done|].
    exfalso. apply Hp_kept. apply list_elem_of_fmap. by exists (i, (p, ip)). }
  (* the peer that was closed is among the others *)
  assert (Hq_V : (j, (q, iq)) ∈ V).
  { assert (Hq_all : (j, (q, iq)) ∈ all).
    { apply Hiff. exists j, t. by repeat split. }
    rewrite <- Hperm, <- (take_drop max sorted) in Hq_all.
    apply elem_of_app in Hq_all as [H|H]; [|done].
    exfalso. apply Hq'. rewrite Hpt. apply CloseFacts.elem_of_filter_list.
    split; [done|]. apply negb_true_iff, bool_decide_eq_false.
    intros Hin. apply list_elem_of_fmap in Hin as (v & Htag & Hv).
    rewrite <- (take_drop max sorted), map_app in Hnd_sorted.
    apply NoDup_app in Hnd_sorted as (_ & Hdisj & _).
    apply (Hdisj (j, msgs q)).
    - apply list_elem_of_fmap. by exists (j, (q, iq)).
    - apply list_elem_of_fmap. by exists v. }
  apply (SortedFacts.sorted_take_before_drop (in_order most_active_first) max sorted
           (i, (p, ip)) (j, (q, iq)) Hsorted Hp_take Hq_V).
Qed.

End SessionLimit.

End SessionLimitFacts.

Module ReconnectFacts.

Section Phases.

Variable peer_destroyed : tr_peer_info -> tr_peer_info.
Variable idle_secs : tr_peer_info -> Z -> option Z.
Variable idle_limit : nat -> nat -> Z.

Lemma remove_crappy_peers_spec now_sec s :
  removal_is_safe s ->
  exists s1,
    remove_crappy_peers peer_destroyed idle_secs idle_limit now_sec s = Some s1
    /\ removal_is_safe s1
    /\ some_peers_left s s1
    /\ (is_running s = false -> peers s1 = [])
    /\ (is_running s = true ->
        forall p, p ∈ peers s1 ->
          shouldPeerBeClosed idle_secs idle_limit s p (peerCount s) now_sec = Some false).
Proof.
  intros Hsafe. pose proof Hsafe as (Hnd & Halive & Hspare & Hcount).
  unfold remove_crappy_peers. destruct (is_running s) eqn:Hrun; simpl.
  - set (should := fun p => bool_decide (shouldPeerBeClosed idle_secs idle_limit s p
                                           (length (peers s)) now_sec = Some true)).
    assert (Hbad : get_peers_to_close idle_secs idle_limit s now_sec
                   = Some (List.filter should (peers s))).
    { unfold get_peers_to_close. by apply CloseFacts.get_peers_to_close_filter. }
    destruct (PulseFacts.remove_peers_safe peer_destroyed (List.filter should (peers s)) s Hsafe)
      as (s1 & Hs1 & Hsafe1 & Hp1 & _ & _ & L1).
    { by apply LifecycleFacts.NoDup_msgs_filter. }
    { intros v Hv. by apply CloseFacts.elem_of_filter_list in Hv as [Hv _]. }
    exists s1. split; [unfold close_bad_peers; by rewrite Hbad|].
    split; [done|]. split; [done|]. split; [done|].
    intros _ p Hp. rewrite Hp1 in Hp.
    apply CloseFacts.elem_of_filter_list in Hp as [Hp Hkept].
    apply negb_true_iff, bool_decide_eq_false in Hkept.
    destruct (CloseFacts.shouldPeerBeClosed_is_Some idle_secs idle_limit s p
                (peerCount s) now_sec (Halive p Hp)) as [c Hc].
    rewrite Hc. destruct c; [|done].
    exfalso. apply Hkept. apply list_elem_of_fmap. exists p. split; [done|].
    apply CloseFacts.elem_of_filter_list. split; [done|]. by apply bool_decide_eq_true.
  - destruct (LifecycleFacts.remove_peers_spec peer_destroyed (peers s) (with_peers [] s) Hnd)
      as (s1 & Hs1 & R); [done | done |].
    destruct (ra_frame _ _ _ R) as (F1 & F2 & F3 & _).
    assert (Hnone : peers s1 = []).
    { rewrite (ra_peers _ _ _ R). simpl.
      clear. induction (peers s) as [|p ps IH]; simpl; done. }
    exists s1. split; [done|]. split.
    { unfold removal_is_safe, peerCount. rewrite Hnone. split; [constructor|].
      split; [by intros p ?%elem_of_nil|]. split; [by intros a b ia ?%elem_of_nil|].
      rewrite (ra_count _ _ _ R). simpl. unfold peerCount in Hcount. lia. }
    split; [|done].
    repeat split; [done | by rewrite F3 |]. rewrite Hnone. apply sublist_nil_l.
Qed.

Lemma cull_swarm_spec s :
  removal_is_safe s ->
  exists s2,
    cull_swarm peer_destroyed s = Some s2
    /\ removal_is_safe s2
    /\ some_peers_left s s2
    /\ (tor_is_running (tor s) = true -> peerCount s2 <= peer_limit (tor s)).
Proof.
  intros Hsafe. pose proof Hsafe as (Hnd & Halive & Hspare & Hcount).
  unfold cull_swarm. destruct (tor_is_running (tor s)).
  2:{ exists s. split; [done|]. split; [done|]. split; [|done].
      apply PulseFacts.some_peers_left_refl. }
  unfold enforceSwarmPeerLimit. set (max := peer_limit (tor s)).
  destruct (Nat.leb_spec (peerCount s) max) as [Hle|Hgt].
  { exists s. split; [done|]. split; [done|]. split; [|done].
    apply PulseFacts.some_peers_left_refl. }
  destruct (LimitFacts.with_records_spec s (peers s) Halive) as (r & Hr & Hmap & _).
  rewrite Hr. simpl.
  set (k := peerCount s - max).
  set (sorted := sort_by ComparePeerByLeastActive r).
  assert (Hperm : Permutation sorted r) by apply SortFacts.sort_by_perm.
  assert (Hsplit : Permutation (map fst (take k sorted) ++ map fst (drop k sorted)) (peers s)).
  { rewrite <- map_app, take_drop, <- Hmap. by apply Permutation_map. }
  set (V := map fst (take k sorted)) in *.
  assert (Hnd2 : NoDup (map msgs (V ++ map fst (drop k sorted)))).
  { apply (NoDup_Permutation_proper _ _ (Permutation_map msgs Hsplit)). exact Hnd. }
  assert (HlenV : length V = k).
  { unfold V. rewrite length_map, length_take.
    rewrite (Permutation_length Hperm), <- (length_map fst r), Hmap.
    unfold k, peerCount in *. lia. }
  destruct (PulseFacts.remove_peers_safe peer_destroyed V s Hsafe)
    as (s2 & Hs2 & Hsafe2 & _ & Hc2 & _ & L2).
  { rewrite map_app in Hnd2. by apply NoDup_app in Hnd2 as (Hnd_v & _ & _). }
  { intros p Hp. rewrite <- Hsplit. apply elem_of_app. by left. }
  exists s2. split; [done|]. split; [done|]. split; [done|].
  intros _. unfold k in *. lia.
Qed.

Lemma mapM_phase (f : tr_swarm -> option tr_swarm) (Q : tr_swarm -> tr_swarm -> Prop) ts :
  (forall s, removal_is_safe s ->
     exists s', f s = Some s' /\ removal_is_safe s' /\ Q s s') ->
  Forall removal_is_safe ts ->
  exists ts', mapM f ts = Some ts' /\ Forall removal_is_safe ts' /\ Forall2 Q ts ts'.
Proof.
  intros Hf. induction 1 as [|s ts Hs Hts IH].
  - exists []. split; [done|]. split; constructor.
  - destruct (Hf s Hs) as (s' & Hs' & Hsafe' & HQ).
    destruct IH as (ts' & Hts' & Hsafes & HQs).
    exists (s' :: ts'). split; [|split; by constructor].
    rewrite mapM_Some. constructor; [done|]. by apply mapM_Some.
Qed.

End Phases.

Lemma same_peers_refl s : same_peers s s.
Proof. by repeat split. Qed.

Lemma same_peers_trans s1 s2 s3 : same_peers s1 s2 -> same_peers s2 s3 -> same_peers s1 s3.
Proof. intros (?&?&?) (?&?&?). repeat split; congruence. Qed.

Lemma Forall2_same_peers_refl ts : Forall2 same_peers ts ts.
Proof. apply Forall_Forall2_diag, Forall_forall. intros s _. apply same_peers_refl. Qed.

Lemma Forall2_same_peers_trans ts1 ts2 ts3 :
  Forall2 same_peers ts1 ts2 -> Forall2 same_peers ts2 ts3 -> Forall2 same_peers ts1 ts3.
Proof.
  intros H. revert ts3. induction H as [|s1 s2 ts1 ts2 Hs Hts IH]; intros ts3 H23.
  - by inversion H23.
  - inversion H23 as [|? s3 ? ts3' Hs' Hts']; subst. constructor.
    + by apply (same_peers_trans s1 s2 s3).
    + by apply IH.
Qed.

Lemma same_peers_ids ts ts' :
  Forall2 same_peers ts ts' ->
  map (fun s => tor_id (tor s)) ts' = map (fun s => tor_id (tor s)) ts.
Proof.
  induction 1 as [|s s' ts ts' (T & _ & _) _ IH]; simpl; [done|]. by rewrite T, IH.
Qed.

Lemma some_peers_left_ids ts ts' :
  Forall2 some_peers_left ts ts' ->
  map (fun s => tor_id (tor s)) ts' = map (fun s => tor_id (tor s)) ts.
Proof.
  induction 1 as [|s s' ts ts' (T & _ & _) _ IH]; simpl; [done|]. by rewrite T, IH.
Qed.

Section Dial.

Variable reconnect_interval_has_passed : tr_peer_info -> Z -> bool.
Variable new_outgoing_ok : tr_socket_address -> bool.

Lemma candidate_step_same_peers session now salter acc entry :
  same_peers (snd acc)
    (snd (candidate_step reconnect_interval_has_passed session now salter acc entry)).
Proof.
  unfold candidate_step. destruct (infos (snd acc) !! snd entry) as [info|]; [|by repeat split].
  by destruct (fst (is_peer_candidate _ _ _ _ _)).
Qed.

Lemma candidate_fold_same_peers session now salter entries acc :
  same_peers (snd acc)
    (snd (fold_left (candidate_step reconnect_interval_has_passed session now salter)
            entries acc)).
Proof.
  revert acc. induction entries as [|e entries IH]; intros acc; simpl;
    [apply same_peers_refl|].
  eapply same_peers_trans; [apply candidate_step_same_peers | apply IH].
Qed.

Lemma is_all_seeds_same_peers s : same_peers s (snd (is_all_seeds s)).
Proof. unfold is_all_seeds. by destruct (pool_is_all_seeds_ s). Qed.

Lemma swarm_candidates_same_peers session now salter acc s :
  same_peers s
    (snd (swarm_candidates reconnect_interval_has_passed session now salter acc s)).
Proof.
  unfold swarm_candidates.
  destruct (negb (is_running s)); [apply same_peers_refl|].
  set (all_seeds := if is_done (tor s) then is_all_seeds s else (false, s)).
  assert (H1 : same_peers s (snd all_seeds)).
  { unfold all_seeds. destruct (is_done (tor s));
      [apply is_all_seeds_same_peers | apply same_peers_refl]. }
  destruct (is_done (tor s) && fst all_seeds && negb (allows_pex (tor (snd all_seeds))));
    [done|].
  destruct (Nat.leb _ _); [done|].
  destruct (is_done (tor s) && upload_is_maxed_out (tor (snd all_seeds))); [done|].
  eapply same_peers_trans; [exact H1|].
  apply (candidate_fold_same_peers session now salter _ (acc, snd all_seeds)).
Qed.

Lemma collect_fold_same_peers session now salter ts acc :
  exists ts',
    snd (fold_left
           (fun (acc : list peer_candidate * nat * list tr_swarm) s =>
              let c := swarm_candidates reconnect_interval_has_passed session now salter
                         (fst acc) s in
              (fst c, snd acc ++ [snd c]))
           ts acc) = snd acc ++ ts'
    /\ Forall2 same_peers ts ts'.
Proof.
  revert acc. induction ts as [|s ts IH]; intros acc; cbn [fold_left].
  - exists []. split; [by rewrite app_nil_r | constructor].
  - destruct (IH (fst (swarm_candidates reconnect_interval_has_passed session now salter
                         (fst acc) s),
                  snd acc ++ [snd (swarm_candidates reconnect_interval_has_passed session
                                     now salter (fst acc) s)]))
      as (ts' & Hts' & HQ).
    eexists (_ :: ts'). split.
    + refine (eq_trans Hts' _). simpl. by rewrite <- app_assoc.
    + constructor; [apply swarm_candidates_same_peers | done].
Qed.

Lemma get_peer_candidates_same_peers now salter mgr :
  Forall2 same_peers (torrents mgr)
    (torrents (snd (get_peer_candidates reconnect_interval_has_passed now salter mgr))).
Proof.
  unfold get_peer_candidates. destruct (Nat.leb _ _); [apply Forall2_same_peers_refl|].
  destruct (collect_fold_same_peers (session mgr) now salter (torrents mgr) (([], 0), []))
    as (ts' & Hts' & HQ).
  change (torrents (snd (best_candidates_last
                      (fst (collect_candidates reconnect_interval_has_passed (session mgr)
                              now salter (torrents mgr))),
                    with_torrents
                      (snd (collect_candidates reconnect_interval_has_passed (session mgr)
                              now salter (torrents mgr))) mgr)))
    with (snd (collect_candidates reconnect_interval_has_passed (session mgr) now salter
                 (torrents mgr))).
  unfold collect_candidates. cbn [snd].
  refine (eq_ind_r (fun l => Forall2 same_peers (torrents mgr) l) HQ Hts').
Qed.

Lemma put_torrent_same_peers id s0 s' mgr :
  NoDup (map (fun s => tor_id (tor s)) (torrents mgr)) ->
  get_torrent id mgr = Some s0 ->
  same_peers s0 s' ->
  Forall2 same_peers (torrents mgr) (torrents (put_torrent id s' mgr)).
Proof.
  intros Hnd Hget HQ. unfold put_torrent. simpl.
  apply Forall2_fmap_r, Forall_Forall2_diag, Forall_forall. intros s Hs.
  change (same_peers s (if N.eqb (tor_id (tor s)) id then s' else s)).
  destruct (N.eqb_spec (tor_id (tor s)) id) as [E|E]; [|apply same_peers_refl].
  unfold get_torrent in Hget. apply find_some in Hget as [Hin Hid].
  apply N.eqb_eq in Hid.
  assert (s = s0) as ->; [|done].
  apply (RechokeFacts.NoDup_map_eq (fun s => tor_id (tor s)) (torrents mgr));
    [done | done | by apply list_elem_of_In | congruence].
Qed.

Lemma initiate_connection_same_peers session now p s :
  same_peers s (fst (initiate_connection new_outgoing_ok session now p s)).
Proof.
  unfold initiate_connection. destruct (infos s !! p) as [info|]; [|apply same_peers_refl].
  destruct (_ || _); [apply same_peers_refl|]. simpl.
  by destruct (negb (new_outgoing_ok (listen_socket_address info))).
Qed.

Lemma dial_step_same_peers now acc candidate :
  NoDup (map (fun s => tor_id (tor s)) (torrents (fst acc))) ->
  Forall2 same_peers (torrents (fst acc))
    (torrents (fst (dial_step new_outgoing_ok now acc candidate))).
Proof.
  intros Hnd. unfold dial_step.
  destruct (get_torrent (fst candidate) (fst acc)) as [s|] eqn:Hget;
    [|apply Forall2_same_peers_refl].
  destruct (get_existing_peer_info (snd candidate) s) as [p|];
    [|apply Forall2_same_peers_refl].
  simpl. apply (put_torrent_same_peers _ s); [done | done |].
  apply initiate_connection_same_peers.
Qed.

Lemma dial_fold_same_peers now candidates acc :
  NoDup (map (fun s => tor_id (tor s)) (torrents (fst acc))) ->
  Forall2 same_peers (torrents (fst acc))
    (torrents (fst (fold_left (dial_step new_outgoing_ok now) candidates acc))).
Proof.
  revert acc. induction candidates as [|c candidates IH]; intros acc Hnd; simpl;
    [apply Forall2_same_peers_refl|].
  pose proof (dial_step_same_peers now acc c Hnd) as H1.
  eapply Forall2_same_peers_trans; [exact H1|].
  apply IH. by rewrite (same_peers_ids _ _ H1).
Qed.

Lemma make_new_peer_connections_same_peers now salter mgr :
  NoDup (map (fun s => tor_id (tor s)) (torrents mgr)) ->
  Forall2 same_peers (torrents mgr)
    (torrents (fst (make_new_peer_connections reconnect_interval_has_passed new_outgoing_ok
                      now salter mgr))).
Proof.
  intros Hnd. unfold make_new_peer_connections. simpl.
  set (c := candidates_to_dial reconnect_interval_has_passed now salter mgr).
  assert (H1 : Forall2 same_peers (torrents mgr) (torrents (snd c))).
  { unfold c, candidates_to_dial. destruct (outbound_candidates_ mgr);
      [apply get_peer_candidates_same_peers | apply Forall2_same_peers_refl]. }
  eapply Forall2_same_peers_trans; [exact H1|].
  apply (dial_fold_same_peers now _ (snd c, [])). simpl.
  by rewrite (same_peers_ids _ _ H1).
Qed.

End Dial.

End ReconnectFacts.

(** X29: [enforceSessionPeerLimit] cuts the session down to its peer
    limit and closes the least active peers, whatever their torrent.
    Under the conditions of a safe removal in every swarm it succeeds;
    afterwards the swarms hold [min(n, peerLimit)] of the [n] peers of the
    session, every swarm keeps some of its peers in their order, and no
    peer that was closed is more active by [ComparePeerByMostActive] than
    a peer that was kept, in the same swarm or in another one. *)
Theorem enforceSessionPeerLimit_closes_the_least_active
    (peer_destroyed : tr_peer_info -> tr_peer_info)
    (session : tr_session) (ts : list tr_swarm) :
  Forall removal_is_safe ts ->
  exists ts',
    enforceSessionPeerLimit peer_destroyed session ts = Some ts'
    /\ total_peer_count ts' = Nat.min (total_peer_count ts) (peerLimit session)
    /\ Forall2 some_peers_left ts ts'
    /\ (forall i j s s' t t' p q ip iq,
          ts !! i = Some s -> ts' !! i = Some s' ->
          ts !! j = Some t -> ts' !! j = Some t' ->
          p ∈ peers s' -> q ∈ peers t -> q ∉ peers t' ->
          infos s !! peer_info p = Some ip -> infos t !! peer_info q = Some iq ->
          ComparePeerByMostActive.lt (q, iq) (p, ip) = false).
Proof.
  intros Hsafe.
  destruct (SessionLimitFacts.enforceSessionPeerLimit_spec peer_destroyed session ts Hsafe)
    as (ts' & Hrun & _ & Hcount & Hleft & Hbest).
  by exists ts'.
Qed.

Lemma sample_purge_swarm_is_safe : removal_is_safe sample_purge_swarm.
Proof.
  exact (conj (proj1 sample_purge_swarm_removal_is_safe)
           (conj (proj1 (proj2 sample_purge_swarm_removal_is_safe))
              (conj (proj2 (proj2 sample_purge_swarm_removal_is_safe)) eq_refl))).
Defined.

Lemma enforceSessionPeerLimit_closes_the_least_active_witness :
  exists ts',
    enforceSessionPeerLimit (set_connected false) sample_tight_session [sample_purge_swarm]
    = Some ts'
    /\ total_peer_count ts' = 1.
Proof.
  destruct (enforceSessionPeerLimit_closes_the_least_active (set_connected false)
              sample_tight_session [sample_purge_swarm])
    as (ts' & Hrun & Hcount & _).
  - constructor; [exact sample_purge_swarm_is_safe | constructor].
  - exists ts'. split; [exact Hrun | exact Hcount].
Defined.

Module PulseComposition.

Lemma same_peers_some_left s s' : same_peers s s' -> some_peers_left s s'.
Proof. intros (T & R & P). repeat split; [done | done |]. by rewrite P. Qed.

Lemma total_peer_count_same ts ts' :
  Forall2 same_peers ts ts' -> total_peer_count ts' = total_peer_count ts.
Proof.
  induction 1 as [|s s' ts ts' (_ & _ & P) _ IH]; simpl; [done|].
  unfold peerCount. by rewrite P, IH.
Qed.

End PulseComposition.

(** X30: after a reconnect pulse the limits hold.  Under the conditions
    of a safe removal in every swarm, and with torrent ids that are
    distinct, [reconnectPulse] succeeds, and afterwards: the session has
    at most [peerLimit] peers; every swarm keeps its torrent and some of
    its peers, in their order; a swarm that is not running has no peer
    left; in a running swarm no peer is left that [shouldPeerBeClosed]
    wanted closed at the start of the pulse; and the swarm of a running
    torrent has at most [peer_limit] peers. *)
Theorem reconnectPulse_enforces_the_limits
    (peer_destroyed : tr_peer_info -> tr_peer_info)
    (idle_secs : tr_peer_info -> Z -> option Z) (idle_limit : nat -> nat -> Z)
    (reconnect_interval_has_passed : tr_peer_info -> Z -> bool)
    (new_outgoing_ok : tr_socket_address -> bool)
    (now_sec now : Z) (salter : nat -> N) (mgr : tr_peerMgr) :
  Forall removal_is_safe (torrents mgr) ->
  NoDup (map (fun s => tor_id (tor s)) (torrents mgr)) ->
  exists mgr' dialled,
    reconnectPulse peer_destroyed idle_secs idle_limit reconnect_interval_has_passed
      new_outgoing_ok now_sec now salter mgr = Some (mgr', dialled)
    /\ total_peer_count (torrents mgr') <= peerLimit (session mgr)
    /\ Forall2
         (fun s s' =>
            some_peers_left s s'
            /\ (is_running s = false -> peers s' = [])
            /\ (is_running s = true ->
                forall p, p ∈ peers s' ->
                  shouldPeerBeClosed idle_secs idle_limit s p (peerCount s) now_sec
                  = Some false)
            /\ (tor_is_running (tor s) = true -> peerCount s' <= peer_limit (tor s)))
         (torrents mgr) (torrents mgr').
Proof.
  intros Hsafe Hids. unfold reconnectPulse.
  (* remove crappy peers *)
  destruct (ReconnectFacts.mapM_phase
              (remove_crappy_peers peer_destroyed idle_secs idle_limit now_sec)
              (fun s s1 =>
                 some_peers_left s s1
                 /\ (is_running s = false -> peers s1 = [])
                 /\ (is_running s = true ->
                     forall p, p ∈ peers s1 ->
                       shouldPeerBeClosed idle_secs idle_limit s p (peerCount s) now_sec
                       = Some false))
              (torrents mgr))
    as (ts1 & Hts1 & Hsafe1 & HQ1); [|done|].
  { intros s Hs.
    destruct (ReconnectFacts.remove_crappy_peers_spec peer_destroyed idle_secs idle_limit
                now_sec s Hs) as (s1 & H1 & H2 & H3 & H4 & H5).
    by exists s1. }
  rewrite Hts1. simpl.
  (* the per-torrent limits *)
  destruct (ReconnectFacts.mapM_phase (cull_swarm peer_destroyed)
              (fun s1 s2 =>
                 some_peers_left s1 s2
                 /\ (tor_is_running (tor s1) = true -> peerCount s2 <= peer_limit (tor s1)))
              ts1)
    as (ts2 & Hts2 & Hsafe2 & HQ2); [|done|].
  { intros s Hs.
    destruct (ReconnectFacts.cull_swarm_spec peer_destroyed s Hs) as (s2 & H1 & H2 & H3 & H4).
    by exists s2. }
  rewrite Hts2. simpl.
  (* the per-session limit *)
  destruct (SessionLimitFacts.enforceSessionPeerLimit_spec peer_destroyed (session mgr) ts2
              Hsafe2) as (ts3 & Hts3 & _ & Hcount3 & HQ3 & _).
  rewrite Hts3. simpl.
  (* new connections *)
  set (mgr3 := with_torrents ts3 mgr).
  assert (Hids3 : NoDup (map (fun s => tor_id (tor s)) (torrents mgr3))).
  { simpl. rewrite (ReconnectFacts.some_peers_left_ids _ _ HQ3).
    rewrite (ReconnectFacts.some_peers_left_ids ts1 ts2).
    - rewrite (ReconnectFacts.some_peers_left_ids (torrents mgr) ts1); [done|].
      eapply Forall2_impl; [exact HQ1|]. by intros s s1 (H & _).
    - eapply Forall2_impl; [exact HQ2|]. by intros s s1 (H & _). }
  pose proof (ReconnectFacts.make_new_peer_connections_same_peers
                reconnect_interval_has_passed new_outgoing_ok now salter mgr3 Hids3) as HQ4.
  destruct (make_new_peer_connections reconnect_interval_has_passed new_outgoing_ok now
              salter mgr3) as [mgr' dialled] eqn:Hdial.
  simpl in HQ4. exists mgr', dialled. split; [done|]. split.
  { rewrite (PulseComposition.total_peer_count_same _ _ HQ4). lia. }
  apply Forall2_same_length_lookup. split.
  { rewrite <- (Forall2_length _ _ _ HQ4), <- (Forall2_length _ _ _ HQ3),
      <- (Forall2_length _ _ _ HQ2). by apply Forall2_length in HQ1. }
  intros i s s' Hs Hs'.
  destruct (Forall2_lookup_l _ _ _ _ _ HQ1 Hs) as (s1 & Hs1 & L1 & Hstopped & Hkept).
  destruct (Forall2_lookup_l _ _ _ _ _ HQ2 Hs1) as (s2 & Hs2 & L2 & Hlimit).
  destruct (Forall2_lookup_l _ _ _ _ _ HQ3 Hs2) as (s3 & Hs3 & L3).
  destruct (Forall2_lookup_l _ _ _ _ _ HQ4 Hs3) as (s4 & Hs4 & L4%PulseComposition.same_peers_some_left).
  assert (s4 = s') as -> by congruence.
  assert (L23 : some_peers_left s2 s')
    by (eapply PulseFacts.some_peers_left_trans; [exact L3 | exact L4]).
  assert (L13 : some_peers_left s1 s')
    by (eapply PulseFacts.some_peers_left_trans; [exact L2 | exact L23]).
  split; [eapply PulseFacts.some_peers_left_trans; [exact L1 | exact L13]|].
  destruct L13 as (_ & _ & Hsub1). destruct L23 as (_ & _ & Hsub2).
  split; [|split].
  - intros Hrun. rewrite (Hstopped Hrun) in Hsub1. by apply sublist_nil_r.
  - intros Hrun p Hp. apply (Hkept Hrun). by apply (elem_of_sublist _ _ _ Hp Hsub1).
  - intros Hrun. destruct L1 as (T1 & _ & _). rewrite T1 in Hlimit.
    specialize (Hlimit Hrun). apply sublist_length in Hsub2. unfold peerCount in *. lia.
Qed.

Lemma reconnectPulse_enforces_the_limits_witness :
  exists mgr' dialled,
    reconnectPulse (set_connected false) (fun _ _ => None) (fun _ _ => 300%Z)
      (fun _ _ => true) (fun _ => true) 1000 1000 (fun _ => 0%N)
      (mk_peerMgr sample_tight_session [sample_purge_swarm] ∅ []) = Some (mgr', dialled)
    /\ total_peer_count (torrents mgr') <= 1.
Proof.
  destruct (reconnectPulse_enforces_the_limits (set_connected false) (fun _ _ => None)
              (fun _ _ => 300%Z) (fun _ _ => true) (fun _ => true) 1000 1000
              (fun _ => 0%N)
              (mk_peerMgr sample_tight_session [sample_purge_swarm] ∅ []))
    as (mgr' & dialled & Hrun & Hcount & _).
  - constructor; [exact sample_purge_swarm_is_safe | constructor].
  - refine (bool_decide_unpack (NoDup _) _). vm_compute. exact I.
  - exists mgr', dialled. split; [exact Hrun | exact Hcount].
Defined.
